(** * Pat voice proxy: the WebSocket relay

    A shallow embedding of the relay's frame codec ([sendWsFrame],
    [parseWsFrames]), of its upgrade handler and of the per-session
    [data] handler, with the properties of the relay's specification
    stated and proved (or refuted) over it.

    Conventions of the embedding.
    - A Node [Buffer] is a [list byte]; element reads yield the byte's
      value in [0, 256) as a [Z], element writes store [value mod 256].
    - A JavaScript number that holds an index, a length or an opcode is a
      [Z].  The only places where the source leaves the range of exactly
      represented integers are [Number(big)] and [frameStart + length];
      both are rounded to the nearest double by [to_double].
    - A JavaScript string is the [string] of its UTF-8 bytes, so that
      [Buffer.from(s, "utf8")] is [list_byte_of_string]; the string that
      [buffer.toString("utf8")] makes is given by its UTF-8 bytes as well.
    - The limits of the platform are those of the 64-bit Node releases
      that have the global [WebSocket] the relay uses (22 onwards):
      [buffer.constants.MAX_LENGTH] and [MAX_STRING_LENGTH].  Running out
      of memory is not modelled.
    - Effects (writes to the client socket, calls on the upstream
      WebSocket) are recorded as a chronological trace of [Event]s in the
      session state, threaded by a small state-and-exception monad. *)

From Stdlib Require Import ZArith Lia String Ascii.
From Stdlib.Strings Require Import Byte.
From stdpp Require Import base option list strings gmap.

Local Open Scope Z_scope.

(** ** Bytes and buffers *)

Abbreviation Buffer := (list byte).

(** Value of a buffer element, as read by [buffer[i]]. *)
Definition byte_val (b : byte) : Z := Z.of_N (Byte.to_N b).

(** Element store: a [Buffer] keeps the low eight bits of the value. *)
Definition to_byte (z : Z) : byte :=
  match Byte.of_N (Z.to_N (z mod 256)) with
  | Some b => b
  | None => x00
  end.

(** [buffer.length]. *)
Definition blen (b : Buffer) : Z := Z.of_nat (length b).

(** [buffer[i]] in a bitwise or arithmetic context: an index outside the
    buffer reads [undefined], which such a context turns into 0. *)
Definition rd (b : Buffer) (i : Z) : Z :=
  if i <? 0 then 0
  else match b !! Z.to_nat i with
       | Some x => byte_val x
       | None => 0
       end.

(** [Buffer.alloc(n)]: [n] zero bytes. *)
Definition alloc (n : Z) : Buffer := replicate (Z.to_nat n) x00.

(** [buffer[i] = v]; a store outside the buffer is dropped. *)
Definition wr (b : Buffer) (i : Z) (v : Z) : Buffer :=
  if i <? 0 then b else <[Z.to_nat i := to_byte v]> b.

(** [buffer.subarray(start, end)] for non-negative [start] and [end] (the
    only ones the relay passes): both are clamped to the length, and an
    [end] before [start] gives the empty view. *)
Definition subarray (b : Buffer) (start end_ : Z) : Buffer :=
  take (Z.to_nat (end_ - start)) (drop (Z.to_nat start) b).

(** [buffer.subarray(start)]. *)
Definition subarray_from (b : Buffer) (start : Z) : Buffer :=
  drop (Z.to_nat start) b.

(** [buffer.constants.MAX_LENGTH]: [2^53 - 1] on the releases the relay
    runs on, and never more on any Node release; a buffer the relay can
    hold is never longer. *)
Definition MAX_LENGTH : Z := 2 ^ 53 - 1.

Definition Buffer_ok (b : Buffer) : Prop := blen b <= MAX_LENGTH.

(** ** JavaScript numbers *)

(** The double nearest to a non-negative integer [x] (ties to even), as
    an integer: the value of [Number(x)] for a BigInt [x], and of a sum of
    two integer-valued doubles whose exact sum is [x].  Integers up to
    [2^53] are exact. *)
Definition to_double (x : Z) : Z :=
  if x <=? 2 ^ 53 then x
  else
    let e := Z.log2 x - 52 in
    let q := Z.shiftr x e in
    let r := x - Z.shiftl q e in
    let half := 2 ^ (e - 1) in
    let q' :=
      if r <? half then q
      else if half <? r then q + 1
      else if Z.even q then q else q + 1 in
    Z.shiftl q' e.

(** [Number(big)]. *)
Definition Number (big : Z) : Z := to_double big.

(** [a + b] on integer-valued doubles. *)
Definition js_add (a b : Z) : Z := to_double (a + b).

(** [buffer.readUInt16BE(offset)]. *)
Definition readUInt16BE (b : Buffer) (offset : Z) : Z :=
  rd b offset * 256 + rd b (offset + 1).

(** [buffer.readBigUInt64BE(offset)]: the BigInt is an exact integer. *)
Definition readBigUInt64BE (b : Buffer) (offset : Z) : Z :=
  fold_left (fun acc k => acc * 256 + rd b (offset + Z.of_nat k)) (seq 0 8) 0.

(** [buffer.writeUInt16BE(value, offset)]. *)
Definition writeUInt16BE (b : Buffer) (value offset : Z) : Buffer :=
  wr (wr b offset (Z.shiftr value 8)) (offset + 1) value.

(** [buffer.writeBigUInt64BE(value, offset)]. *)
Definition writeBigUInt64BE (b : Buffer) (value offset : Z) : Buffer :=
  fold_left
    (fun acc k => wr acc (offset + Z.of_nat k) (Z.shiftr value (8 * (7 - Z.of_nat k))))
    (seq 0 8) b.

(** ** Frame codec *)

Record Frame := { opcode : Z; payload : Buffer }.

(** What [sendWsFrame] accepts as [payload]. *)
Inductive Payload :=
  | PBuffer (b : Buffer)
  | PString (s : string).

(** The [opts] argument of [sendWsFrame]; an absent field is [None]. *)
Record Opts := { opt_opcode : option Z; opt_binary : option bool }.

(** [opts?.opcode ?? (opts?.binary === true ? 0x2 : 0x1)]. *)
Definition opts_opcode (opts : Opts) : Z :=
  match opt_opcode opts with
  | Some op => op
  | None => if bool_decide (opt_binary opts = Some true) then 2 else 1
  end.

Definition payload_data (p : Payload) : Buffer :=
  match p with
  | PBuffer b => b
  | PString s => list_byte_of_string s
  end.

(** The bytes [sendWsFrame] hands to [socket.write]: header, then data. *)
Definition frame_bytes (payload : Payload) (opts : Opts) : Buffer :=
  let opcode := opts_opcode opts in
  let data := payload_data payload in
  let length := blen data in
  let header :=
    if length <? 126 then
      let header := alloc 2 in
      let header := wr header 0 (Z.lor 128 opcode) in
      wr header 1 length
    else if length <? 65536 then
      let header := alloc 4 in
      let header := wr header 0 (Z.lor 128 opcode) in
      let header := wr header 1 126 in
      writeUInt16BE header length 2
    else
      let header := alloc 10 in
      let header := wr header 0 (Z.lor 128 opcode) in
      let header := wr header 1 127 in
      writeBigUInt64BE header length 2 in
  header ++ data.

(** The unmasking loop of [parseWsFrames]:
    [for (i = 0; i < payload.length; i += 1) unmasked[i] = payload[i] ^ maskKey[i % 4]]
    over a freshly allocated [unmasked]. *)
Definition unmask (maskKey payload : Buffer) : Buffer :=
  fold_left
    (fun unmasked (i : nat) =>
       wr unmasked (Z.of_nat i)
          (Z.lxor (rd payload (Z.of_nat i)) (rd maskKey (Z.of_nat i mod 4))))
    (seq 0 (length payload))
    (alloc (blen payload)).

(** Outcome of one pass through the body of the [while] loop. *)
Inductive Step :=
  | Break
  | Throw (msg : string)
  | Push (f : Frame) (frameEnd : Z).

(** The extended-length part of the loop body: [None] is the [break] on a
    header that is not yet complete, otherwise [(length, headerLen)]. *)
Definition read_length (buffer : Buffer) (offset : Z) (length : Z) : option (Z * Z) :=
  if length =? 126 then
    if offset + 4 >? blen buffer then None
    else Some (readUInt16BE buffer (offset + 2), 4)
  else if length =? 127 then
    if offset + 10 >? blen buffer then None
    else
      let big := readBigUInt64BE buffer (offset + 2) in
      Some (Number big, 10)
  else Some (length, 2).

Definition loop_body (buffer : Buffer) (offset : Z) : Step :=
  let b0 := rd buffer offset in
  let b1 := rd buffer (offset + 1) in
  let fin := negb (Z.land b0 128 =? 0) in
  let opcode := Z.land b0 15 in
  let masked := negb (Z.land b1 128 =? 0) in
  let length := Z.land b1 127 in
  if negb fin then Throw "Fragmented frames not supported."
  else
    match read_length buffer offset length with
    | None => Break
    | Some (length, headerLen) =>
        let maskLen := if masked then 4 else 0 in
        let frameStart := offset + headerLen + maskLen in
        let frameEnd := js_add frameStart length in
        if frameEnd >? blen buffer then Break
        else
          let payload := subarray buffer frameStart frameEnd in
          let payload :=
            if masked then
              let maskKey := subarray buffer (offset + headerLen) (offset + headerLen + 4) in
              unmask maskKey payload
            else payload in
          Push {| opcode := opcode; payload := payload |} frameEnd
    end.

(** What a call of [parseWsFrames] does: it returns, or it throws. *)
Inductive Parsed :=
  | Returned (frames : list Frame) (remaining : Buffer)
  | Thrown (msg : string).

(** The [while] loop, bounded by [fuel] passes; [None] only when the fuel
    is used up, which [length buffer] passes never do ([parse_loop_total]). *)
Fixpoint parse_loop (fuel : nat) (buffer : Buffer) (offset : Z) (frames : list Frame)
  : option Parsed :=
  if offset + 2 <=? blen buffer then
    match fuel with
    | O => None
    | S fuel' =>
        match loop_body buffer offset with
        | Break => Some (Returned frames (subarray_from buffer offset))
        | Throw msg => Some (Thrown msg)
        | Push f frameEnd => parse_loop fuel' buffer frameEnd (frames ++ [f])
        end
    end
  else Some (Returned frames (subarray_from buffer offset)).

Definition parseWsFrames (buffer : Buffer) : option Parsed :=
  parse_loop (length buffer) buffer 0 [].

(** ** SHA-1 (FIPS 180-4) and base64 (RFC 4648), as [node:crypto] computes them *)

Module Crypto.

Definition w32 (x : Z) : Z := x mod 2 ^ 32.

Definition rotl (n x : Z) : Z := w32 (Z.lor (Z.shiftl x n) (Z.shiftr x (32 - n))).

(** Big-endian value of a list of bytes. *)
Definition be_value (l : list Z) : Z := fold_left (fun acc x => acc * 256 + x) l 0.

(** The [n] low bytes of [v], most significant first. *)
Definition be_bytes (n : nat) (v : Z) : list Z :=
  (fun k => Z.shiftr v (8 * Z.of_nat (n - 1 - k)) mod 256) <$> seq 0 n.

(** The message followed by the bit 1, zeros up to 56 modulo 64 bytes
    and the length in bits on 64 bits. *)
Definition pad (msg : list Z) : list Z :=
  let len := Z.of_nat (length msg) in
  let zeros := Z.to_nat ((55 - len) mod 64) in
  msg ++ [128] ++ replicate zeros 0 ++ be_bytes 8 (8 * len).

Fixpoint chunks (fuel n : nat) (l : list Z) : list (list Z) :=
  match fuel with
  | O => []
  | S fuel' =>
      match l with
      | [] => []
      | _ => take n l :: chunks fuel' n (drop n l)
      end
  end.

(** The message schedule: [n] more words after those of [w]. *)
Fixpoint schedule (n : nat) (w : list Z) : list Z :=
  match n with
  | O => w
  | S n' =>
      let i := length w in
      let x := Z.lxor (Z.lxor (nth (i - 3) w 0) (nth (i - 8) w 0))
                      (Z.lxor (nth (i - 14) w 0) (nth (i - 16) w 0)) in
      schedule n' (w ++ [rotl 1 x])
  end.

Definition round (st : Z * Z * Z * Z * Z) (iw : nat * Z) : Z * Z * Z * Z * Z :=
  let '(a, b, c, d, e) := st in
  let '(i, w) := iw in
  let '(f, k) :=
    if (i <? 20)%nat then
      (Z.lor (Z.land b c) (Z.land (Z.lxor b (2 ^ 32 - 1)) d), 1518500249)
    else if (i <? 40)%nat then (Z.lxor (Z.lxor b c) d, 1859775393)
    else if (i <? 60)%nat then
      (Z.lor (Z.lor (Z.land b c) (Z.land b d)) (Z.land c d), 2400959708)
    else (Z.lxor (Z.lxor b c) d, 3395469782) in
  (w32 (rotl 5 a + f + e + k + w), a, rotl 30 b, c, d).

Definition compress (h : Z * Z * Z * Z * Z) (block : list Z) : Z * Z * Z * Z * Z :=
  let w := schedule 64 (be_value <$> chunks 16 4 block) in
  let '(a, b, c, d, e) := fold_left round (zip (seq 0 80) w) h in
  let '(h0, h1, h2, h3, h4) := h in
  (w32 (h0 + a), w32 (h1 + b), w32 (h2 + c), w32 (h3 + d), w32 (h4 + e)).

Definition sha1 (msg : Buffer) : Buffer :=
  let padded := pad (byte_val <$> msg) in
  let '(h0, h1, h2, h3, h4) :=
    fold_left compress (chunks (length padded) 64 padded)
      (1732584193, 4023233417, 2562383102, 271733878, 3285377520) in
  to_byte <$> (be_bytes 4 h0 ++ be_bytes 4 h1 ++ be_bytes 4 h2 ++ be_bytes 4 h3 ++ be_bytes 4 h4).

Definition alphabet : list ascii :=
  list_ascii_of_string "ABCDEFGHIJKLMNOPQRSTUVWXYZabcdefghijklmnopqrstuvwxyz0123456789+/".

Definition sextet (v : Z) : ascii := nth (Z.to_nat (v mod 64)) alphabet "A"%char.

Fixpoint base64_chars (l : list Z) : list ascii :=
  match l with
  | [] => []
  | [a] =>
      [sextet (Z.shiftr a 2); sextet (Z.shiftl a 4); "="%char; "="%char]
  | [a; b] =>
      [sextet (Z.shiftr a 2); sextet (Z.lor (Z.shiftl a 4) (Z.shiftr b 4));
       sextet (Z.shiftl b 2); "="%char]
  | a :: b :: c :: rest =>
      sextet (Z.shiftr a 2) :: sextet (Z.lor (Z.shiftl a 4) (Z.shiftr b 4))
      :: sextet (Z.lor (Z.shiftl b 2) (Z.shiftr c 6)) :: sextet c
      :: base64_chars rest
  end.

(** [buffer.toString("base64")]. *)
Definition base64 (b : Buffer) : string :=
  string_of_list_ascii (base64_chars (byte_val <$> b)).

End Crypto.

(** [crypto.createHash("sha1").update(s).digest("base64")]. *)
Definition sha1_base64 (s : string) : string :=
  Crypto.base64 (Crypto.sha1 (list_byte_of_string s)).

(** ** Strings of the relay *)

Definition dquote : string := String "034"%char EmptyString.

Definition CRLF : string := String "013"%char (String "010"%char EmptyString).

(** [array.join(sep)]. *)
Fixpoint join (sep : string) (l : list string) : string :=
  match l with
  | [] => ""
  | [x] => x
  | x :: rest => x +:+ sep +:+ join sep rest
  end.

(** The UTF-8 bytes of a string, as numbers. *)
Definition codes (s : string) : list N := N_of_ascii <$> list_ascii_of_string s.

Definition string_of_codes (l : list N) : string :=
  string_of_list_ascii (ascii_of_N <$> l).

(** White space and line terminators of ECMAScript, by the length of
    their UTF-8 encoding: TAB, LF, VT, FF, CR, SP; U+00A0; U+1680,
    U+2000..U+200A, U+2028, U+2029, U+202F, U+205F, U+3000, U+FEFF. *)
Definition ws1 (a : N) : bool :=
  ((9 <=? a) && (a <=? 13) || (a =? 32))%N.

Definition ws2 (a b : N) : bool := ((a =? 194) && (b =? 160))%N.

Definition ws3 (a b c : N) : bool :=
  ((a =? 225) && (b =? 154) && (c =? 128)
   || (a =? 226) && (b =? 128)
      && ((128 <=? c) && (c <=? 138) || (c =? 168) || (c =? 169) || (c =? 175))
   || (a =? 226) && (b =? 129) && (c =? 159)
   || (a =? 227) && (b =? 128) && (c =? 128)
   || (a =? 239) && (b =? 187) && (c =? 191))%N.

(** Removal of leading white space; with [rev_order] the list is read
    from the end of the string, so the bytes of a character come last
    byte first. *)
Fixpoint strip_ws (rev_order : bool) (l : list N) : list N :=
  match l with
  | [] => []
  | a :: r1 =>
      if ws1 a then strip_ws rev_order r1
      else
        match r1 with
        | [] => l
        | b :: r2 =>
            if (if rev_order then ws2 b a else ws2 a b) then strip_ws rev_order r2
            else
              match r2 with
              | [] => l
              | c :: r3 =>
                  if (if rev_order then ws3 c b a else ws3 a b c)
                  then strip_ws rev_order r3
                  else l
              end
        end
  end.

(** [s.trim()]. *)
Definition trim (s : string) : string :=
  string_of_codes (rev (strip_ws true (rev (strip_ws false (codes s))))).

(** Truthiness of a string: only the empty string is falsy. *)
Definition truthy (s : string) : bool := negb (String.eqb s "").

Definition hex_digit (n : N) : ascii :=
  nth (N.to_nat n)
    ["0"; "1"; "2"; "3"; "4"; "5"; "6"; "7"; "8"; "9"; "a"; "b"; "c"; "d"; "e"; "f"]%char
    "0"%char.

(** [JSON.stringify] on one character of a string. *)
Definition json_escape (c : ascii) : string :=
  let n := N_of_ascii c in
  if (n =? 34)%N then "\" +:+ dquote
  else if (n =? 92)%N then "\\"
  else if (n =? 8)%N then "\b"
  else if (n =? 12)%N then "\f"
  else if (n =? 10)%N then "\n"
  else if (n =? 13)%N then "\r"
  else if (n =? 9)%N then "\t"
  else if (n <? 32)%N then
    "\u00" +:+ String (hex_digit (n / 16)) (String (hex_digit (n mod 16)) EmptyString)
  else String c EmptyString.

Fixpoint json_escape_all (s : string) : string :=
  match s with
  | EmptyString => EmptyString
  | String c rest => json_escape c +:+ json_escape_all rest
  end.

(** [JSON.stringify(s)] for a string [s]. *)
Definition json_quote (s : string) : string := dquote +:+ json_escape_all s +:+ dquote.

(** [JSON.stringify(obj)] for an object literal whose values are strings,
    given by its fields in the order they are written. *)
Definition JSON_stringify (obj : list (string * string)) : string :=
  "{" +:+ join "," ((fun kv => json_quote kv.1 +:+ ":" +:+ json_quote kv.2) <$> obj) +:+ "}".

(** A parsed JSON value, as far as the relay looks at it: an object (or
    array) by its own enumerable entries, each with its value when that
    is a string, or anything else. *)
Inductive Json :=
  | JObject (entries : list (string * option string))
  | JOther.

(** ** [buffer.toString("utf8")] *)

(** [buffer.constants.MAX_STRING_LENGTH], counted in UTF-16 code units. *)
Definition MAX_STRING_LENGTH : Z := 2 ^ 29 - 24.

(** The UTF-8 bytes of U+FFFD, the replacement character. *)
Definition replacement : Buffer := [xef; xbf; xbd].

(** The state of the UTF-8 decoder between two bytes: no sequence is
    open, or the bytes [seen] of a sequence are, which needs [need] more
    bytes, the next of them between [lo] and [hi]. *)
Inductive Pending :=
  | NoPending
  | Pend (seen : Buffer) (need : nat) (lo hi : Z).

(** A byte read while no sequence is open: the characters it completes
    (each by its UTF-8 bytes) and the state after it. *)
Definition utf8_lead (x : byte) : list Buffer * Pending :=
  let v := byte_val x in
  if v <=? 127 then ([[x]], NoPending)
  else if (194 <=? v) && (v <=? 223) then ([], Pend [x] 1 128 191)
  else if (224 <=? v) && (v <=? 239) then
    ([], Pend [x] 2 (if v =? 224 then 160 else 128) (if v =? 237 then 159 else 191))
  else if (240 <=? v) && (v <=? 244) then
    ([], Pend [x] 3 (if v =? 240 then 144 else 128) (if v =? 244 then 143 else 191))
  else ([replacement], NoPending).

(** One byte of the decoder: a byte that cannot continue the open
    sequence ends it with a replacement character and is read again as
    the first byte of a sequence. *)
Definition utf8_step (st : Pending) (x : byte) : list Buffer * Pending :=
  match st with
  | NoPending => utf8_lead x
  | Pend seen need lo hi =>
      let v := byte_val x in
      if (lo <=? v) && (v <=? hi) then
        match need with
        | S (S n) => ([], Pend (seen ++ [x]) (S n) 128 191)
        | _ => ([seen ++ [x]], NoPending)
        end
      else
        let '(out, st') := utf8_lead x in
        (replacement :: out, st')
  end.

(** The characters of the decoded string, each by its UTF-8 bytes; a
    sequence that is open at the end gives a replacement character. *)
Fixpoint utf8_chars (st : Pending) (l : Buffer) : list Buffer :=
  match l with
  | [] =>
      match st with
      | NoPending => []
      | Pend _ _ _ _ => [replacement]
      end
  | x :: rest =>
      let '(out, st') := utf8_step st x in
      out ++ utf8_chars st' rest
  end.

(** The length of the decoded string in UTF-16 code units: two for a
    character of four bytes, one for any other. *)
Definition utf16_units (c : Buffer) : Z := if (length c =? 4)%nat then 2 else 1.

Definition string_units (chars : list Buffer) : Z :=
  fold_right (fun c acc => utf16_units c + acc) 0 chars.

Definition utf16_length (b : Buffer) : Z := string_units (utf8_chars NoPending b).

(** The string [buffer.toString("utf8")] makes, by its UTF-8 bytes:
    well-formed sequences as they are, every other byte sequence
    replaced. *)
Definition utf8_text (b : Buffer) : Buffer := concat (utf8_chars NoPending b).

Definition string_too_long_msg : string :=
  "Cannot create a string longer than 0x1fffffe8 characters".

(** ** Sessions, events and the monad of the handlers *)

(** [WebSocket.readyState] of the upstream connection. *)
Inductive ReadyState := CONNECTING | OPEN | CLOSING | CLOSED.

#[global] Instance ReadyState_eq_dec : EqDecision ReadyState.
Proof. solve_decision. Defined.

(** What the relay does to its two transports. *)
Inductive Event :=
  | SocketWrite (data : Buffer)
  | SocketSetNoDelay
  | SocketEnd
  | SocketDestroy
  | UpstreamNew (url : string) (headers : gmap string string)
  | UpstreamSendText (utf8 : Buffer)
  | UpstreamSendBinary (data : Buffer)
  | UpstreamClose.

(** The variables a session's handlers close over, and the state of the
    two transports.  [upstream] is [None] while the variable is
    [undefined]; [trace] lists the events so far, oldest first. *)
Record Session := {
  buf : Buffer;
  upstream : option ReadyState;
  socket_ended : bool;
  trace : list Event;
}.

Definition new_session : Session :=
  {| buf := []; upstream := None; socket_ended := false; trace := [] |}.

(** How a handler ends: it returns, an exception escapes it, or its
    decoding loop is out of fuel. *)
Inductive Result (A : Type) :=
  | Val (a : A)
  | Exn (msg : string)
  | OutOfFuel.

Arguments Val {A} a.
Arguments Exn {A} msg.
Arguments OutOfFuel {A}.

Definition M (A : Type) : Type := Session -> Result A * Session.

#[global] Instance M_ret : MRet M := fun A a s => (Val a, s).

#[global] Instance M_bind : MBind M := fun A B f m s =>
  match m s with
  | (Val a, s') => f a s'
  | (Exn msg, s') => (Exn msg, s')
  | (OutOfFuel, s') => (OutOfFuel, s')
  end.

Definition throw {A} (msg : string) : M A := fun s => (Exn msg, s).

Definition out_of_fuel {A} : M A := fun s => (OutOfFuel, s).

(** [try { m } catch (e) { handler(e.message) }]. *)
Definition try_catch {A} (m : M A) (handler : string -> M A) : M A := fun s =>
  match m s with
  | (Exn msg, s') => handler msg s'
  | other => other
  end.

Definition get_session : M Session := fun s => (Val s, s).

(** The session after one more event. *)
Definition add_event (s : Session) (ev : Event) : Session :=
  {| buf := buf s; upstream := upstream s;
     socket_ended := socket_ended s; trace := trace s ++ [ev] |}.

Definition log (ev : Event) : M unit := fun s => (Val tt, add_event s ev).

Definition set_buf (b : Buffer) : M unit := fun s =>
  (Val tt, {| buf := b; upstream := upstream s;
              socket_ended := socket_ended s; trace := trace s |}).

Definition set_upstream (u : option ReadyState) : M unit := fun s =>
  (Val tt, {| buf := buf s; upstream := u;
              socket_ended := socket_ended s; trace := trace s |}).

Definition set_socket_ended (e : bool) : M unit := fun s =>
  (Val tt, {| buf := buf s; upstream := upstream s;
              socket_ended := e; trace := trace s |}).

(** The lifecycle of the specification, read off the two transports. *)
Inductive Lifecycle := Connecting | Active | Closed.

Definition lifecycle (s : Session) : Lifecycle :=
  if socket_ended s then Closed
  else match upstream s with
       | Some CONNECTING => Connecting
       | Some OPEN => Active
       | _ => Closed
       end.

(** ** Writing to the client *)

Definition socket_write (data : Buffer) : M unit := log (SocketWrite data).

Definition sendWsFrame (payload : Payload) (opts : Opts) : M unit :=
  socket_write (frame_bytes payload opts).

Definition text_opts : Opts := {| opt_opcode := None; opt_binary := Some false |}.

Definition pong_opts : Opts := {| opt_opcode := Some 10; opt_binary := None |}.

Definition sendJson (obj : list (string * string)) : M unit :=
  try_catch (sendWsFrame (PString (JSON_stringify obj)) text_opts) (fun _ => mret tt).

(** [sendPong]; an absent payload is [Buffer.alloc(0)]. *)
Definition sendPong (payload : option Buffer) : M unit :=
  sendWsFrame (PBuffer (default (alloc 0) payload)) pong_opts.

(** [payload.toString("utf8")]: it throws when the string would be
    longer than the platform allows. *)
Definition toString (b : Buffer) : M Buffer :=
  if MAX_STRING_LENGTH <? utf16_length b then throw string_too_long_msg
  else mret (utf8_text b).

(** The error of an allocation beyond [MAX_LENGTH], named by its code. *)
Definition out_of_range_msg : string := "ERR_OUT_OF_RANGE".

(** [Buffer.concat([a, b])]: it throws when the result would be longer
    than a buffer can be. *)
Definition Buffer_concat (a b : Buffer) : M Buffer :=
  if MAX_LENGTH <? blen (a ++ b) then throw out_of_range_msg
  else mret (a ++ b).

Definition error_obj (msg : string) : list (string * string) :=
  [("type", "error"); ("error", msg)].

(** [url.pathname !== "/voice"] compares with this path. *)
Definition voice_path : string := "/voice".

Definition websocket_guid : string := "258EAFA5-E914-47DA-95CA-C5AB0DC85B11".

Definition bad_request : string := "HTTP/1.1 400 Bad Request" +:+ CRLF +:+ CRLF.

Definition switching_protocols (accept : string) : string :=
  join CRLF
    ["HTTP/1.1 101 Switching Protocols";
     "Upgrade: websocket";
     "Connection: Upgrade";
     "Sec-WebSocket-Accept: " +:+ accept;
     CRLF].

(** An upgrade request: [req.url] and [req.headers] (names in lower
    case, as Node delivers them). *)
Record Request := { req_url : option string; req_headers : gmap string string }.

Section Relay.

(** The platform the relay runs on, as far as its behaviour is not the
    repository's: the [pathname] of [new URL(input, base)] ([None] when
    the constructor throws), [JSON.parse] ([None] when it throws),
    whether [new WebSocket(url)] throws (and with which message), and
    whether [upstream.close()] and [socket.end()] throw in a given state
    of their transport. *)
Variable URL_pathname : string -> string -> option string.
Variable JSON_parse : string -> option Json.
Variable WebSocket_throws : string -> option string.
Variable close_throws : ReadyState -> bool.
Variable end_throws : bool -> bool.

(** [upstream.close()] on a defined [upstream]: a connection that is
    connecting or open starts closing, otherwise nothing changes. *)
Definition upstream_close (st : ReadyState) : M unit :=
  log UpstreamClose ;;
  if close_throws st then throw "close"
  else match st with
       | CONNECTING | OPEN => set_upstream (Some CLOSING)
       | CLOSING | CLOSED => mret tt
       end.

Definition socket_end : M unit :=
  s ← get_session;
  log SocketEnd ;;
  if end_throws (socket_ended s) then throw "end"
  else set_socket_ended true.

Definition closeBoth : M unit :=
  s ← get_session;
  try_catch
    (match upstream s with
     | Some st => upstream_close st
     | None => mret tt
     end)
    (fun _ => mret tt) ;;
  try_catch socket_end (fun _ => mret tt).

(** The [for (const frame of parsed.frames)] loop of the [data]
    handler; [continue] goes on with the rest, [return] ends it. *)
Fixpoint handle_frames (frames : list Frame) : M unit :=
  match frames with
  | [] => mret tt
  | frame :: rest =>
      s ← get_session;
      if negb (bool_decide (upstream s = Some OPEN)) then handle_frames rest
      else if opcode frame =? 8 then closeBoth
      else if opcode frame =? 9 then
        sendPong (Some (payload frame)) ;; handle_frames rest
      else if opcode frame =? 10 then handle_frames rest
      else if negb (opcode frame =? 1) && negb (opcode frame =? 2) then handle_frames rest
      else if opcode frame =? 1 then
        text ← toString (payload frame);
        log (UpstreamSendText text) ;; handle_frames rest
      else
        log (UpstreamSendBinary (payload frame)) ;; handle_frames rest
  end.

(** [socket.on("data", (chunk) => ...)]; the concatenation is outside
    the [try]. *)
Definition on_data (chunk : Buffer) : M unit :=
  s ← get_session;
  buffer ← Buffer_concat (buf s) chunk;
  set_buf buffer ;;
  match parseWsFrames buffer with
  | None => out_of_fuel
  | Some (Thrown msg) => sendJson (error_obj msg) ;; closeBoth
  | Some (Returned frames remaining) =>
      set_buf remaining ;; handle_frames frames
  end.

(** [safeJsonParse]; [null] is one of the values that are neither a
    string nor an object with entries. *)
Definition safeJsonParse (text : string) : Json :=
  match JSON_parse text with
  | Some v => v
  | None => JOther
  end.

(** [headers[k] = v] on an object literal, for a string [v]: the key
    [__proto__] is the accessor of [Object.prototype], whose setter
    ignores a string, so that no property is defined. *)
Definition set_property (headers : gmap string string) (k v : string)
  : gmap string string :=
  if String.eqb k "__proto__" then headers else <[k := v]> headers.

(** The [headers] object built from the extra headers: the entries
    whose value is a string, a later entry replacing an earlier one. *)
Definition extra_headers (parsed : Json) : gmap string string :=
  match parsed with
  | JObject entries =>
      fold_left
        (fun headers kv =>
           match kv.2 with
           | Some v => set_property headers kv.1 v
           | None => headers
           end)
        entries ∅
  | _ => ∅
  end.

(** The second half of the [upgrade] handler, from the reading of the
    configuration on: the session is refused, or the upstream
    connection is made and the handlers are installed. *)
Definition open_session (env : gmap string string) : M unit :=
  let xaiKey := default "" (env !! "XAI_API_KEY") in
  let upstreamUrl := default "" (env !! "XAI_REALTIME_WS_URL") in
  let extraHeadersRaw := default "" (env !! "XAI_REALTIME_HEADERS_JSON") in
  let extraHeadersParsed :=
    if truthy extraHeadersRaw then safeJsonParse extraHeadersRaw else JOther in
  if negb (truthy (trim xaiKey)) || negb (truthy (trim upstreamUrl)) then
    sendJson
      (error_obj
         (if negb (truthy (trim xaiKey))
          then "Missing XAI_API_KEY in pat/.env.local"
          else "Missing XAI_REALTIME_WS_URL in pat/.env.local")) ;;
    sendWsFrame (PBuffer (alloc 0)) text_opts ;;
    socket_end
  else
    let headers := extra_headers extraHeadersParsed in
    match WebSocket_throws upstreamUrl with
    | Some message =>
        sendJson (error_obj ("Failed to connect upstream: " +:+ message)) ;;
        socket_end
    | None =>
        log (UpstreamNew upstreamUrl
               (headers ∪ {[ "authorization" := "Bearer " +:+ xaiKey ]})) ;;
        set_upstream (Some CONNECTING) ;;
        set_buf (alloc 0)
    end.

(** [server.on("upgrade", (req, socket) => ...)], run on a fresh
    session: the opening handshake, then [open_session]. *)
Definition on_upgrade (env : gmap string string) (req : Request) : M unit :=
  match URL_pathname (default "/" (req_url req))
          ("http://" +:+ default "localhost" (req_headers req !! "host")) with
  | None => throw "Invalid URL"
  | Some pathname =>
      if negb (String.eqb pathname voice_path) then log SocketDestroy
      else
        match req_headers req !! "sec-websocket-key" with
        | Some key =>
            if negb (bool_decide (req_headers req !! "sec-websocket-version" = Some "13"))
            then socket_write (list_byte_of_string bad_request) ;; log SocketDestroy
            else
              let accept := sha1_base64 (key +:+ websocket_guid) in
              socket_write (list_byte_of_string (switching_protocols accept)) ;;
              log SocketSetNoDelay ;;
              open_session env
        | None => socket_write (list_byte_of_string bad_request) ;; log SocketDestroy
        end
  end.

End Relay.

(** ** Notions used to state the properties *)

(** The message of the only exception [parseWsFrames] throws. *)
Definition fragmented_msg : string := "Fragmented frames not supported.".

(** [frame_at b off f e]: a complete frame starts at [off] in [b], ends
    before [e] and decodes to [f].  This is the [Push] case of the loop
    body with the arithmetic written exactly. *)
Definition frame_at (b : Buffer) (off : Z) (f : Frame) (e : Z) : Prop :=
  exists len hl : Z,
    Z.land (rd b off) 128 <> 0 /\
    read_length b off (Z.land (rd b (off + 1)) 127) = Some (len, hl) /\
    let masked := negb (Z.land (rd b (off + 1)) 128 =? 0) in
    let fs := off + hl + (if masked then 4 else 0) in
    e = fs + len /\ e <= blen b /\
    f = {| opcode := Z.land (rd b off) 15;
           payload :=
             if masked
             then unmask (subarray b (off + hl) (off + hl + 4)) (subarray b fs e)
             else subarray b fs e |}.

(** The runs of the [while] loop, as a relation: [Parses b off fr r] when
    the loop entered at [offset = off] with [frames = fr] ends in [r]. *)
Inductive Parses (b : Buffer) : Z -> list Frame -> Parsed -> Prop :=
  | Parses_end off fr :
      blen b < off + 2 ->
      Parses b off fr (Returned fr (subarray_from b off))
  | Parses_break off fr :
      off + 2 <= blen b -> loop_body b off = Break ->
      Parses b off fr (Returned fr (subarray_from b off))
  | Parses_throw off fr msg :
      off + 2 <= blen b -> loop_body b off = Throw msg ->
      Parses b off fr (Thrown msg)
  | Parses_push off fr f e r :
      off + 2 <= blen b -> loop_body b off = Push f e ->
      Parses b e (fr ++ [f]) r ->
      Parses b off fr r.

(** A frame end seen from a view that starts [k] bytes later. *)
Definition shift_step (k : Z) (s : Step) : Step :=
  match s with
  | Push f e => Push f (e - k)
  | other => other
  end.

(** What has been decoded of a stream that arrived as two chunks: the
    frames of the calls that returned, with the remainder that is kept
    or the message of the call that threw. *)
Inductive Delivered :=
  | Kept (frames : list Frame) (remaining : Buffer)
  | Failed (frames : list Frame) (msg : string).

(** Decoding a stream that arrives as two chunks, the way the [data]
    handler does it: the remainder of the first call is put in front of
    the second chunk.  The frames a call returns are handed over before
    the next call, so they stay when the next call throws. *)
Definition decode_chunks (chunk1 chunk2 : Buffer) : option Delivered :=
  match parseWsFrames chunk1 with
  | Some (Returned frames1 remaining1) =>
      match parseWsFrames (remaining1 ++ chunk2) with
      | Some (Returned frames2 remaining2) => Some (Kept (frames1 ++ frames2) remaining2)
      | Some (Thrown msg) => Some (Failed frames1 msg)
      | None => None
      end
  | Some (Thrown msg) => Some (Failed [] msg)
  | None => None
  end.

(** The masking rule of the protocol: byte [i] is XOR-ed with
    [key[i mod 4]]. *)
Definition byte_xor (a b : byte) : byte := to_byte (Z.lxor (byte_val a) (byte_val b)).

#[global] Instance byte_inhabited : Inhabited byte := populate x00.

Definition xor_mask (key payload : Buffer) : Buffer :=
  imap (fun i x => byte_xor x (key !!! (i mod 4)%nat)) payload.

(** [frames0] put in front of the frames of a result. *)
Definition prepend_frames (frames0 : list Frame) (r : Parsed) : Parsed :=
  match r with
  | Returned frames remaining => Returned (frames0 ++ frames) remaining
  | Thrown msg => Thrown msg
  end.

(** *** The frame format, in the words of the specification *)

(** Big-endian value of a field. *)
Definition be_field (l : Buffer) : Z := fold_left (fun acc x => acc * 256 + byte_val x) l 0.

(** The bytes of the extended length that a base length announces: two
    for 126, eight for 127, none otherwise. *)
Definition ext_len (base : Z) : nat :=
  if base =? 126 then 2%nat else if base =? 127 then 8%nat else 0%nat.

(** The payload length the length fields declare: the base length (the
    low seven bits of the second byte), or the extended length. *)
Definition declared_length (b1 : byte) (ext : Buffer) : Z :=
  let base := byte_val b1 mod 128 in
  if (base =? 126) || (base =? 127) then be_field ext else base.

(** What the buffered bytes begin with: a complete frame, followed by
    the bytes [rest]; a base header whose FIN is false; or bytes that are
    insufficient for the base header, the declared header, the mask key
    or the full payload. *)
Inductive Found :=
  | Complete (f : Frame) (rest : Buffer)
  | Fragment
  | Insufficient.

Definition spec_next (b : Buffer) : Found :=
  match b with
  | b0 :: b1 :: r =>
      if negb (Z.testbit (byte_val b0) 7) then Fragment
      else
        let masked := Z.testbit (byte_val b1) 7 in
        let en := ext_len (byte_val b1 mod 128) in
        if (length r <? en)%nat then Insufficient
        else
          let len := declared_length b1 (take en r) in
          let kn := if masked then 4%nat else 0%nat in
          let r1 := drop en r in
          if Z.of_nat (length r1) <? Z.of_nat kn + len then Insufficient
          else
            let key := take kn r1 in
            let data := take (Z.to_nat len) (drop kn r1) in
            Complete {| opcode := byte_val b0 mod 16;
                        payload := if masked then xor_mask key data else data |}
                     (drop (Z.to_nat len) (drop kn r1))
  | _ => Insufficient
  end.

(** Decoding as the specification words it: complete frames are
    consumed one after the other; insufficient bytes stop the decoding
    and are all retained; a header whose FIN is false makes it fail. *)
Inductive Decodes : Buffer -> Parsed -> Prop :=
  | Decodes_retain b :
      spec_next b = Insufficient -> Decodes b (Returned [] b)
  | Decodes_fail b :
      spec_next b = Fragment -> Decodes b (Thrown fragmented_msg)
  | Decodes_frame b f rest r :
      spec_next b = Complete f rest -> Decodes rest r ->
      Decodes b (prepend_frames [f] r).

(** [Frames b frames]: the bytes [b] are exactly the complete frames
    [frames], one after the other. *)
Inductive Frames : Buffer -> list Frame -> Prop :=
  | Frames_nil : Frames [] []
  | Frames_cons b f rest frames :
      spec_next b = Complete f rest -> Frames rest frames ->
      Frames b (f :: frames).

(** [Number.MAX_SAFE_INTEGER]. *)
Definition MAX_SAFE_INTEGER : Z := 2 ^ 53 - 1.

(** The upstream state after a call of [upstream.close()] that may have
    thrown, and the session after [closeBoth]. *)
Definition closing (close_throws : ReadyState -> bool) (st : ReadyState) : ReadyState :=
  if close_throws st then st
  else match st with
       | CONNECTING | OPEN => CLOSING
       | other => other
       end.

Definition after_closeBoth (close_throws : ReadyState -> bool) (end_throws : bool -> bool)
    (s : Session) : Session :=
  {| buf := buf s;
     upstream := closing close_throws <$> upstream s;
     socket_ended := if end_throws (socket_ended s) then socket_ended s else true;
     trace := trace s
              ++ match upstream s with Some _ => [UpstreamClose] | None => [] end
              ++ [SocketEnd] |}.

(** The frame [sendJson] writes for an error message. *)
Definition error_frame (msg : string) : Buffer :=
  frame_bytes (PString (JSON_stringify (error_obj msg))) text_opts.

(** The text that opens every structured error message. *)
Definition error_prefix : string :=
  "{" +:+ dquote +:+ "type" +:+ dquote +:+ ":" +:+ dquote +:+ "error" +:+ dquote +:+ ",".

(** A text frame that carries a structured error message. *)
Definition frame_is_error (f : Frame) : bool :=
  (opcode f =? 1) && String.prefix error_prefix (string_of_list_byte (payload f)).

(** A write to the client that is one such frame. *)
Definition is_error_message (ev : Event) : bool :=
  match ev with
  | SocketWrite data =>
      match parseWsFrames data with
      | Some (Returned [f] []) => frame_is_error f
      | _ => false
      end
  | _ => false
  end.

(** The text of an error message, written out. *)
Definition error_json (msg : string) : string :=
  error_prefix +:+ dquote +:+ "error" +:+ dquote +:+ ":" +:+ dquote +:+ msg +:+ dquote +:+ "}".

Definition missing_key_msg : string := "Missing XAI_API_KEY in pat/.env.local".

Definition missing_url_msg : string := "Missing XAI_REALTIME_WS_URL in pat/.env.local".

(** The request path the handler compares with the voice path. *)
Definition request_pathname (URL_pathname : string -> string -> option string)
    (req : Request) : option string :=
  URL_pathname (default "/" (req_url req))
    ("http://" +:+ default "localhost" (req_headers req !! "host")).

(** The session after [socket.end()], which may have thrown. *)
Definition after_socket_end (end_throws : bool -> bool) (s : Session) : Session :=
  {| buf := buf s; upstream := upstream s;
     socket_ended := if end_throws (socket_ended s) then socket_ended s else true;
     trace := trace s ++ [SocketEnd] |}.

Definition is_upstream_event (ev : Event) : bool :=
  match ev with
  | UpstreamNew _ _ | UpstreamSendText _ | UpstreamSendBinary _ | UpstreamClose => true
  | _ => false
  end.


(** The bytes written to the client, in order. *)
Definition written (tr : list Event) : list Buffer :=
  omap (fun ev => match ev with SocketWrite d => Some d | _ => None end) tr.

(** ** Concrete platforms, sessions and requests *)

Definition never_throws_close : ReadyState -> bool := fun _ => false.

Definition never_throws_end : bool -> bool := fun _ => false.

(** A stand-in for the URL parser that is right on the inputs used
    below: a path without query is its own pathname. *)
Definition plain_pathname : string -> string -> option string := fun input _ => Some input.


Definition no_json : string -> option Json := fun _ => None.

Definition connects : string -> option string := fun _ => None.

Definition active_session : Session :=
  {| buf := []; upstream := Some OPEN; socket_ended := false; trace := [] |}.

Definition connecting_session : Session :=
  {| buf := []; upstream := Some CONNECTING; socket_ended := false; trace := [] |}.

(** The opening request of RFC 6455, section 1.3, on the voice path. *)
Definition sample_request : Request :=
  {| req_url := Some "/voice";
     req_headers :=
       {[ "host" := "127.0.0.1:8787";
          "sec-websocket-key" := "dGhlIHNhbXBsZSBub25jZQ==";
          "sec-websocket-version" := "13" ]} |}.


(** A ping with payload "A", and the base header of a fragment. *)
Definition ping_A : Buffer := [x89; x01; x41].

Definition fragment_header : Buffer := [x01; x00].

Definition env_without_key : gmap string string :=
  {[ "XAI_API_KEY" := "  "; "XAI_REALTIME_WS_URL" := "wss://api.x.ai/v1/realtime" ]}.

(** A masked ping from the client with payload "hi" and key 01 02 03 04. *)
Definition masked_ping : Buffer :=
  [x89; x82; x01; x02; x03; x04] ++ xor_mask [x01; x02; x03; x04] (list_byte_of_string "hi").

(** A masked close frame without payload. *)
Definition masked_close : Buffer := [x88; x80; x01; x02; x03; x04].


(** ** Loading [.env.local] *)

Definition LF : ascii := "010"%char.

Definition CR : ascii := "013"%char.

(** [raw.split(/\r?\n/)] on the characters of [raw]: the pieces between
    line feeds, a carriage return just before a line feed being part of
    the separator.  [cur] holds the current piece, last character first. *)
Fixpoint split_lines_from (cur : list ascii) (l : list ascii) : list string :=
  match l with
  | [] => [string_of_list_ascii (rev cur)]
  | c :: rest =>
      if Ascii.eqb c LF then
        string_of_list_ascii
          (rev (match cur with
                | r :: cur' => if Ascii.eqb r CR then cur' else cur
                | [] => cur
                end))
        :: split_lines_from [] rest
      else split_lines_from (c :: cur) rest
  end.

Definition split_lines (raw : string) : list string :=
  split_lines_from [] (list_ascii_of_string raw).

(** [s.startsWith(c)] and [s.endsWith(c)] for a one-character [c]. *)
Definition starts_with (c : ascii) (s : string) : bool :=
  match s with
  | String a _ => Ascii.eqb a c
  | EmptyString => false
  end.

Fixpoint ends_with (c : ascii) (s : string) : bool :=
  match s with
  | EmptyString => false
  | String a EmptyString => Ascii.eqb a c
  | String _ rest => ends_with c rest
  end.

(** [s.slice(start)]. *)
Definition slice_from (start : nat) (s : string) : string :=
  String.substring start (String.length s - start) s.

(** [value.slice(1, -1)]. *)
Definition strip_ends (value : string) : string :=
  String.substring 1 (String.length value - 2) value.

(** The body of the loop of [loadDotEnvLocal] up to the assignment: the
    key and value a line defines, [None] where the loop says [continue]. *)
Definition parse_env_line (line : string) : option (string * string) :=
  let trimmed := trim line in
  if negb (truthy trimmed) || starts_with "#" trimmed then None
  else
    match String.index 0 "=" trimmed with
    | None => None
    | Some eq =>
        let key := trim (String.substring 0 eq trimmed) in
        let value := trim (slice_from (eq + 1) trimmed) in
        if negb (truthy key) then None
        else
          let value :=
            if starts_with "034" value && ends_with "034" value
               || starts_with "'" value && ends_with "'" value
            then strip_ends value
            else value in
          Some (key, value)
    end.

Section Env.

(** The names that [key in process.env] finds on the prototype chain of
    [process.env], whatever the variables that are set (variable names
    being case-sensitive, as on POSIX systems). *)
Variable inherited : string -> bool.

(** [key in process.env]. *)
Definition env_has (env : gmap string string) (key : string) : bool :=
  bool_decide (is_Some (env !! key)) || inherited key.

(** One pass of the loop over the lines. *)
Definition load_line (env : gmap string string) (line : string) : gmap string string :=
  match parse_env_line line with
  | Some (key, value) => if env_has env key then env else <[key := value]> env
  | None => env
  end.

(** [loadDotEnvLocal], on the content of [.env.local] ([None] when the
    file does not exist) and [process.env]. *)
Definition loadDotEnvLocal (file : option string) (env : gmap string string)
    : gmap string string :=
  match file with
  | None => env
  | Some raw => fold_left load_line (split_lines raw) env
  end.

End Env.

(** ** The handlers of the upstream connection and of the socket *)

(** What [event.data] of an upstream message is: a string, an
    [ArrayBuffer], an object with an [arrayBuffer] method (a Blob) whose
    promise is fulfilled with the bytes [ab] ([Some ab]) or rejected
    ([None]), or anything else. *)
Inductive MessageData :=
  | DString (s : string)
  | DArrayBuffer (ab : Buffer)
  | DBlob (settles : option Buffer)
  | DOther.

Definition binary_opts : Opts := {| opt_opcode := None; opt_binary := Some true |}.

(** What the relay has left with a promise: the reactions
    [.then((ab) => sendWsFrame(...)).catch(() => {})] of a Blob. *)
Inductive Job := BlobJob (settles : option Buffer).

(** The reactions of a job, run when its promise is settled. *)
Definition run_job (j : Job) : M unit :=
  match j with
  | BlobJob (Some ab) =>
      try_catch (sendWsFrame (PBuffer ab) binary_opts) (fun _ => mret tt)
  | BlobJob None => mret tt
  end.

(** [upstream.onmessage]: what it does before it returns, and the jobs
    it leaves for later. *)
Definition on_upstream_message (data : MessageData) : M (list Job) :=
  match data with
  | DString s => sendWsFrame (PString s) text_opts ;; mret []
  | DArrayBuffer ab => sendWsFrame (PBuffer ab) binary_opts ;; mret []
  | DBlob settles => mret [BlobJob settles]
  | DOther => mret []
  end.

(** What happens on the upstream side of a session: a message arrives,
    or the promise of the [n]-th job that is still pending settles. *)
Inductive Happening :=
  | Arrives (data : MessageData)
  | Settles (n : nat).

(** The relay over a sequence of happenings, with the pending jobs. *)
Fixpoint relay_run (l : list Happening) (pending : list Job) : M (list Job) :=
  match l with
  | [] => mret pending
  | Arrives data :: rest =>
      jobs ← on_upstream_message data;
      relay_run rest (pending ++ jobs)
  | Settles n :: rest =>
      match pending !! n with
      | Some j => run_job j ;; relay_run rest (delete n pending)
      | None => relay_run rest pending
      end
  end.

(** [upstream.onopen]; the connection is open when the event fires. *)
Definition on_upstream_open : M unit :=
  set_upstream (Some OPEN) ;; sendJson [("type", "proxy.ready")].

Section Teardown.

Variable close_throws : ReadyState -> bool.
Variable end_throws : bool -> bool.

(** [upstream.onerror]. *)
Definition on_upstream_error : M unit :=
  sendJson (error_obj "Upstream websocket error.") ;; closeBoth close_throws end_throws.

(** [upstream.onclose]; the connection is closed when the event fires. *)
Definition on_upstream_close : M unit :=
  set_upstream (Some CLOSED) ;; closeBoth close_throws end_throws.

(** [socket.on("close", closeBoth)] and [socket.on("error", closeBoth)]. *)
Definition on_socket_close : M unit := closeBoth close_throws end_throws.

End Teardown.

(** ** Notions used to state further properties *)

(** The frame [sendWsFrame] encodes for a payload and options. *)
Definition frame_of (po : Payload * Opts) : Frame :=
  {| opcode := opts_opcode po.2; payload := payload_data po.1 |}.

(** The bytes of a sequence of [sendWsFrame] calls on one socket. *)
Definition encode_all (l : list (Payload * Opts)) : Buffer :=
  concat ((fun po => frame_bytes po.1 po.2) <$> l).

(** Header length [sendWsFrame] chooses for a payload of [n] bytes. *)
Definition encoded_header_len (n : Z) : Z :=
  if n <? 126 then 2 else if n <? 65536 then 4 else 10.

(** What the [data] handler does with one frame that is not a close
    frame, while the upstream connection is open. *)
Definition frame_events (f : Frame) : list Event :=
  if opcode f =? 9 then [SocketWrite (frame_bytes (PBuffer (payload f)) pong_opts)]
  else if opcode f =? 1 then [UpstreamSendText (utf8_text (payload f))]
  else if opcode f =? 2 then [UpstreamSendBinary (payload f)]
  else [].

(** The session after more events. *)
Definition add_events (s : Session) (evs : list Event) : Session :=
  {| buf := buf s; upstream := upstream s;
     socket_ended := socket_ended s; trace := trace s ++ evs |}.

(** Bytes a frame takes on the wire at least: its base header and its
    payload. *)
Definition frames_weight (frames : list Frame) : Z :=
  fold_right (fun f acc => 2 + blen (payload f) + acc) 0 frames.

(** A text frame whose string the platform can make. *)
Definition sendable (f : Frame) : Prop :=
  opcode f = 1 -> utf16_length (payload f) <= MAX_STRING_LENGTH.

(** The frame written for an upstream message when it arrives. *)
Definition relayed (data : MessageData) : list (Payload * Opts) :=
  match data with
  | DString s => [(PString s, text_opts)]
  | DArrayBuffer ab => [(PBuffer ab, binary_opts)]
  | DBlob _ => []
  | DOther => []
  end.

(** The job an upstream message leaves. *)
Definition deferred (data : MessageData) : list Job :=
  match data with
  | DBlob settles => [BlobJob settles]
  | _ => []
  end.

(** The frame written when a job runs. *)
Definition job_frames (j : Job) : list (Payload * Opts) :=
  match j with
  | BlobJob (Some ab) => [(PBuffer ab, binary_opts)]
  | BlobJob None => []
  end.

(** The frames written over a sequence of happenings, in the order
    written, and the jobs that are pending after it. *)
Fixpoint relay_frames (l : list Happening) (pending : list Job) : list (Payload * Opts) :=
  match l with
  | [] => []
  | Arrives data :: rest => relayed data ++ relay_frames rest (pending ++ deferred data)
  | Settles n :: rest =>
      match pending !! n with
      | Some j => job_frames j ++ relay_frames rest (delete n pending)
      | None => relay_frames rest pending
      end
  end.

Fixpoint relay_pending (l : list Happening) (pending : list Job) : list Job :=
  match l with
  | [] => pending
  | Arrives data :: rest => relay_pending rest (pending ++ deferred data)
  | Settles n :: rest =>
      match pending !! n with
      | Some j => relay_pending rest (delete n pending)
      | None => relay_pending rest pending
      end
  end.

(** The bytes a masked client frame is made of: the two base bytes, the
    extended length, the mask key and the masked payload. *)
Definition masked_frame (b0 b1 : byte) (ext key data : Buffer) : Buffer :=
  b0 :: b1 :: ext ++ key ++ data.

(** A printable ASCII character other than the space. *)
Definition plain (c : ascii) : bool :=
  ((33 <=? N_of_ascii c) && (N_of_ascii c <=? 126))%N.

(** A name or value that a line [KEY=VALUE] carries verbatim: plain
    characters, none of them [=], a quote or an apostrophe. *)
Definition verbatim (s : string) : bool :=
  forallb
    (fun c => plain c && negb (Ascii.eqb c "=") && negb (Ascii.eqb c "034")
              && negb (Ascii.eqb c "'"))
    (list_ascii_of_string s).

(** A masked text frame from the client with payload "hi". *)
Definition masked_text : Buffer :=
  [x81; x82; x01; x02; x03; x04] ++ xor_mask [x01; x02; x03; x04] (list_byte_of_string "hi").

(** The extra headers the relay reads from the configuration. *)
Definition configured_headers (JSON_parse : string -> option Json)
    (env : gmap string string) : gmap string string :=
  let raw := default "" (env !! "XAI_REALTIME_HEADERS_JSON") in
  extra_headers (if truthy raw then safeJsonParse JSON_parse raw else JOther).

(** A configuration with the credential and the endpoint. *)
Definition env_with_config : gmap string string :=
  {[ "XAI_API_KEY" := "xai-123"; "XAI_REALTIME_WS_URL" := "wss://api.x.ai/v1/realtime" ]}.

(** A WebSocket constructor that rejects every URL. *)
Definition refuses : string -> option string := fun _ => Some "Invalid URL".

(** A batch of client frames: a text frame whose payload ends in a
    byte that is not UTF-8, a ping, a pong. *)
Definition sample_batch : list Frame :=
  [{| opcode := 1; payload := [x68; x69; xff] |};
   {| opcode := 9; payload := [x01] |};
   {| opcode := 10; payload := [] |}].

(** The code of a byte that is neither white space nor a control
    character nor part of a multi-byte sequence. *)
Definition plain_code (a : N) : Prop := (33 <= a <= 126)%N.

(** The upstream connections the relay constructed: the URL and the
    headers of each [new WebSocket] call, in order. *)
Definition upstream_constructions (tr : list Event) : list (string * gmap string string) :=
  omap (fun ev => match ev with UpstreamNew url headers => Some (url, headers) | _ => None end) tr.

(** The text of the message that tells the client the upstream
    connection is open. *)
Definition ready_json : string :=
  "{" +:+ dquote +:+ "type" +:+ dquote +:+ ":" +:+ dquote +:+ "proxy.ready" +:+ dquote +:+ "}".

Definition ready_frame : Buffer := frame_bytes (PString ready_json) text_opts.
(** * Properties *)

(** ** Bytes, reads and views *)

Lemma byte_val_range (b : byte) : 0 <= byte_val b < 256.
Proof.
  unfold byte_val. pose proof (Byte.to_N_bounded b). lia.
Qed.

Lemma byte_val_to_byte (z : Z) : byte_val (to_byte z) = z mod 256.
Proof.
  unfold to_byte, byte_val.
  assert (Hr : 0 <= z mod 256 < 256) by (apply Z.mod_pos_bound; lia).
  destruct (Byte.of_N (Z.to_N (z mod 256))) as [b|] eqn:E.
  - apply Byte.to_of_N in E. rewrite E. lia.
  - apply Byte.of_N_None_iff in E. lia.
Qed.

Lemma byte_val_to_byte_small (z : Z) : 0 <= z < 256 -> byte_val (to_byte z) = z.
Proof.
  intros H. rewrite byte_val_to_byte. apply Z.mod_small; lia.
Qed.

Lemma to_byte_val (b : byte) : to_byte (byte_val b) = b.
Proof.
  unfold to_byte. pose proof (byte_val_range b) as Hr.
  rewrite Z.mod_small by lia. unfold byte_val. rewrite N2Z.id.
  now rewrite Byte.of_to_N.
Qed.

Lemma byte_val_inj (a b : byte) : byte_val a = byte_val b -> a = b.
Proof.
  intros H. rewrite <- (to_byte_val a), <- (to_byte_val b). now rewrite H.
Qed.

Lemma blen_nonneg (b : Buffer) : 0 <= blen b.
Proof. unfold blen. lia. Qed.

Lemma blen_app (a b : Buffer) : blen (a ++ b) = blen a + blen b.
Proof. unfold blen. rewrite length_app. lia. Qed.

Lemma blen_cons (x : byte) (b : Buffer) : blen (x :: b) = 1 + blen b.
Proof. unfold blen. simpl length. lia. Qed.

Lemma Buffer_ok_app_l (a b : Buffer) : Buffer_ok (a ++ b) -> Buffer_ok a.
Proof.
  unfold Buffer_ok. rewrite blen_app. pose proof (blen_nonneg b). lia.
Qed.

Lemma Buffer_ok_app_r (a b : Buffer) : Buffer_ok (a ++ b) -> Buffer_ok b.
Proof.
  unfold Buffer_ok. rewrite blen_app. pose proof (blen_nonneg a). lia.
Qed.

Lemma rd_range (b : Buffer) (i : Z) : 0 <= rd b i < 256.
Proof.
  unfold rd. destruct (i <? 0); [lia|].
  destruct (b !! Z.to_nat i) as [x|]; [apply byte_val_range | lia].
Qed.

Lemma rd_app_l (a b : Buffer) (i : Z) : i < blen a -> rd (a ++ b) i = rd a i.
Proof.
  intros H. unfold rd. destruct (i <? 0) eqn:E; [reflexivity|].
  apply Z.ltb_ge in E. rewrite lookup_app_l; [reflexivity|].
  unfold blen in H. lia.
Qed.

Lemma rd_app_r (a b : Buffer) (i : Z) : 0 <= i -> rd (a ++ b) (blen a + i) = rd b i.
Proof.
  intros H. unfold rd, blen.
  assert (E1 : (Z.of_nat (length a) + i <? 0) = false) by (apply Z.ltb_ge; lia).
  assert (E2 : (i <? 0) = false) by (apply Z.ltb_ge; lia).
  rewrite E1, E2. rewrite lookup_app_r by lia.
  replace (Z.to_nat (Z.of_nat (length a) + i) - length a)%nat with (Z.to_nat i) by lia.
  reflexivity.
Qed.

Lemma rd_subarray_from (b : Buffer) (k i : Z) :
  0 <= k -> 0 <= i -> rd (subarray_from b k) i = rd b (k + i).
Proof.
  intros Hk Hi. unfold rd, subarray_from.
  assert (E1 : (k + i <? 0) = false) by (apply Z.ltb_ge; lia).
  assert (E2 : (i <? 0) = false) by (apply Z.ltb_ge; lia).
  rewrite E1, E2, lookup_drop.
  replace (Z.to_nat k + Z.to_nat i)%nat with (Z.to_nat (k + i)) by lia.
  reflexivity.
Qed.

Lemma rd_take (b : Buffer) (n i : Z) : i < n -> rd (take (Z.to_nat n) b) i = rd b i.
Proof.
  intros H. unfold rd. destruct (i <? 0) eqn:E; [reflexivity|].
  apply Z.ltb_ge in E. rewrite lookup_take_lt by lia. reflexivity.
Qed.

Lemma rd_agree (b b' : Buffer) (n i : Z) :
  take (Z.to_nat n) b = take (Z.to_nat n) b' -> i < n -> rd b i = rd b' i.
Proof.
  intros H Hi. rewrite <- (rd_take b n i), <- (rd_take b' n i) by assumption.
  now rewrite H.
Qed.

Lemma blen_subarray_from (b : Buffer) (k : Z) :
  0 <= k <= blen b -> blen (subarray_from b k) = blen b - k.
Proof.
  intros H. unfold blen, subarray_from in *. rewrite length_drop. lia.
Qed.

Lemma blen_subarray (b : Buffer) (s e : Z) :
  0 <= s <= e -> e <= blen b -> blen (subarray b s e) = e - s.
Proof.
  intros H1 H2. unfold blen, subarray in *.
  rewrite length_take, length_drop. lia.
Qed.

Lemma subarray_subarray_from (b : Buffer) (k s e : Z) :
  0 <= k -> 0 <= s -> subarray (subarray_from b k) s e = subarray b (k + s) (k + e).
Proof.
  intros Hk Hs. unfold subarray, subarray_from. rewrite drop_drop.
  replace (Z.to_nat k + Z.to_nat s)%nat with (Z.to_nat (k + s)) by lia.
  replace (k + e - (k + s)) with (e - s) by lia. reflexivity.
Qed.

Lemma subarray_from_subarray_from (b : Buffer) (k s : Z) :
  0 <= k -> 0 <= s ->
  subarray_from (subarray_from b k) s = subarray_from b (k + s).
Proof.
  intros Hk Hs. unfold subarray_from. rewrite drop_drop.
  f_equal. lia.
Qed.

Lemma subarray_agree (b b' : Buffer) (n s e : Z) :
  take (Z.to_nat n) b = take (Z.to_nat n) b' -> 0 <= s -> e <= n ->
  subarray b s e = subarray b' s e.
Proof.
  intros H Hs He. unfold subarray.
  destruct (Z.le_gt_cases e s) as [Hle|Hlt].
  { replace (Z.to_nat (e - s)) with 0%nat by lia. reflexivity. }
  assert (G : forall c : Buffer,
    take (Z.to_nat (e - s)) (drop (Z.to_nat s) c)
    = take (Z.to_nat (e - s)) (drop (Z.to_nat s) (take (Z.to_nat n) c))).
  { intros c. rewrite !take_drop_commute, take_take.
    do 2 f_equal. lia. }
  rewrite (G b), (G b'), H. reflexivity.
Qed.

Lemma subarray_app_exact (a b c : Buffer) :
  subarray (a ++ b ++ c) (blen a) (blen a + blen b) = b.
Proof.
  unfold subarray, blen. rewrite Nat2Z.id.
  rewrite drop_app_length.
  replace (Z.to_nat (Z.of_nat (length a) + Z.of_nat (length b) - Z.of_nat (length a)))
    with (length b) by lia.
  apply take_app_length.
Qed.

(** ** Rounding to a double *)

Lemma to_double_exact (x : Z) : x <= 2 ^ 53 -> to_double x = x.
Proof.
  intros H. unfold to_double.
  destruct (x <=? 2 ^ 53) eqn:E; [reflexivity|].
  apply Z.leb_gt in E. lia.
Qed.

Lemma to_double_large (x : Z) : 2 ^ 53 <= x -> 2 ^ 53 <= to_double x.
Proof.
  intros H. unfold to_double.
  destruct (x <=? 2 ^ 53) eqn:E; [assumption|].
  apply Z.leb_gt in E.
  assert (Hlog : 53 <= Z.log2 x) by (apply Z.log2_le_pow2; lia).
  set (e := Z.log2 x - 52).
  assert (He : 1 <= e) by (unfold e; lia).
  assert (Hq : 2 ^ 52 <= Z.shiftr x e).
  { rewrite Z.shiftr_div_pow2 by lia.
    apply Z.div_le_lower_bound; [apply Z.pow_pos_nonneg; lia|].
    rewrite <- Z.pow_add_r by lia.
    replace (e + 52) with (Z.log2 x) by (unfold e; lia).
    apply Z.log2_spec. lia. }
  assert (Hsh : forall q, 2 ^ 52 <= q -> 2 ^ 53 <= Z.shiftl q e).
  { intros q Hq'. rewrite Z.shiftl_mul_pow2 by lia.
    replace (2 ^ 53) with (2 ^ 52 * 2 ^ 1) by reflexivity.
    apply Z.mul_le_mono_nonneg; try lia.
    apply Z.pow_le_mono_r; lia. }
  destruct (_ <? _); [apply Hsh; lia|].
  destruct (_ <? _); [apply Hsh; lia|].
  destruct (Z.even _); apply Hsh; lia.
Qed.

Lemma to_double_nonneg (x : Z) : 0 <= x -> 0 <= to_double x.
Proof.
  intros H. destruct (Z.le_gt_cases x (2 ^ 53)) as [Hs|Hl].
  - rewrite to_double_exact; assumption.
  - pose proof (to_double_large x). lia.
Qed.

(** Against a bound that a buffer length can take, the rounded sum
    compares as the exact one, and is exact when it is within the bound. *)
Lemma js_add_gtb (a l n : Z) :
  n <= MAX_LENGTH -> (js_add a l >? n) = (a + l >? n).
Proof.
  intros Hn. unfold js_add, MAX_LENGTH in *.
  destruct (Z.le_gt_cases (a + l) (2 ^ 53)) as [Hs|Hl].
  - rewrite to_double_exact; [reflexivity | assumption].
  - pose proof (to_double_large (a + l)).
    transitivity true; [|symmetry]; apply Z.gtb_gt; lia.
Qed.

Lemma js_add_exact (a l n : Z) :
  n <= MAX_LENGTH -> a + l <= n -> js_add a l = a + l.
Proof.
  intros Hn H. unfold js_add, MAX_LENGTH in *.
  apply to_double_exact. lia.
Qed.

Lemma readUInt16BE_range (b : Buffer) (off : Z) : 0 <= readUInt16BE b off < 65536.
Proof.
  unfold readUInt16BE.
  pose proof (rd_range b off). pose proof (rd_range b (off + 1)). lia.
Qed.

Lemma readBigUInt64BE_range (b : Buffer) (off : Z) : 0 <= readBigUInt64BE b off < 2 ^ 64.
Proof.
  unfold readBigUInt64BE. cbn [seq fold_left].
  pose proof (rd_range b (off + Z.of_nat 0)).
  pose proof (rd_range b (off + Z.of_nat 1)).
  pose proof (rd_range b (off + Z.of_nat 2)).
  pose proof (rd_range b (off + Z.of_nat 3)).
  pose proof (rd_range b (off + Z.of_nat 4)).
  pose proof (rd_range b (off + Z.of_nat 5)).
  pose proof (rd_range b (off + Z.of_nat 6)).
  pose proof (rd_range b (off + Z.of_nat 7)).
  change (2 ^ 64) with 18446744073709551616. lia.
Qed.

(** ** One pass of the decoding loop *)

Lemma read_length_inv (b : Buffer) (off l len hl : Z) :
  read_length b off l = Some (len, hl) ->
  0 <= l < 128 ->
  0 <= len /\ (hl = 2 \/ hl = 4 \/ hl = 10) /\
  (hl = 2 \/ off + hl <= blen b).
Proof.
  unfold read_length. intros H Hl.
  destruct (l =? 126) eqn:E1.
  - destruct (off + 4 >? blen b) eqn:E2; [discriminate|].
    injection H as <- <-. pose proof (readUInt16BE_range b (off + 2)).
    assert (~ off + 4 > blen b) by (intros G; apply Z.gtb_gt in G; congruence).
    lia.
  - destruct (l =? 127) eqn:E3.
    + destruct (off + 10 >? blen b) eqn:E2; [discriminate|].
      injection H as <- <-. pose proof (readBigUInt64BE_range b (off + 2)).
      assert (~ off + 10 > blen b) by (intros G; apply Z.gtb_gt in G; congruence).
      unfold Number. pose proof (to_double_nonneg (readBigUInt64BE b (off + 2))).
      lia.
    + injection H as <- <-. lia.
Qed.

Lemma land_127_range (x : Z) : 0 <= x -> 0 <= Z.land x 127 < 128.
Proof.
  intros H. change 127 with (Z.ones 7).
  rewrite Z.land_ones by lia. apply Z.mod_pos_bound. lia.
Qed.

Lemma readUInt16BE_agree (b b' : Buffer) (n off : Z) :
  take (Z.to_nat n) b = take (Z.to_nat n) b' -> off + 2 <= n ->
  readUInt16BE b off = readUInt16BE b' off.
Proof.
  intros H Hn. unfold readUInt16BE.
  rewrite (rd_agree b b' n off), (rd_agree b b' n (off + 1)) by (assumption || lia).
  reflexivity.
Qed.

Lemma readBigUInt64BE_agree (b b' : Buffer) (n off : Z) :
  take (Z.to_nat n) b = take (Z.to_nat n) b' -> off + 8 <= n ->
  readBigUInt64BE b off = readBigUInt64BE b' off.
Proof.
  intros H Hn. unfold readBigUInt64BE. cbn [seq fold_left].
  rewrite !(rd_agree b b' n) by (assumption || lia).
  reflexivity.
Qed.

Lemma read_length_agree (b b' : Buffer) (n off l len hl : Z) :
  read_length b off l = Some (len, hl) ->
  take (Z.to_nat n) b = take (Z.to_nat n) b' ->
  off + hl <= n -> n <= blen b' ->
  read_length b' off l = Some (len, hl).
Proof.
  unfold read_length. intros H Ht Hn Hb'.
  destruct (l =? 126).
  - destruct (off + 4 >? blen b); [discriminate|].
    injection H as <- <-.
    assert (E : (off + 4 >? blen b') = false).
    { destruct (off + 4 >? blen b') eqn:E; [apply Z.gtb_gt in E; lia | reflexivity]. }
    rewrite E. rewrite (readUInt16BE_agree b b' n) by (assumption || lia).
    reflexivity.
  - destruct (l =? 127); [|assumption].
    destruct (off + 10 >? blen b); [discriminate|].
    injection H as <- <-.
    assert (E : (off + 10 >? blen b') = false).
    { destruct (off + 10 >? blen b') eqn:E; [apply Z.gtb_gt in E; lia | reflexivity]. }
    rewrite E. rewrite (readBigUInt64BE_agree b b' n) by (assumption || lia).
    reflexivity.
Qed.

Lemma loop_body_Throw (b : Buffer) (off : Z) (msg : string) :
  loop_body b off = Throw msg <->
  Z.land (rd b off) 128 = 0 /\ msg = fragmented_msg.
Proof.
  unfold loop_body, fragmented_msg.
  destruct (Z.land (rd b off) 128 =? 0) eqn:E; cbn [negb].
  - apply Z.eqb_eq in E. split.
    + intros [= <-]. auto.
    + intros [_ ->]. reflexivity.
  - apply Z.eqb_neq in E. split.
    + intros H. destruct (read_length _ _ _) as [[len hl]|]; [|discriminate].
      destruct (_ >? _); discriminate.
    + intros [H _]. contradiction.
Qed.

Lemma loop_body_Push (b : Buffer) (off : Z) (f : Frame) (e : Z) :
  Buffer_ok b ->
  loop_body b off = Push f e <-> frame_at b off f e.
Proof.
  intros Hok. unfold loop_body, frame_at.
  destruct (Z.land (rd b off) 128 =? 0) eqn:E; cbn [negb].
  { apply Z.eqb_eq in E. split; [discriminate|].
    intros (len & hl & H & _). contradiction. }
  apply Z.eqb_neq in E.
  destruct (read_length b off (Z.land (rd b (off + 1)) 127)) as [[len hl]|].
  2:{ split; [discriminate|]. intros (len & hl & _ & H & _). discriminate. }
  set (masked := negb (Z.land (rd b (off + 1)) 128 =? 0)).
  set (fs := off + hl + (if masked then 4 else 0)).
  rewrite (js_add_gtb fs len (blen b) Hok).
  destruct (fs + len >? blen b) eqn:G.
  { apply Z.gtb_gt in G. split; [discriminate|].
    intros (len' & hl' & _ & [= <- <-] & H). cbv zeta in H. fold masked fs in H. lia. }
  assert (G' : fs + len <= blen b).
  { destruct (Z.le_gt_cases (fs + len) (blen b)) as [?|G']; [assumption|].
    apply Z.lt_gt, Z.gtb_gt in G'. congruence. }
  rewrite (js_add_exact fs len (blen b) Hok G').
  split.
  - intros [= <- <-]. exists len, hl. cbv zeta. fold masked fs. auto.
  - intros (len' & hl' & _ & [= <- <-] & H). cbv zeta in H. fold masked fs in H.
    destruct H as (-> & _ & ->). reflexivity.
Qed.

(** A complete frame is read the same in every buffer that has the same
    bytes up to the end of the frame. *)
Lemma frame_at_agree (b b' : Buffer) (off : Z) (f : Frame) (e : Z) :
  0 <= off -> off + 2 <= blen b ->
  frame_at b off f e ->
  take (Z.to_nat e) b = take (Z.to_nat e) b' -> e <= blen b' ->
  frame_at b' off f e.
Proof.
  intros Hoff Hb (len & hl & Hfin & Hrl & H) Ht He. cbv zeta in H.
  destruct H as (Hfe & Hle & Hf).
  pose proof (rd_range b (off + 1)) as Hr1.
  destruct (read_length_inv _ _ _ _ _ Hrl (land_127_range _ (proj1 Hr1)))
    as (Hlen & Hhl & Hhb).
  assert (Hse : off + hl <= e).
  { destruct (negb _); lia. }
  assert (R0 : rd b off = rd b' off) by (apply (rd_agree b b' e); [assumption|lia]).
  assert (R1 : rd b (off + 1) = rd b' (off + 1)) by (apply (rd_agree b b' e); [assumption|lia]).
  exists len, hl. rewrite <- R0, <- R1. split; [assumption|]. split.
  { apply (read_length_agree b b' e); (assumption || lia). }
  cbv zeta. split; [assumption|]. split; [assumption|].
  rewrite Hf. f_equal.
  destruct (negb _) eqn:M.
  - rewrite (subarray_agree b b' e (off + hl) (off + hl + 4)) by (assumption || lia).
    rewrite (subarray_agree b b' e _ e) by (assumption || lia).
    reflexivity.
  - apply (subarray_agree b b' e); (assumption || lia).
Qed.

Lemma frame_at_bounds (b : Buffer) (off : Z) (f : Frame) (e : Z) :
  frame_at b off f e -> off + 2 <= e <= blen b.
Proof.
  intros (len & hl & Hfin & Hrl & H). cbv zeta in H.
  destruct H as (Hfe & Hle & Hf).
  pose proof (rd_range b (off + 1)) as Hr1.
  destruct (read_length_inv _ _ _ _ _ Hrl (land_127_range _ (proj1 Hr1)))
    as (Hlen & Hhl & Hhb).
  destruct (negb _); lia.
Qed.

(** ** The view that starts [k] bytes later *)

Lemma gtb_shift (a n k : Z) : (a >? n - k) = (k + a >? n).
Proof.
  rewrite !Z.gtb_ltb.
  destruct (Z.ltb_spec (n - k) a), (Z.ltb_spec n (k + a)); (reflexivity || lia).
Qed.

Lemma read_length_shift (b : Buffer) (k off l : Z) :
  0 <= k <= blen b -> 0 <= off ->
  read_length (subarray_from b k) off l = read_length b (k + off) l.
Proof.
  intros Hk Hoff. unfold read_length.
  rewrite blen_subarray_from by assumption.
  rewrite !(gtb_shift _ (blen b) k).
  unfold readUInt16BE, readBigUInt64BE. cbn [seq fold_left].
  rewrite !rd_subarray_from by lia.
  rewrite !Z.add_assoc. reflexivity.
Qed.

Lemma frame_at_shift (b : Buffer) (k off : Z) (f : Frame) (e : Z) :
  0 <= k <= blen b -> 0 <= off ->
  frame_at (subarray_from b k) off f e <-> frame_at b (k + off) f (k + e).
Proof.
  intros Hk Hoff. unfold frame_at.
  rewrite blen_subarray_from by assumption.
  rewrite !rd_subarray_from by lia.
  rewrite read_length_shift by assumption.
  rewrite !Z.add_assoc.
  split; intros (len & hl & Hfin & Hrl & H); exists len, hl;
    (split; [assumption|]); (split; [assumption|]);
    cbv zeta in *; destruct H as (He & Hle & Hf).
  - pose proof (rd_range b (k + off + 1)) as Hr1.
    destruct (read_length_inv _ _ _ _ _ Hrl (land_127_range _ (proj1 Hr1)))
      as (Hlen & Hhl & _).
    split; [lia|]. split; [lia|]. rewrite Hf. f_equal.
    rewrite !subarray_subarray_from by (destruct (negb _); lia).
    rewrite !Z.add_assoc. reflexivity.
  - pose proof (rd_range b (k + off + 1)) as Hr1.
    destruct (read_length_inv _ _ _ _ _ Hrl (land_127_range _ (proj1 Hr1)))
      as (Hlen & Hhl & _).
    split; [lia|]. split; [lia|]. rewrite Hf. f_equal.
    rewrite !subarray_subarray_from by (destruct (negb _); lia).
    rewrite !Z.add_assoc. reflexivity.
Qed.

Lemma Buffer_ok_subarray_from (b : Buffer) (k : Z) :
  Buffer_ok b -> Buffer_ok (subarray_from b k).
Proof.
  unfold Buffer_ok, blen, subarray_from. rewrite length_drop. lia.
Qed.

Lemma Buffer_ok_take (b : Buffer) (n : nat) : Buffer_ok b -> Buffer_ok (take n b).
Proof.
  unfold Buffer_ok, blen. rewrite length_take. lia.
Qed.

Lemma loop_body_shift (b : Buffer) (k off : Z) :
  Buffer_ok b -> 0 <= k <= blen b -> 0 <= off ->
  loop_body (subarray_from b k) off = shift_step k (loop_body b (k + off)).
Proof.
  intros Hok Hk Hoff.
  pose proof (Buffer_ok_subarray_from b k Hok) as Hok'.
  destruct (loop_body b (k + off)) as [|msg|f e] eqn:E; cbn [shift_step].
  - destruct (loop_body (subarray_from b k) off) as [|msg|f e] eqn:E'; [reflexivity| |].
    + apply loop_body_Throw in E'. rewrite rd_subarray_from in E' by lia.
      apply loop_body_Throw in E'. congruence.
    + apply (loop_body_Push _ _ _ _ Hok') in E'.
      apply frame_at_shift in E'; [|assumption|assumption].
      apply (loop_body_Push _ _ _ _ Hok) in E'. congruence.
  - apply loop_body_Throw. rewrite rd_subarray_from by lia.
    apply loop_body_Throw. assumption.
  - apply (loop_body_Push _ _ _ _ Hok'). apply frame_at_shift; [assumption|assumption|].
    replace (k + (e - k)) with e by lia.
    apply (loop_body_Push _ _ _ _ Hok). assumption.
Qed.

(** ** The loop as a relation *)

Lemma Parses_det (b : Buffer) (off : Z) (fr : list Frame) (r r' : Parsed) :
  Parses b off fr r -> Parses b off fr r' -> r = r'.
Proof.
  intros H. revert r'.
  induction H as [off fr Hl|off fr Hl Hb|off fr msg Hl Hb|off fr f e r Hl Hb H IH];
    intros r' H'; inversion H'; subst; try reflexivity; try lia; try congruence.
  apply IH. congruence.
Qed.

Lemma parse_loop_Parses (fuel : nat) (b : Buffer) (off : Z) (fr : list Frame) (r : Parsed) :
  parse_loop fuel b off fr = Some r -> Parses b off fr r.
Proof.
  revert off fr. induction fuel as [|fuel IH]; intros off fr; cbn [parse_loop].
  - destruct (off + 2 <=? blen b) eqn:E; [discriminate|].
    intros [= <-]. apply Parses_end. apply Z.leb_gt in E. lia.
  - destruct (off + 2 <=? blen b) eqn:E.
    + apply Z.leb_le in E.
      destruct (loop_body b off) as [|msg|f e] eqn:Hb.
      * intros [= <-]. now apply Parses_break.
      * intros [= <-]. now apply Parses_throw.
      * intros H. apply (Parses_push b off fr f e r E Hb). now apply IH.
    + intros [= <-]. apply Parses_end. apply Z.leb_gt in E. lia.
Qed.

(** The loop ends within [length buffer] passes: every frame takes at
    least the two bytes of its base header. *)
Lemma parse_loop_total (fuel : nat) (b : Buffer) (off : Z) (fr : list Frame) :
  Buffer_ok b -> 0 <= off -> blen b - off <= Z.of_nat fuel ->
  exists r, parse_loop fuel b off fr = Some r.
Proof.
  intros Hok. revert off fr.
  induction fuel as [|fuel IH]; intros off fr Hoff Hf; cbn [parse_loop].
  - destruct (off + 2 <=? blen b) eqn:E; [|eauto].
    apply Z.leb_le in E. lia.
  - destruct (off + 2 <=? blen b) eqn:E; [|eauto].
    destruct (loop_body b off) as [|msg|f e] eqn:Hb; [eauto|eauto|].
    apply (loop_body_Push _ _ _ _ Hok) in Hb. apply frame_at_bounds in Hb.
    apply IH; lia.
Qed.

Lemma parseWsFrames_total (b : Buffer) :
  Buffer_ok b -> exists r, parseWsFrames b = Some r.
Proof.
  intros Hok. apply parse_loop_total; [assumption|lia|unfold blen; lia].
Qed.

Lemma parseWsFrames_Parses (b : Buffer) (r : Parsed) :
  Buffer_ok b -> parseWsFrames b = Some r <-> Parses b 0 [] r.
Proof.
  intros Hok. split.
  - apply parse_loop_Parses.
  - intros H. destruct (parseWsFrames_total b Hok) as [r' Hr'].
    rewrite Hr'. f_equal.
    apply (Parses_det b 0 [] r' r); [|assumption].
    now apply (parse_loop_Parses (length b)).
Qed.

Lemma Parses_shift (b : Buffer) (k off : Z) (fr : list Frame) (r : Parsed) :
  Buffer_ok b -> 0 <= k <= blen b -> 0 <= off ->
  Parses (subarray_from b k) off fr r -> Parses b (k + off) fr r.
Proof.
  intros Hok Hk Hoff H. revert Hoff.
  induction H as [off fr Hl|off fr Hl Hb|off fr msg Hl Hb|off fr f e r Hl Hb H IH];
    intros Hoff; rewrite ?blen_subarray_from in Hl by assumption.
  - rewrite subarray_from_subarray_from by lia. apply Parses_end. lia.
  - rewrite subarray_from_subarray_from by lia.
    rewrite loop_body_shift in Hb by assumption.
    apply Parses_break; [lia|].
    destruct (loop_body b (k + off)); (reflexivity || discriminate).
  - rewrite loop_body_shift in Hb by assumption.
    apply Parses_throw; [lia|].
    destruct (loop_body b (k + off)); (assumption || discriminate).
  - rewrite loop_body_shift in Hb by assumption.
    destruct (loop_body b (k + off)) as [|msg|f' e'] eqn:Hb'; try discriminate.
    cbn [shift_step] in Hb. injection Hb as <- <-.
    apply (Parses_push b (k + off) fr f' e' r); [lia|assumption|].
    replace e' with (k + (e' - k)) by lia. apply IH.
    apply (loop_body_Push _ _ _ _ Hok), frame_at_bounds in Hb'. lia.
Qed.

Lemma Parses_acc (b : Buffer) (off : Z) (fr fr0 : list Frame) (r : Parsed) :
  Parses b off fr r -> Parses b off (fr0 ++ fr) (prepend_frames fr0 r).
Proof.
  induction 1 as [off fr Hl|off fr Hl Hb|off fr msg Hl Hb|off fr f e r Hl Hb H IH];
    cbn [prepend_frames].
  - now apply Parses_end.
  - now apply Parses_break.
  - now apply Parses_throw.
  - apply (Parses_push b off (fr0 ++ fr) f e); [assumption|assumption|].
    rewrite <- app_assoc. exact IH.
Qed.

(** ** Decoding across reads *)

Lemma subarray_from_app (c1 c2 : Buffer) (off : Z) :
  0 <= off <= blen c1 ->
  subarray_from c1 off ++ c2 = subarray_from (c1 ++ c2) off.
Proof.
  intros H. unfold subarray_from, blen in *.
  rewrite drop_app_le by lia. reflexivity.
Qed.

Lemma frame_at_app (c1 c2 : Buffer) (off : Z) (f : Frame) (e : Z) :
  0 <= off -> off + 2 <= blen c1 ->
  frame_at c1 off f e -> frame_at (c1 ++ c2) off f e.
Proof.
  intros Hoff Hl H. pose proof (frame_at_bounds _ _ _ _ H) as Hb.
  apply (frame_at_agree c1); try assumption.
  - unfold blen in Hb. rewrite take_app_le by lia. reflexivity.
  - rewrite blen_app. pose proof (blen_nonneg c2). lia.
Qed.

(** A run over the first chunk, continued on its remainder followed by
    the second chunk, is a run over the whole stream. *)
Lemma Parses_app (c1 c2 : Buffer) (off : Z) (fr : list Frame) (r0 : Parsed) :
  Buffer_ok (c1 ++ c2) ->
  Parses c1 off fr r0 -> 0 <= off <= blen c1 ->
  match r0 with
  | Thrown msg => Parses (c1 ++ c2) off fr (Thrown msg)
  | Returned frames1 remaining1 =>
      forall r, Parses (remaining1 ++ c2) 0 frames1 r -> Parses (c1 ++ c2) off fr r
  end.
Proof.
  intros Hok H.
  pose proof (Buffer_ok_app_l _ _ Hok) as Hok1.
  pose proof (blen_nonneg c2) as Hc2.
  induction H as [off fr Hl|off fr Hl Hb|off fr msg Hl Hb|off fr f e r0 Hl Hb H IH];
    intros Hoff.
  - intros r Hr. rewrite subarray_from_app in Hr by assumption.
    replace off with (off + 0) by lia.
    apply Parses_shift; [assumption|rewrite blen_app; lia|lia|assumption].
  - intros r Hr. rewrite subarray_from_app in Hr by assumption.
    replace off with (off + 0) by lia.
    apply Parses_shift; [assumption|rewrite blen_app; lia|lia|assumption].
  - apply Parses_throw; [rewrite blen_app; lia|].
    apply loop_body_Throw. apply loop_body_Throw in Hb.
    rewrite rd_app_l by lia. assumption.
  - apply (loop_body_Push _ _ _ _ Hok1) in Hb.
    pose proof (frame_at_bounds _ _ _ _ Hb) as Hbd.
    assert (Hpush : loop_body (c1 ++ c2) off = Push f e).
    { apply (loop_body_Push _ _ _ _ Hok). apply frame_at_app; (assumption || lia). }
    assert (He : 0 <= e <= blen c1) by lia.
    specialize (IH He). destruct r0 as [frames1 remaining1|msg].
    + intros r Hr. apply (Parses_push _ off fr f e r); [rewrite blen_app; lia|assumption|].
      now apply IH.
    + apply (Parses_push _ off fr f e); [rewrite blen_app; lia|assumption|assumption].
Qed.

Lemma Parses_remaining_len (b : Buffer) (off : Z) (fr : list Frame) (r : Parsed) :
  Parses b off fr r ->
  match r with
  | Returned _ remaining => blen remaining <= blen b
  | Thrown _ => True
  end.
Proof.
  induction 1; try exact I; try assumption;
    unfold subarray_from, blen; rewrite length_drop; lia.
Qed.

(** A stream in two parts: when decoding the first part throws, so
    does decoding the stream; when it returns, decoding the stream is
    decoding the remainder followed by the second part, after the frames
    of the first. *)
Lemma parse_app_thrown (c1 c2 : Buffer) (msg : string) :
  Buffer_ok (c1 ++ c2) ->
  parseWsFrames c1 = Some (Thrown msg) ->
  parseWsFrames (c1 ++ c2) = Some (Thrown msg).
Proof.
  intros Hok Hr0. pose proof (Buffer_ok_app_l _ _ Hok) as Hok1.
  apply (parseWsFrames_Parses _ _ Hok1) in Hr0.
  pose proof (blen_nonneg c1) as Hc1.
  apply (parseWsFrames_Parses _ _ Hok).
  exact (Parses_app c1 c2 0 [] _ Hok Hr0 ltac:(lia)).
Qed.

Lemma parse_app_returned (c1 c2 : Buffer) (frames1 : list Frame) (remaining1 : Buffer) :
  Buffer_ok (c1 ++ c2) ->
  parseWsFrames c1 = Some (Returned frames1 remaining1) ->
  Buffer_ok (remaining1 ++ c2) /\
  parseWsFrames (c1 ++ c2) = prepend_frames frames1 <$> parseWsFrames (remaining1 ++ c2).
Proof.
  intros Hok Hr0. pose proof (Buffer_ok_app_l _ _ Hok) as Hok1.
  apply (parseWsFrames_Parses _ _ Hok1) in Hr0.
  pose proof (Parses_app c1 c2 0 [] _ Hok Hr0) as Happ.
  pose proof (blen_nonneg c1) as Hc1.
  specialize (Happ ltac:(lia)). cbn beta iota in Happ.
  assert (Hok2 : Buffer_ok (remaining1 ++ c2)).
  { pose proof (Parses_remaining_len _ _ _ _ Hr0) as Hlen. cbn in Hlen.
    unfold Buffer_ok in *. rewrite blen_app in *. lia. }
  split; [assumption|].
  destruct (parseWsFrames_total _ Hok2) as [r2 Hr2]. rewrite Hr2.
  apply (parseWsFrames_Parses _ _ Hok2) in Hr2.
  apply (Parses_acc _ _ _ frames1) in Hr2. rewrite app_nil_r in Hr2.
  apply Happ in Hr2. apply (parseWsFrames_Parses _ _ Hok) in Hr2.
  exact Hr2.
Qed.

(** Two calls on a stream that arrives as two chunks, against one call
    on the stream. *)
Lemma decode_chunks_whole (chunk1 chunk2 : Buffer) :
  Buffer_ok (chunk1 ++ chunk2) ->
  match parseWsFrames (chunk1 ++ chunk2) with
  | Some (Returned frames remaining) =>
      decode_chunks chunk1 chunk2 = Some (Kept frames remaining)
  | Some (Thrown msg) =>
      exists frames1,
        decode_chunks chunk1 chunk2 = Some (Failed frames1 msg) /\
        (parseWsFrames chunk1 = Some (Thrown msg) /\ frames1 = [] \/
         exists remaining1, parseWsFrames chunk1 = Some (Returned frames1 remaining1))
  | None => False
  end.
Proof.
  intros Hok. pose proof (Buffer_ok_app_l _ _ Hok) as Hok1.
  unfold decode_chunks.
  destruct (parseWsFrames_total chunk1 Hok1) as [[frames1 remaining1|msg] Hr0]; rewrite Hr0.
  - destruct (parse_app_returned _ _ _ _ Hok Hr0) as [Hok2 ->].
    destruct (parseWsFrames_total _ Hok2) as [[frames2 remaining2|msg] ->];
      cbn [fmap option_fmap option_map prepend_frames]; [reflexivity|].
    exists frames1. split; [reflexivity|]. right. now exists remaining1.
  - rewrite (parse_app_thrown _ _ _ Hok Hr0).
    exists []. split; [reflexivity|]. left. now split.
Qed.

(** ** Encoding, then decoding *)

Lemma first_byte (op : Z) :
  0 <= op < 16 ->
  byte_val (to_byte (Z.lor 128 op)) = 128 + op /\
  Z.land (128 + op) 128 <> 0 /\ Z.land (128 + op) 15 = op.
Proof.
  intros H.
  assert (E : op = 0 \/ op = 1 \/ op = 2 \/ op = 3 \/ op = 4 \/ op = 5 \/ op = 6 \/
              op = 7 \/ op = 8 \/ op = 9 \/ op = 10 \/ op = 11 \/ op = 12 \/
              op = 13 \/ op = 14 \/ op = 15) by lia.
  repeat (destruct E as [->|E]; [vm_compute; repeat split; discriminate|]).
  subst op. vm_compute. repeat split; discriminate.
Qed.

Lemma land_128_small (x : Z) : 0 <= x < 128 -> Z.land x 128 = 0.
Proof.
  intros H.
  assert (E : x = Z.land x 127).
  { change 127 with (Z.ones 7). rewrite Z.land_ones by lia.
    symmetry. apply Z.mod_small. lia. }
  rewrite E, <- Z.land_assoc. change (Z.land 127 128) with 0.
  apply Z.land_0_r.
Qed.

Lemma land_127_small (x : Z) : 0 <= x < 128 -> Z.land x 127 = x.
Proof.
  intros H. change 127 with (Z.ones 7). rewrite Z.land_ones by lia.
  apply Z.mod_small. lia.
Qed.

Lemma header_2 (a b : Z) : wr (wr (alloc 2) 0 a) 1 b = [to_byte a; to_byte b].
Proof. reflexivity. Qed.

Lemma header_4 (a b v : Z) :
  writeUInt16BE (wr (wr (alloc 4) 0 a) 1 b) v 2
  = [to_byte a; to_byte b; to_byte (Z.shiftr v 8); to_byte v].
Proof. reflexivity. Qed.

Lemma header_10 (a b v : Z) :
  writeBigUInt64BE (wr (wr (alloc 10) 0 a) 1 b) v 2
  = [to_byte a; to_byte b;
     to_byte (Z.shiftr v 56); to_byte (Z.shiftr v 48); to_byte (Z.shiftr v 40);
     to_byte (Z.shiftr v 32); to_byte (Z.shiftr v 24); to_byte (Z.shiftr v 16);
     to_byte (Z.shiftr v 8); to_byte (Z.shiftr v 0)].
Proof. reflexivity. Qed.

Lemma uint16_bytes (v : Z) :
  0 <= v < 65536 ->
  byte_val (to_byte (Z.shiftr v 8)) * 256 + byte_val (to_byte v) = v.
Proof.
  intros H. rewrite !byte_val_to_byte, Z.shiftr_div_pow2 by lia.
  change (2 ^ 8) with 256. Z.div_mod_to_equations. lia.
Qed.

Lemma uint64_bytes (v : Z) :
  0 <= v < 2 ^ 64 ->
  (((((((0 * 256 + byte_val (to_byte (Z.shiftr v 56))) * 256
    + byte_val (to_byte (Z.shiftr v 48))) * 256
    + byte_val (to_byte (Z.shiftr v 40))) * 256
    + byte_val (to_byte (Z.shiftr v 32))) * 256
    + byte_val (to_byte (Z.shiftr v 24))) * 256
    + byte_val (to_byte (Z.shiftr v 16))) * 256
    + byte_val (to_byte (Z.shiftr v 8))) * 256
    + byte_val (to_byte (Z.shiftr v 0)) = v.
Proof.
  intros H. rewrite !byte_val_to_byte, !Z.shiftr_div_pow2 by lia.
  change (2 ^ 64) with 18446744073709551616 in H.
  change (2 ^ 56) with 72057594037927936. change (2 ^ 48) with 281474976710656.
  change (2 ^ 40) with 1099511627776. change (2 ^ 32) with 4294967296.
  change (2 ^ 24) with 16777216. change (2 ^ 16) with 65536.
  change (2 ^ 8) with 256. change (2 ^ 0) with 1.
  Z.div_mod_to_equations. lia.
Qed.

Lemma subarray_header (h data : Buffer) :
  subarray (h ++ data) (blen h) (blen h + blen data) = data.
Proof.
  rewrite <- (app_nil_r data) at 1. apply subarray_app_exact.
Qed.

(** The bytes [sendWsFrame] writes are one complete unmasked frame. *)
Lemma frame_bytes_frame_at (p : Payload) (opts : Opts) :
  0 <= opts_opcode opts < 16 ->
  Buffer_ok (frame_bytes p opts) ->
  frame_at (frame_bytes p opts) 0
    {| opcode := opts_opcode opts; payload := payload_data p |}
    (blen (frame_bytes p opts)).
Proof.
  intros Hop Hok. unfold frame_bytes in *.
  destruct (first_byte _ Hop) as (B0 & Hfin & Hopc).
  set (op := opts_opcode opts) in *. set (data := payload_data p) in *.
  pose proof (blen_nonneg data) as Hd.
  unfold frame_at.
  destruct (blen data <? 126) eqn:E1; [|destruct (blen data <? 65536) eqn:E2].
  - apply Z.ltb_lt in E1. rewrite header_2 in *.
    set (h := [to_byte (Z.lor 128 op); to_byte (blen data)]).
    assert (R0 : rd (h ++ data) 0 = 128 + op) by (rewrite <- B0; reflexivity).
    assert (R1 : rd (h ++ data) (0 + 1) = blen data).
    { transitivity (byte_val (to_byte (blen data))); [reflexivity|].
      apply byte_val_to_byte_small. lia. }
    rewrite R0, R1.
    rewrite (land_128_small (blen data)), (land_127_small (blen data)) by lia.
    exists (blen data), 2. split; [assumption|]. split.
    { unfold read_length.
      destruct (blen data =? 126) eqn:G1; [apply Z.eqb_eq in G1; lia|].
      destruct (blen data =? 127) eqn:G2; [apply Z.eqb_eq in G2; lia|].
      reflexivity. }
    cbn [negb Z.eqb]. rewrite blen_app. change (blen h) with 2.
    split; [lia|]. split; [lia|]. rewrite Hopc. f_equal.
    symmetry. apply (subarray_header h data).
  - apply Z.ltb_ge in E1. apply Z.ltb_lt in E2. rewrite header_4 in *.
    set (h := [to_byte (Z.lor 128 op); to_byte 126;
               to_byte (Z.shiftr (blen data) 8); to_byte (blen data)]).
    assert (R0 : rd (h ++ data) 0 = 128 + op) by (rewrite <- B0; reflexivity).
    assert (R1 : rd (h ++ data) (0 + 1) = 126) by reflexivity.
    rewrite R0, R1.
    exists (blen data), 4. split; [assumption|]. split.
    { unfold read_length. change (Z.land 126 127 =? 126) with true. cbv iota.
      rewrite blen_app. change (blen h) with 4.
      destruct (0 + 4 >? 4 + blen data) eqn:G; [apply Z.gtb_gt in G; lia|].
      f_equal. f_equal.
      etransitivity; [|apply (uint16_bytes (blen data)); lia]. reflexivity. }
    change (negb (Z.land 126 128 =? 0)) with false. cbv iota zeta.
    rewrite blen_app. change (blen h) with 4.
    split; [lia|]. split; [lia|]. rewrite Hopc. f_equal.
    symmetry. apply (subarray_header h data).
  - apply Z.ltb_ge in E1. apply Z.ltb_ge in E2. rewrite header_10 in *.
    set (v := blen data) in *.
    set (h := [to_byte (Z.lor 128 op); to_byte 127;
               to_byte (Z.shiftr v 56); to_byte (Z.shiftr v 48);
               to_byte (Z.shiftr v 40); to_byte (Z.shiftr v 32);
               to_byte (Z.shiftr v 24); to_byte (Z.shiftr v 16);
               to_byte (Z.shiftr v 8); to_byte (Z.shiftr v 0)]) in *.
    assert (Hv : v <= 2 ^ 53).
    { unfold Buffer_ok, MAX_LENGTH in Hok. rewrite blen_app in Hok.
      change (blen h) with 10 in Hok. fold v in Hok. lia. }
    assert (R0 : rd (h ++ data) 0 = 128 + op) by (rewrite <- B0; reflexivity).
    assert (R1 : rd (h ++ data) (0 + 1) = 127) by reflexivity.
    rewrite R0, R1.
    exists v, 10. split; [assumption|]. split.
    { unfold read_length. change (Z.land 127 127 =? 126) with false.
      change (Z.land 127 127 =? 127) with true. cbv iota.
      rewrite blen_app. change (blen h) with 10. fold v.
      destruct (0 + 10 >? 10 + v) eqn:G; [apply Z.gtb_gt in G; lia|].
      cbv zeta. f_equal. f_equal.
      assert (Hbig : readBigUInt64BE (h ++ data) (0 + 2) = v).
      { etransitivity; [|apply (uint64_bytes v)]; [reflexivity|].
        change (2 ^ 53) with 9007199254740992 in Hv.
        change (2 ^ 64) with 18446744073709551616. lia. }
      rewrite Hbig. unfold Number. now apply to_double_exact. }
    change (negb (Z.land 127 128 =? 0)) with false. cbv iota zeta.
    rewrite blen_app. change (blen h) with 10. fold v.
    split; [lia|]. split; [lia|]. rewrite Hopc. f_equal.
    symmetry. apply (subarray_header h data).
Qed.

(** Decoding what [sendWsFrame] wrote gives back the frame, for every
    opcode of four bits and every payload a buffer can hold. *)
Lemma parse_frame_bytes (p : Payload) (opts : Opts) :
  0 <= opts_opcode opts < 16 ->
  Buffer_ok (frame_bytes p opts) ->
  parseWsFrames (frame_bytes p opts)
  = Some (Returned [{| opcode := opts_opcode opts; payload := payload_data p |}] []).
Proof.
  intros Hop Hok. apply (parseWsFrames_Parses _ _ Hok).
  pose proof (frame_bytes_frame_at p opts Hop Hok) as Hf.
  pose proof (frame_at_bounds _ _ _ _ Hf) as Hb.
  apply (Parses_push _ 0 [] {| opcode := opts_opcode opts; payload := payload_data p |}
           (blen (frame_bytes p opts))).
  - lia.
  - now apply loop_body_Push.
  - cbn [app].
    assert (E : subarray_from (frame_bytes p opts) (blen (frame_bytes p opts)) = [])
      by (unfold subarray_from, blen; rewrite Nat2Z.id; apply drop_all).
    rewrite <- E. apply Parses_end. lia.
Qed.

Lemma frame_bytes_len (p : Payload) (opts : Opts) :
  blen (frame_bytes p opts) <= 10 + blen (payload_data p).
Proof.
  unfold frame_bytes. rewrite blen_app.
  destruct (_ <? 126); [rewrite header_2|destruct (_ <? 65536); [rewrite header_4|rewrite header_10]];
    match goal with |- blen ?h + _ <= _ => change (blen h) with (Z.of_nat (length h)) end;
    cbn [length]; lia.
Qed.

(** C1. For every opcode among text (1), binary (2), close (8), ping (9)
    and pong (10) and every payload of 0, 125, 126, 65535 or 65536 bytes,
    decoding the bytes [sendWsFrame] writes for that frame yields exactly
    one frame, with the original opcode and payload bytes, and an empty
    remainder. *)
Theorem decode_encode_roundtrip (op : Z) (data : Buffer) :
  In op [1; 2; 8; 9; 10] ->
  In (blen data) [0; 125; 126; 65535; 65536] ->
  parseWsFrames (frame_bytes (PBuffer data) {| opt_opcode := Some op; opt_binary := None |})
  = Some (Returned [{| opcode := op; payload := data |}] []).
Proof.
  intros Hop Hlen.
  set (opts := {| opt_opcode := Some op; opt_binary := None |}).
  apply (parse_frame_bytes (PBuffer data) opts).
  - cbn [opts_opcode opts opt_opcode]. cbn [In] in Hop. lia.
  - unfold Buffer_ok, MAX_LENGTH.
    pose proof (frame_bytes_len (PBuffer data) opts) as Hl. cbn [payload_data] in Hl.
    cbn [In] in Hlen. change (2 ^ 53) with 9007199254740992. lia.
Qed.

Lemma decode_encode_roundtrip_witness :
  parseWsFrames
    (frame_bytes (PBuffer (replicate 126 x41)) {| opt_opcode := Some 9; opt_binary := None |})
  = Some (Returned [{| opcode := 9; payload := replicate 126 x41 |}] []).
Proof.
  apply (decode_encode_roundtrip 9 (replicate 126 x41)).
  - simpl. lia.
  - vm_compute. right. right. left. reflexivity.
Defined.

(** ** Unmasking *)

Lemma wr_nat (b : Buffer) (i : nat) (v : Z) : wr b (Z.of_nat i) v = <[i := to_byte v]> b.
Proof.
  unfold wr. destruct (Z.of_nat i <? 0) eqn:E; [apply Z.ltb_lt in E; lia|].
  now rewrite Nat2Z.id.
Qed.

(** A loop that stores [g i] at every index [i] below [k]. *)
Lemma fold_wr (g : nat -> Z) (k : nat) (l : Buffer) :
  (k <= length l)%nat ->
  fold_left (fun acc i => wr acc (Z.of_nat i) (g i)) (seq 0 k) l
  = ((fun i => to_byte (g i)) <$> seq 0 k) ++ drop k l.
Proof.
  induction k as [|k IH]; intros Hk.
  - reflexivity.
  - rewrite seq_S, fold_left_app, fmap_app. cbn [fold_left fmap list_fmap Nat.add].
    rewrite IH by lia. rewrite wr_nat.
    assert (Hlen : length ((fun i => to_byte (g i)) <$> seq 0 k) = k)
      by (rewrite length_fmap; apply length_seq).
    destruct (drop k l) as [|x rest] eqn:Hd.
    { apply (f_equal length) in Hd. rewrite length_drop in Hd. cbn in Hd. lia. }
    rewrite insert_app_r_alt by lia. rewrite Hlen, Nat.sub_diag. cbn [list_insert].
    rewrite <- app_assoc. cbn [app]. do 2 f_equal.
    change (S k) with (1 + k)%nat. rewrite Nat.add_comm, <- drop_drop, Hd.
    reflexivity.
Qed.

Lemma rd_lookup (b : Buffer) (i : nat) (x : byte) :
  b !! i = Some x -> rd b (Z.of_nat i) = byte_val x.
Proof.
  intros H. unfold rd.
  destruct (Z.of_nat i <? 0) eqn:E; [apply Z.ltb_lt in E; lia|].
  now rewrite Nat2Z.id, H.
Qed.

(** The loop of the source computes the masking rule of the protocol. *)
Lemma unmask_xor_mask (key p : Buffer) :
  length key = 4%nat -> unmask key p = xor_mask key p.
Proof.
  intros Hkey. unfold unmask, xor_mask, alloc, blen. rewrite Nat2Z.id.
  rewrite (fold_wr (fun i => Z.lxor (rd p (Z.of_nat i)) (rd key (Z.of_nat i mod 4))))
    by (rewrite length_replicate; lia).
  rewrite drop_ge by (rewrite length_replicate; lia). rewrite app_nil_r.
  apply list_eq. intros i.
  rewrite list_lookup_fmap, list_lookup_imap.
  destruct (p !! i) as [x|] eqn:Hp.
  - assert (Hi : (i < length p)%nat) by (apply lookup_lt_is_Some; eauto).
    rewrite lookup_seq_lt by assumption. cbn [fmap option_fmap option_map Nat.add].
    f_equal. unfold byte_xor. f_equal.
    rewrite (rd_lookup p i x Hp). f_equal.
    assert (Hm : (i mod 4 < length key)%nat).
    { rewrite Hkey. apply Nat.mod_upper_bound. lia. }
    destruct (lookup_lt_is_Some_2 key (i mod 4) Hm) as [y Hy].
    rewrite (list_lookup_total_correct key (i mod 4) y Hy).
    replace (Z.of_nat i mod 4) with (Z.of_nat (i mod 4)) by (rewrite Nat2Z.inj_mod; reflexivity).
    now apply rd_lookup.
  - assert (Hi : (length p <= i)%nat) by (apply lookup_ge_None; assumption).
    rewrite lookup_seq_ge by assumption. reflexivity.
Qed.

Lemma log2_byte (a : Z) : 0 <= a < 256 -> Z.log2 a < 8.
Proof.
  intros H. destruct (Z.eq_dec a 0) as [->|Hne]; [reflexivity|].
  apply Z.log2_lt_pow2; [lia|]. change (2 ^ 8) with 256. lia.
Qed.

Lemma lxor_byte_range (a b : Z) :
  0 <= a < 256 -> 0 <= b < 256 -> 0 <= Z.lxor a b < 256.
Proof.
  intros Ha Hb.
  assert (Hn : 0 <= Z.lxor a b) by (apply Z.lxor_nonneg; lia).
  split; [assumption|].
  destruct (Z.eq_dec (Z.lxor a b) 0) as [->|Hne]; [lia|].
  change 256 with (2 ^ 8). apply Z.log2_lt_pow2; [lia|].
  eapply Z.le_lt_trans; [apply Z.log2_lxor; lia|].
  apply Z.max_lub_lt; now apply log2_byte.
Qed.

Lemma byte_xor_involutive (x k : byte) : byte_xor (byte_xor x k) k = x.
Proof.
  unfold byte_xor. rewrite byte_val_to_byte.
  pose proof (lxor_byte_range _ _ (byte_val_range x) (byte_val_range k)) as Hr.
  rewrite Z.mod_small by assumption.
  rewrite Z.lxor_assoc, Z.lxor_nilpotent, Z.lxor_0_r. apply to_byte_val.
Qed.

(** Masking twice with the same key gives the payload back: what a client
    masks, the decoder unmasks. *)
Lemma xor_mask_involutive (key p : Buffer) : xor_mask key (xor_mask key p) = p.
Proof.
  apply list_eq. intros i. unfold xor_mask.
  rewrite !list_lookup_imap. destruct (p !! i) as [x|]; [|reflexivity].
  cbn. f_equal. apply byte_xor_involutive.
Qed.

(** *** The decoder against the frame format of the specification *)

Lemma land_128_testbit (x : byte) :
  (Z.land (byte_val x) 128 =? 0) = negb (Z.testbit (byte_val x) 7).
Proof. destruct x; reflexivity. Qed.

Lemma land_127_mod (v : Z) : Z.land v 127 = v mod 128.
Proof. change 127 with (Z.ones 7). now rewrite Z.land_ones by lia. Qed.

Lemma land_15_mod (v : Z) : Z.land v 15 = v mod 16.
Proof. change 15 with (Z.ones 4). now rewrite Z.land_ones by lia. Qed.

Lemma rd_0 (x : byte) (l : Buffer) : rd (x :: l) 0 = byte_val x.
Proof. reflexivity. Qed.

Lemma be_field_snoc (l : Buffer) (x : byte) :
  be_field (l ++ [x]) = be_field l * 256 + byte_val x.
Proof. unfold be_field. now rewrite fold_left_app. Qed.

Lemma be_field_nonneg (l : Buffer) : 0 <= be_field l.
Proof.
  induction l as [|x l IH] using rev_ind; [reflexivity|].
  rewrite be_field_snoc. pose proof (byte_val_range x). lia.
Qed.

Lemma readUInt16BE_field (pre r : Buffer) :
  (2 <= length r)%nat ->
  readUInt16BE (pre ++ r) (blen pre) = be_field (take 2 r).
Proof.
  intros H. destruct r as [|x [|y r]]; try (cbn in H; lia).
  unfold readUInt16BE.
  replace (blen pre) with (blen pre + 0) at 1 by lia.
  rewrite !rd_app_r by lia. reflexivity.
Qed.

Lemma readBigUInt64BE_field (pre r : Buffer) :
  (8 <= length r)%nat ->
  readBigUInt64BE (pre ++ r) (blen pre) = be_field (take 8 r).
Proof.
  intros H. do 8 (destruct r as [|? r]; [cbn in H; lia|]).
  unfold readBigUInt64BE. cbn [seq fold_left].
  rewrite !rd_app_r by lia. reflexivity.
Qed.

Lemma gtb_false (a b : Z) : a <= b -> (a >? b) = false.
Proof. intros H. rewrite Z.gtb_ltb. now apply Z.ltb_ge. Qed.

Lemma gtb_true (a b : Z) : b < a -> (a >? b) = true.
Proof. intros H. apply Z.gtb_gt. lia. Qed.

Lemma ext_len_cases (base : Z) :
  (base = 126 /\ ext_len base = 2%nat) \/ (base = 127 /\ ext_len base = 8%nat) \/
  (base <> 126 /\ base <> 127 /\ ext_len base = 0%nat).
Proof.
  unfold ext_len. destruct (Z.eqb_spec base 126); [auto|].
  destruct (Z.eqb_spec base 127); auto.
Qed.

(** The extended-length part of the loop body, on a buffer given by its
    two base bytes and what follows them. *)
Lemma read_length_spec (b0 b1 : byte) (r : Buffer) :
  let base := byte_val b1 mod 128 in
  let en := ext_len base in
  read_length (b0 :: b1 :: r) 0 base
  = if (length r <? en)%nat then None
    else Some (if base =? 127 then Number (declared_length b1 (take en r))
               else declared_length b1 (take en r),
               2 + Z.of_nat en).
Proof.
  cbv zeta. unfold read_length, declared_length.
  set (base := byte_val b1 mod 128).
  change (b0 :: b1 :: r) with ([b0; b1] ++ r).
  destruct (ext_len_cases base) as [[E ->]|[[E ->]|(E1 & E2 & ->)]].
  - rewrite E. cbn [Z.eqb Pos.eqb orb].
    destruct (Nat.ltb_spec (length r) 2) as [Hs|Hl].
    + rewrite gtb_true by (rewrite blen_app; unfold blen; cbn [length]; lia).
      reflexivity.
    + rewrite gtb_false by (rewrite blen_app; unfold blen; cbn [length]; lia).
      change (0 + 2) with (blen [b0; b1]). now rewrite readUInt16BE_field.
  - rewrite E. cbn [Z.eqb Pos.eqb orb].
    destruct (Nat.ltb_spec (length r) 8) as [Hs|Hl].
    + rewrite gtb_true by (rewrite blen_app; unfold blen; cbn [length]; lia).
      reflexivity.
    + rewrite gtb_false by (rewrite blen_app; unfold blen; cbn [length]; lia).
      change (0 + 2) with (blen [b0; b1]). now rewrite readBigUInt64BE_field.
  - apply Z.eqb_neq in E1, E2. rewrite E1, E2. cbn [orb Nat.ltb Nat.leb].
    reflexivity.
Qed.

Lemma declared_length_nonneg (b1 : byte) (ext : Buffer) : 0 <= declared_length b1 ext.
Proof.
  unfold declared_length. destruct (_ || _); [apply be_field_nonneg|].
  apply Z.mod_pos_bound. lia.
Qed.

(** One pass of the loop at the start of a buffer, against what the
    specification finds there. *)
Lemma loop_body_spec_next (b0 b1 : byte) (r : Buffer) :
  let b := b0 :: b1 :: r in
  Buffer_ok b ->
  match spec_next b with
  | Fragment => loop_body b 0 = Throw fragmented_msg
  | Insufficient => loop_body b 0 = Break
  | Complete f rest =>
      exists e, loop_body b 0 = Push f e /\ 2 <= e <= blen b /\ rest = subarray_from b e
  end.
Proof.
  cbv zeta. intros Hok. unfold loop_body, spec_next.
  rewrite rd_0. change (rd (b0 :: b1 :: r) (0 + 1)) with (byte_val b1).
  rewrite !land_128_testbit, !negb_involutive.
  destruct (Z.testbit (byte_val b0) 7); cbn [negb]; [|reflexivity].
  rewrite land_127_mod, read_length_spec.
  set (base := byte_val b1 mod 128). set (en := ext_len base).
  destruct (Nat.ltb_spec (length r) en) as [Hen|Hen]; [reflexivity|].
  set (masked := Z.testbit (byte_val b1) 7).
  set (len' := declared_length b1 (take en r)).
  set (len := if base =? 127 then Number len' else len').
  set (kn := if masked then 4%nat else 0%nat).
  assert (Hkn : (if masked then 4 else 0) = Z.of_nat kn) by (unfold kn; now destruct masked).
  rewrite Hkn.
  set (fs := 0 + (2 + Z.of_nat en) + Z.of_nat kn).
  assert (Hlen' : 0 <= len') by apply declared_length_nonneg.
  assert (Hb : blen (b0 :: b1 :: r) = 2 + Z.of_nat (length r))
    by (unfold blen; cbn [length]; lia).
  assert (Hcmp : (fs + len >? blen (b0 :: b1 :: r))
                 = (Z.of_nat (length (drop en r)) <? Z.of_nat kn + len')).
  { rewrite length_drop, Hb.
    assert (Hsame : len' <= 2 ^ 53 -> len = len').
    { intros Hs. unfold len. destruct (base =? 127); [|reflexivity].
      now apply to_double_exact. }
    destruct (Z.le_gt_cases len' (2 ^ 53)) as [Hs|Hl].
    - rewrite (Hsame Hs). rewrite Z.gtb_ltb.
      destruct (Z.ltb_spec (2 + Z.of_nat (length r)) (fs + len'));
        destruct (Z.ltb_spec (Z.of_nat (length r - en)) (Z.of_nat kn + len'));
        unfold fs in *; try reflexivity; lia.
    - assert (Hbig : 2 ^ 53 <= len).
      { unfold len. destruct (base =? 127); [apply to_double_large|]; lia. }
      unfold Buffer_ok, MAX_LENGTH in Hok. rewrite Hb in Hok.
      rewrite gtb_true by (unfold fs; lia).
      symmetry. apply Z.ltb_lt. lia. }
  rewrite (js_add_gtb fs len _ Hok), Hcmp.
  destruct (Z.ltb_spec (Z.of_nat (length (drop en r))) (Z.of_nat kn + len')) as [Hins|Hfull];
    [reflexivity|].
  rewrite length_drop in Hfull.
  assert (Hs : len' <= 2 ^ 53).
  { unfold Buffer_ok, MAX_LENGTH in Hok. rewrite Hb in Hok. lia. }
  assert (Hsame : len = len').
  { unfold len. destruct (base =? 127); [|reflexivity]. now apply to_double_exact. }
  rewrite Hsame.
  assert (He : fs + len' <= blen (b0 :: b1 :: r)) by (rewrite Hb; unfold fs; lia).
  rewrite (js_add_exact fs len' _ Hok He).
  assert (Hfs : Z.to_nat fs = S (S (en + kn))) by (unfold fs; lia).
  assert (Hpay : subarray (b0 :: b1 :: r) fs (fs + len')
                 = take (Z.to_nat len') (drop kn (drop en r))).
  { unfold subarray. rewrite Hfs. cbn [drop]. rewrite drop_drop.
    f_equal. lia. }
  assert (Hkey : masked = true ->
                 subarray (b0 :: b1 :: r) (0 + (2 + Z.of_nat en)) (0 + (2 + Z.of_nat en) + 4)
                 = take kn (drop en r)).
  { intros Hm. unfold subarray, kn. rewrite Hm.
    replace (Z.to_nat (0 + (2 + Z.of_nat en))) with (S (S en)) by lia.
    cbn [drop]. f_equal. lia. }
  exists (fs + len'). split; [|split].
  - f_equal. rewrite land_15_mod, Hpay. f_equal.
    destruct masked eqn:Hm; [|reflexivity].
    rewrite (Hkey eq_refl). apply unmask_xor_mask.
    rewrite length_take, length_drop.
    assert (Hk4 : kn = 4%nat) by (unfold kn; try rewrite Hm; reflexivity). lia.
  - unfold fs. lia.
  - unfold subarray_from. replace (Z.to_nat (fs + len')) with (S (S (en + kn + Z.to_nat len'))) by lia.
    cbn [drop]. rewrite !drop_drop. f_equal. lia.
Qed.

(** A complete frame is followed by fewer bytes than the buffer has. *)
Lemma spec_next_Complete_shorter (b : Buffer) (f : Frame) (rest : Buffer) :
  spec_next b = Complete f rest -> (length rest < length b)%nat.
Proof.
  destruct b as [|b0 [|b1 r]]; try discriminate. unfold spec_next.
  destruct (negb _); [discriminate|].
  destruct (_ <? _)%nat; [discriminate|].
  destruct (_ <? _); [discriminate|].
  intros [= _ <-]. rewrite !length_drop. cbn [length]. lia.
Qed.

(** The layout of a complete frame: base bytes, extended length, mask
    key, payload. *)
Lemma spec_next_layout (b0 b1 : byte) (ext key data rest : Buffer) :
  Z.testbit (byte_val b0) 7 = true ->
  length ext = ext_len (byte_val b1 mod 128) ->
  declared_length b1 ext = blen data ->
  length key = (if Z.testbit (byte_val b1) 7 then 4%nat else 0%nat) ->
  spec_next (b0 :: b1 :: ext ++ key ++ data ++ rest)
  = Complete {| opcode := byte_val b0 mod 16;
                payload := if Z.testbit (byte_val b1) 7 then xor_mask key data else data |}
             rest.
Proof.
  intros Hfin Hext Hlen Hkey. unfold spec_next. rewrite Hfin. cbn [negb].
  rewrite <- Hext, <- Hkey.
  destruct (Nat.ltb_spec (length (ext ++ key ++ data ++ rest)) (length ext)) as [H|_].
  { rewrite length_app in H. lia. }
  rewrite take_app_length, drop_app_length, Hlen.
  destruct (Z.ltb_spec (Z.of_nat (length (key ++ data ++ rest)))
              (Z.of_nat (length key) + blen data)) as [H|_].
  { rewrite !length_app in H. unfold blen in H. lia. }
  rewrite take_app_length, drop_app_length.
  unfold blen. rewrite Nat2Z.id, take_app_length, drop_app_length. reflexivity.
Qed.

Lemma spec_next_Complete_inv (b : Buffer) (f : Frame) (rest : Buffer) :
  spec_next b = Complete f rest ->
  exists b0 b1 ext key data,
    b = b0 :: b1 :: ext ++ key ++ data ++ rest /\
    Z.testbit (byte_val b0) 7 = true /\
    length ext = ext_len (byte_val b1 mod 128) /\
    declared_length b1 ext = blen data /\
    length key = (if Z.testbit (byte_val b1) 7 then 4%nat else 0%nat) /\
    f = {| opcode := byte_val b0 mod 16;
           payload := if Z.testbit (byte_val b1) 7 then xor_mask key data else data |}.
Proof.
  destruct b as [|b0 [|b1 r]]; try discriminate. unfold spec_next.
  destruct (Z.testbit (byte_val b0) 7) eqn:Hfin; cbn [negb]; [|discriminate].
  set (en := ext_len (byte_val b1 mod 128)).
  destruct (Nat.ltb_spec (length r) en) as [|Hen]; [discriminate|].
  set (len := declared_length b1 (take en r)).
  set (kn := if Z.testbit (byte_val b1) 7 then 4%nat else 0%nat).
  destruct (Z.ltb_spec (Z.of_nat (length (drop en r))) (Z.of_nat kn + len)) as [|Hfull];
    [discriminate|].
  intros [= <- <-].
  assert (Hlen : 0 <= len) by apply declared_length_nonneg.
  rewrite length_drop in Hfull.
  exists b0, b1, (take en r), (take kn (drop en r)),
    (take (Z.to_nat len) (drop kn (drop en r))).
  split; [|split; [|split; [|split; [|split]]]].
  - now rewrite !take_drop.
  - assumption.
  - rewrite length_take. lia.
  - fold len. unfold blen. rewrite length_take, !length_drop. lia.
  - rewrite length_take, length_drop. lia.
  - reflexivity.
Qed.

(** What follows a complete frame does not change what the frame is. *)
Lemma spec_next_Complete_app (b : Buffer) (f : Frame) (rest : Buffer) :
  spec_next b = Complete f rest ->
  exists wire, b = wire ++ rest /\ (2 <= length wire)%nat /\
    forall rest', spec_next (wire ++ rest') = Complete f rest'.
Proof.
  intros H.
  destruct (spec_next_Complete_inv _ _ _ H)
    as (b0 & b1 & ext & key & data & -> & Hfin & Hext & Hlen & Hkey & ->).
  exists (b0 :: b1 :: ext ++ key ++ data). split; [|split].
  - cbn [app]. now rewrite <- !app_assoc.
  - cbn [length]. lia.
  - intros rest'. cbn [app]. rewrite <- !app_assoc. now apply spec_next_layout.
Qed.

Lemma Decodes_total (b : Buffer) : exists r, Decodes b r.
Proof.
  remember (length b) as n eqn:Hn. revert b Hn.
  induction n as [n IH] using lt_wf_ind. intros b ->.
  destruct (spec_next b) as [f rest| |] eqn:E.
  - destruct (IH (length rest) (spec_next_Complete_shorter _ _ _ E) rest eq_refl) as [r Hr].
    exists (prepend_frames [f] r). now apply (Decodes_frame b f rest).
  - eexists. now apply Decodes_fail.
  - eexists. now apply Decodes_retain.
Qed.

(** A complete frame at the start of a buffer is decoded first. *)
Lemma parse_Complete (b : Buffer) (f : Frame) (rest : Buffer) :
  Buffer_ok b ->
  spec_next b = Complete f rest ->
  Buffer_ok rest /\
  parseWsFrames b = prepend_frames [f] <$> parseWsFrames rest.
Proof.
  intros Hok H.
  destruct b as [|b0 [|b1 r]]; try discriminate.
  pose proof (loop_body_spec_next b0 b1 r Hok) as Hl. cbv zeta in Hl. rewrite H in Hl.
  destruct Hl as (e & Hpush & He & ->).
  assert (Hok' : Buffer_ok (subarray_from (b0 :: b1 :: r) e))
    by (apply Buffer_ok_subarray_from; assumption).
  split; [assumption|].
  destruct (parseWsFrames_total _ Hok') as [r' Hr']. rewrite Hr'.
  apply (parseWsFrames_Parses _ _ Hok') in Hr'.
  apply (parseWsFrames_Parses _ _ Hok).
  apply (Parses_push _ 0 [] f e); [lia|assumption|].
  apply (Parses_acc _ _ _ [f]) in Hr'. rewrite app_nil_r in Hr'.
  replace e with (e + 0) by lia.
  apply Parses_shift; [assumption|lia|lia|assumption].
Qed.

Lemma Decodes_parse (b : Buffer) (r : Parsed) :
  Buffer_ok b -> Decodes b r -> parseWsFrames b = Some r.
Proof.
  intros Hok H. induction H as [b Hn|b Hn|b f rest r Hn H IH].
  - apply (parseWsFrames_Parses _ _ Hok).
    assert (E : subarray_from b 0 = b) by reflexivity. rewrite <- E at 2.
    destruct (Z.lt_ge_cases (blen b) (0 + 2)) as [Hs|Hl]; [now apply Parses_end|].
    apply Parses_break; [lia|].
    destruct b as [|b0 [|b1 r]]; try (unfold blen in Hl; cbn [length] in Hl; lia).
    pose proof (loop_body_spec_next b0 b1 r Hok) as Hl'. cbv zeta in Hl'.
    now rewrite Hn in Hl'.
  - apply (parseWsFrames_Parses _ _ Hok).
    destruct b as [|b0 [|b1 r]]; try discriminate.
    pose proof (loop_body_spec_next b0 b1 r Hok) as Hl'. cbv zeta in Hl'.
    rewrite Hn in Hl'. apply Parses_throw; [|assumption].
    unfold blen. cbn [length]. lia.
  - destruct (parse_Complete _ _ _ Hok Hn) as [Hok' ->].
    now rewrite (IH Hok').
Qed.

(** The decoder does what the specification words, no more and no less. *)
Lemma parseWsFrames_Decodes (b : Buffer) (r : Parsed) :
  Buffer_ok b -> parseWsFrames b = Some r <-> Decodes b r.
Proof.
  intros Hok. split; [|now apply Decodes_parse].
  intros H. destruct (Decodes_total b) as [r' Hr'].
  pose proof (Decodes_parse _ _ Hok Hr') as H'. rewrite H in H'.
  injection H' as ->. assumption.
Qed.

(** What a returning decoding has consumed is exactly the complete
    frames it returns, and what it retains is insufficient for a frame. *)
Lemma Decodes_Returned_inv (b : Buffer) (r : Parsed) :
  Decodes b r ->
  forall frames remaining, r = Returned frames remaining ->
  exists consumed, b = consumed ++ remaining /\
    Frames consumed frames /\ spec_next remaining = Insufficient.
Proof.
  induction 1 as [b Hn|b Hn|b f rest r Hn H IH]; intros frames remaining Hr.
  - injection Hr as <- <-. exists []. split; [reflexivity|]. split; [constructor|assumption].
  - discriminate.
  - destruct r as [frames' remaining'|msg]; [|discriminate].
    cbn [prepend_frames app] in Hr. injection Hr as <- <-.
    destruct (IH frames' remaining' eq_refl) as (consumed' & -> & Hfr & Hins).
    destruct (spec_next_Complete_app _ _ _ Hn) as (wire & Hb & _ & Hw).
    exists (wire ++ consumed'). split; [now rewrite <- app_assoc|].
    split; [|assumption].
    apply (Frames_cons _ f consumed'); [apply Hw | assumption].
Qed.

(** A decoding fails exactly at a header whose FIN is false that follows
    complete frames. *)
Lemma Decodes_Thrown_inv (b : Buffer) (r : Parsed) :
  Decodes b r ->
  forall msg, r = Thrown msg ->
  msg = fragmented_msg /\
  exists consumed frames rest,
    b = consumed ++ rest /\ Frames consumed frames /\ spec_next rest = Fragment.
Proof.
  induction 1 as [b Hn|b Hn|b f rest r Hn H IH]; intros msg Hr.
  - discriminate.
  - injection Hr as <-. split; [reflexivity|].
    exists [], [], b. split; [reflexivity|]. split; [constructor|assumption].
  - destruct r as [frames' remaining'|msg']; [discriminate|].
    cbn [prepend_frames] in Hr. injection Hr as ->.
    destruct (IH msg eq_refl) as (-> & consumed' & frames' & rest' & -> & Hfr & Hfrag).
    split; [reflexivity|].
    destruct (spec_next_Complete_app _ _ _ Hn) as (wire & Hb & _ & Hw).
    exists (wire ++ consumed'), (f :: frames'), rest'.
    split; [now rewrite <- app_assoc|]. split; [|assumption].
    apply (Frames_cons _ f consumed'); [apply Hw | assumption].
Qed.

Lemma Frames_Fragment_Decodes (consumed : Buffer) (frames : list Frame) (rest : Buffer) :
  Frames consumed frames -> spec_next rest = Fragment ->
  Decodes (consumed ++ rest) (Thrown fragmented_msg).
Proof.
  intros Hfr Hfrag. induction Hfr as [|b f rest' frames Hn Hfr IH].
  - now apply Decodes_fail.
  - destruct (spec_next_Complete_app _ _ _ Hn) as (wire & -> & _ & Hw).
    rewrite <- app_assoc.
    change (Thrown fragmented_msg) with (prepend_frames [f] (Thrown fragmented_msg)).
    apply (Decodes_frame _ f (rest' ++ rest)); [apply Hw | assumption].
Qed.

Lemma prepend_frames_app (a b : list Frame) (r : Parsed) :
  prepend_frames a (prepend_frames b r) = prepend_frames (a ++ b) r.
Proof. destruct r; cbn [prepend_frames]; [now rewrite app_assoc|reflexivity]. Qed.

(** C8. A complete frame whose mask flag is set is decoded wherever it
    lies after complete frames, whatever the form of its length and
    whatever follows it: the four bytes after the length fields are the
    mask key, the payload is the declared number of bytes after the key,
    each byte [i] XOR-ed with [key[i mod 4]], and decoding goes on after
    the payload.  The masked text frame with key 01 02 03 04 that carries
    "hi" decodes to the text frame with payload "hi". *)
Theorem masked_frame_decodes (pre : Buffer) (frames0 : list Frame) (b0 b1 : byte)
    (ext key data rest : Buffer) :
  Buffer_ok (pre ++ masked_frame b0 b1 ext key data ++ rest) ->
  parseWsFrames pre = Some (Returned frames0 []) ->
  Z.testbit (byte_val b0) 7 = true ->
  Z.testbit (byte_val b1) 7 = true ->
  length ext = ext_len (byte_val b1 mod 128) ->
  declared_length b1 ext = blen data ->
  length key = 4%nat ->
  parseWsFrames (pre ++ masked_frame b0 b1 ext key data ++ rest)
  = prepend_frames
      (frames0 ++ [{| opcode := byte_val b0 mod 16; payload := xor_mask key data |}])
      <$> parseWsFrames rest /\
  length (xor_mask key data) = length data /\
  (forall (i : nat) (x : byte), data !! i = Some x ->
     exists k, key !! (i mod 4)%nat = Some k /\
       xor_mask key data !! i = Some (to_byte (Z.lxor (byte_val x) (byte_val k)))) /\
  parseWsFrames
    ([x81; x82; x01; x02; x03; x04]
       ++ xor_mask [x01; x02; x03; x04] (list_byte_of_string "hi"))
  = Some (Returned [{| opcode := 1; payload := list_byte_of_string "hi" |}] []).
Proof.
  intros Hok Hpre Hfin Hmask Hext Hlen Hkey.
  split; [|split; [|split]].
  - destruct (parse_app_returned _ _ _ _ Hok Hpre) as [Hok' ->]. cbn [app] in *.
    assert (Hn : spec_next (masked_frame b0 b1 ext key data ++ rest)
                 = Complete {| opcode := byte_val b0 mod 16; payload := xor_mask key data |}
                     rest).
    { unfold masked_frame. cbn [app]. rewrite <- !app_assoc.
      rewrite (spec_next_layout b0 b1 ext key data rest Hfin Hext Hlen)
        by (now rewrite Hmask).
      now rewrite Hmask. }
    rewrite (proj2 (parse_Complete _ _ _ Hok' Hn)).
    destruct (parseWsFrames rest) as [r|]; [|reflexivity].
    cbn [fmap option_fmap option_map]. now rewrite prepend_frames_app.
  - unfold xor_mask. apply length_imap.
  - intros i x Hx.
    assert (Hm : (i mod 4 < length key)%nat).
    { rewrite Hkey. apply Nat.mod_upper_bound. lia. }
    destruct (lookup_lt_is_Some_2 key (i mod 4) Hm) as [k Hk].
    exists k. split; [assumption|].
    unfold xor_mask. rewrite list_lookup_imap, Hx. cbn [fmap option_fmap option_map].
    now rewrite (list_lookup_total_correct key (i mod 4) k Hk).
  - reflexivity.
Qed.

Lemma masked_frame_decodes_witness :
  parseWsFrames
    ([x8a; x00]
       ++ masked_frame x89 xfe [x00; x7e] [x0a; x0b; x0c; x0d] (replicate 126 x41) ++ [x88])
  = Some (Returned [{| opcode := 10; payload := [] |};
                    {| opcode := 9;
                       payload := xor_mask [x0a; x0b; x0c; x0d] (replicate 126 x41) |}]
            [x88]).
Proof.
  destruct (masked_frame_decodes [x8a; x00] [{| opcode := 10; payload := [] |}]
              x89 xfe [x00; x7e] [x0a; x0b; x0c; x0d] (replicate 126 x41) [x88]) as [H _].
  - unfold Buffer_ok. apply Z.leb_le. reflexivity.
  - reflexivity.
  - reflexivity.
  - reflexivity.
  - reflexivity.
  - reflexivity.
  - reflexivity.
  - rewrite H. reflexivity.
Defined.

(** ** The 64-bit extended length *)

Lemma read_length_127 (b : Buffer) (off : Z) :
  off + 10 <= blen b ->
  read_length b off 127 = Some (Number (readBigUInt64BE b (off + 2)), 10).
Proof.
  intros H. unfold read_length. change (127 =? 126) with false.
  change (127 =? 127) with true. cbv iota.
  destruct (off + 10 >? blen b) eqn:E; [apply Z.gtb_gt in E; lia|reflexivity].
Qed.

(** C9, as the code has it. With a base length of 127 and the ten header
    bytes buffered, the decoder reads the eight bytes as a big-endian
    64-bit number and goes on with [Number] of it, without a check: the
    length is the declared one when that is at most [2^53], and for a
    declared length beyond the safe integers the pass yields no frame (it
    stops the loop, or throws on a clear FIN bit), whatever the buffer
    holds. *)
Theorem extended_length_unvalidated (b : Buffer) (off : Z) :
  Buffer_ok b -> 0 <= off -> off + 10 <= blen b ->
  Z.land (rd b (off + 1)) 127 = 127 ->
  let big := readBigUInt64BE b (off + 2) in
  read_length b off (Z.land (rd b (off + 1)) 127) = Some (Number big, 10) /\
  (big <= MAX_SAFE_INTEGER -> Number big = big) /\
  (MAX_SAFE_INTEGER < big ->
   loop_body b off
   = if Z.land (rd b off) 128 =? 0 then Throw fragmented_msg else Break).
Proof.
  intros Hok Hoff Hlen Hbase big. rewrite Hbase.
  pose proof (read_length_127 b off Hlen) as Hrl. fold big in Hrl.
  split; [assumption|]. split.
  - intros Hs. unfold Number. apply to_double_exact.
    unfold MAX_SAFE_INTEGER in Hs. lia.
  - intros Hbig. unfold loop_body. rewrite Hbase, Hrl.
    destruct (Z.land (rd b off) 128 =? 0); cbn [negb]; [reflexivity|].
    rewrite (js_add_gtb _ _ _ Hok).
    assert (Hn : 2 ^ 53 <= Number big).
    { unfold Number. apply to_double_large. unfold MAX_SAFE_INTEGER in Hbig. lia. }
    match goal with |- (if ?c then _ else _) = _ => destruct c eqn:E end;
      [reflexivity|].
    exfalso.
    assert (G : ~ (off + 10 + (if negb (Z.land (rd b (off + 1)) 128 =? 0) then 4 else 0)
                   + Number big > blen b))
      by (intros G; apply Z.gtb_gt in G; congruence).
    unfold Buffer_ok, MAX_LENGTH in Hok. destruct (negb _); lia.
Qed.

Lemma extended_length_unvalidated_witness :
  let b := [x82; x7f; x00; x00; x00; x00; x00; x00; x00; x03; x61; x62; x63] in
  read_length b 0 (Z.land (rd b (0 + 1)) 127) = Some (Number 3, 10) /\
  (3 <= MAX_SAFE_INTEGER -> Number 3 = 3) /\
  (MAX_SAFE_INTEGER < 3 ->
   loop_body b 0 = if Z.land (rd b 0) 128 =? 0 then Throw fragmented_msg else Break).
Proof.
  apply (extended_length_unvalidated
           [x82; x7f; x00; x00; x00; x00; x00; x00; x00; x03; x61; x62; x63] 0).
  - unfold Buffer_ok, MAX_LENGTH, blen. simpl. lia.
  - lia.
  - unfold blen. simpl. lia.
  - vm_compute. reflexivity.
Defined.

(** C9 fails as stated: a header that declares [2^53 + 1] bytes is not
    rejected; the decoder goes on with the length [2^53], which is not the
    declared one, and returns without an exception. *)
Lemma unsafe_length_not_validated :
  let b := [x81; x7f; x00; x20; x00; x00; x00; x00; x00; x01] in
  readBigUInt64BE b 2 = 2 ^ 53 + 1 /\
  MAX_SAFE_INTEGER < readBigUInt64BE b 2 /\
  read_length b 0 (Z.land (rd b 1) 127) = Some (2 ^ 53, 10) /\
  loop_body b 0 = Break /\
  parseWsFrames b = Some (Returned [] b).
Proof.
  vm_compute. repeat split; reflexivity.
Qed.

(** ** The handlers *)

Section RelayFacts.

Variable close_throws : ReadyState -> bool.
Variable end_throws : bool -> bool.

Lemma sendJson_eq (obj : list (string * string)) (s : Session) :
  sendJson obj s
  = (Val tt, add_event s (SocketWrite (frame_bytes (PString (JSON_stringify obj)) text_opts))).
Proof. reflexivity. Qed.

Lemma closeBoth_eq (s : Session) :
  closeBoth close_throws end_throws s
  = (Val tt, after_closeBoth close_throws end_throws s).
Proof.
  destruct s as [b u e tr]. unfold closeBoth, after_closeBoth, closing.
  destruct u as [st|];
    cbv [mbind M_bind get_session try_catch upstream_close socket_end log add_event throw
         mret M_ret set_upstream set_socket_ended buf upstream socket_ended trace
         fmap option_fmap option_map].
  - destruct (close_throws st); cbn [buf upstream socket_ended trace];
      [|destruct st]; cbn [buf upstream socket_ended trace];
      destruct (end_throws e); cbn [buf upstream socket_ended trace];
      rewrite <- ?app_assoc; reflexivity.
  - destruct (end_throws e); cbn [buf upstream socket_ended trace]; reflexivity.
Qed.

(** Once [closeBoth] has run, running it again changes neither
    transport, whether or not a call threw. *)
Lemma after_closeBoth_idem (s : Session) :
  let s1 := after_closeBoth close_throws end_throws s in
  let s2 := after_closeBoth close_throws end_throws s1 in
  upstream s2 = upstream s1 /\ socket_ended s2 = socket_ended s1.
Proof.
  destruct s as [b u e tr]. cbv zeta. unfold after_closeBoth, closing.
  cbn [buf upstream socket_ended trace]. split.
  - destruct u as [st|]; [|reflexivity]. cbn.
    destruct (close_throws st) eqn:E1.
    + rewrite E1. reflexivity.
    + destruct st; destruct (close_throws CLOSING) eqn:E2;
        rewrite ?E1; try reflexivity;
        destruct (close_throws CLOSED); reflexivity.
  - destruct (end_throws e) eqn:E1.
    + rewrite E1. reflexivity.
    + destruct (end_throws true); reflexivity.
Qed.

Lemma after_closeBoth_Closed (s : Session) :
  end_throws (socket_ended s) = false ->
  lifecycle (after_closeBoth close_throws end_throws s) = Closed.
Proof.
  intros H. unfold lifecycle, after_closeBoth. cbn [socket_ended]. now rewrite H.
Qed.

Lemma handle_frames_not_open (f : Frame) (rest : list Frame) (s : Session) :
  upstream s <> Some OPEN ->
  handle_frames close_throws end_throws (f :: rest) s
  = handle_frames close_throws end_throws rest s.
Proof.
  intros H. cbn [handle_frames]. cbv [mbind M_bind get_session].
  rewrite bool_decide_eq_false_2 by assumption. reflexivity.
Qed.

Lemma handle_frames_open (f : Frame) (rest : list Frame) (s : Session) :
  upstream s = Some OPEN ->
  handle_frames close_throws end_throws (f :: rest) s
  = if opcode f =? 8 then closeBoth close_throws end_throws s
    else if opcode f =? 9 then
      handle_frames close_throws end_throws rest
        (add_event s (SocketWrite (frame_bytes (PBuffer (payload f)) pong_opts)))
    else if opcode f =? 10 then handle_frames close_throws end_throws rest s
    else if negb (opcode f =? 1) && negb (opcode f =? 2) then
      handle_frames close_throws end_throws rest s
    else if opcode f =? 1 then
      if MAX_STRING_LENGTH <? utf16_length (payload f) then (Exn string_too_long_msg, s)
      else
        handle_frames close_throws end_throws rest
          (add_event s (UpstreamSendText (utf8_text (payload f))))
    else
      handle_frames close_throws end_throws rest (add_event s (UpstreamSendBinary (payload f))).
Proof.
  intros H. cbn [handle_frames]. cbv [mbind M_bind get_session].
  rewrite bool_decide_eq_true_2 by assumption. cbn [negb].
  destruct (opcode f =? 8); [reflexivity|].
  destruct (opcode f =? 9); [reflexivity|].
  destruct (opcode f =? 10); [reflexivity|].
  destruct (negb (opcode f =? 1) && negb (opcode f =? 2)); [reflexivity|].
  destruct (opcode f =? 1); [|reflexivity].
  unfold toString. destruct (MAX_STRING_LENGTH <? utf16_length (payload f)); reflexivity.
Qed.

(** C3, as the code has it. While the upstream connection is open
    (Active), a decoded ping with payload [P] makes the relay write
    exactly one frame to the client, which decodes to a pong with
    payload [P]; nothing is sent upstream, the lifecycle does not
    change, and the loop goes on with the frames that follow.  In any
    other state of the upstream connection, Connecting included, the
    ping is dropped: no event at all. *)
Theorem ping_answered_while_open (s : Session) (P : Buffer) (rest : list Frame) :
  let ping := {| opcode := 9; payload := P |} in
  let pong := frame_bytes (PBuffer P) pong_opts in
  (upstream s = Some OPEN ->
   handle_frames close_throws end_throws (ping :: rest) s
   = handle_frames close_throws end_throws rest (add_event s (SocketWrite pong)) /\
   lifecycle (add_event s (SocketWrite pong)) = lifecycle s /\
   (Buffer_ok pong ->
    parseWsFrames pong = Some (Returned [{| opcode := 10; payload := P |}] []))) /\
  (upstream s <> Some OPEN ->
   handle_frames close_throws end_throws (ping :: rest) s
   = handle_frames close_throws end_throws rest s).
Proof.
  cbv zeta. split.
  - intros Hopen. split; [|split].
    + now rewrite handle_frames_open.
    + reflexivity.
    + intros Hok. apply (parse_frame_bytes (PBuffer P) pong_opts); [|assumption].
      cbn. lia.
  - apply handle_frames_not_open.
Qed.

(** C4, as the code has it. While the upstream connection is open, a
    decoded close frame runs [closeBoth] and ends the loop; in any other
    state, Connecting included, the close frame is dropped.  [closeBoth]
    always returns normally, with [upstream.close()] (when [upstream] is
    defined) and [socket.end()] called once each and nothing written to
    the client; the session is then Closed when [socket.end()] did not
    throw, and a second [closeBoth] returns normally as well and changes
    neither transport. *)
Theorem close_frame_closes_both (s : Session) (P : Buffer) (rest : list Frame) :
  let close := {| opcode := 8; payload := P |} in
  let s1 := after_closeBoth close_throws end_throws s in
  let s2 := after_closeBoth close_throws end_throws s1 in
  (upstream s = Some OPEN ->
   handle_frames close_throws end_throws (close :: rest) s = (Val tt, s1) /\
   trace s1 = trace s ++ [UpstreamClose; SocketEnd]) /\
  (upstream s <> Some OPEN ->
   handle_frames close_throws end_throws (close :: rest) s
   = handle_frames close_throws end_throws rest s) /\
  closeBoth close_throws end_throws s = (Val tt, s1) /\
  trace s1 = trace s ++ match upstream s with Some _ => [UpstreamClose] | None => [] end
                     ++ [SocketEnd] /\
  (end_throws (socket_ended s) = false -> lifecycle s1 = Closed) /\
  closeBoth close_throws end_throws s1 = (Val tt, s2) /\
  upstream s2 = upstream s1 /\ socket_ended s2 = socket_ended s1.
Proof.
  cbv zeta. split; [|split; [|split; [|split; [|split; [|split]]]]].
  - intros Hopen. rewrite handle_frames_open by assumption. cbn [opcode Z.eqb Pos.eqb].
    split; [apply closeBoth_eq|]. unfold after_closeBoth. cbn [trace].
    now rewrite Hopen.
  - apply handle_frames_not_open.
  - apply closeBoth_eq.
  - reflexivity.
  - apply after_closeBoth_Closed.
  - apply closeBoth_eq.
  - apply after_closeBoth_idem.
Qed.

Lemma Buffer_concat_ok (a b : Buffer) (s : Session) :
  Buffer_ok (a ++ b) -> Buffer_concat a b s = (Val (a ++ b), s).
Proof.
  intros H. unfold Buffer_concat.
  replace (MAX_LENGTH <? blen (a ++ b)) with false; [reflexivity|].
  symmetry. apply Z.ltb_ge. exact H.
Qed.

(** The [data] handler when the concatenation throws. *)
Lemma on_data_too_long (chunk : Buffer) (s : Session) :
  ~ Buffer_ok (buf s ++ chunk) ->
  on_data close_throws end_throws chunk s = (Exn out_of_range_msg, s).
Proof.
  intros H. unfold on_data, Buffer_concat. cbv [mbind M_bind get_session].
  replace (MAX_LENGTH <? blen (buf s ++ chunk)) with true; [reflexivity|].
  symmetry. apply Z.ltb_lt. unfold Buffer_ok in H. lia.
Qed.

(** The [data] handler on a buffer whose decoding throws. *)
Lemma on_data_Thrown (chunk : Buffer) (s : Session) (msg : string) :
  Buffer_ok (buf s ++ chunk) ->
  parseWsFrames (buf s ++ chunk) = Some (Thrown msg) ->
  on_data close_throws end_throws chunk s
  = (Val tt,
     after_closeBoth close_throws end_throws
       (add_event
          {| buf := buf s ++ chunk; upstream := upstream s;
             socket_ended := socket_ended s; trace := trace s |}
          (SocketWrite (error_frame msg)))).
Proof.
  intros Hok H. unfold on_data. cbv [mbind M_bind get_session].
  rewrite (Buffer_concat_ok _ _ _ Hok). cbv [set_buf]. rewrite H.
  rewrite sendJson_eq. apply closeBoth_eq.
Qed.

Lemma on_data_Returned (chunk : Buffer) (s : Session) (frames : list Frame)
    (remaining : Buffer) :
  Buffer_ok (buf s ++ chunk) ->
  parseWsFrames (buf s ++ chunk) = Some (Returned frames remaining) ->
  on_data close_throws end_throws chunk s
  = handle_frames close_throws end_throws frames
      {| buf := remaining; upstream := upstream s;
         socket_ended := socket_ended s; trace := trace s |}.
Proof.
  intros Hok H. unfold on_data. cbv [mbind M_bind get_session].
  rewrite (Buffer_concat_ok _ _ _ Hok). cbv [set_buf]. rewrite H.
  reflexivity.
Qed.

(** A header with a clear FIN bit that follows complete frames makes
    the decoder throw. *)
Lemma parse_fragment (pre rest : Buffer) (frames : list Frame) (b0 b1 : byte) :
  Buffer_ok (pre ++ b0 :: b1 :: rest) ->
  parseWsFrames pre = Some (Returned frames []) ->
  Z.land (byte_val b0) 128 = 0 ->
  parseWsFrames (pre ++ b0 :: b1 :: rest) = Some (Thrown fragmented_msg).
Proof.
  intros Hok Hpre Hfin.
  destruct (parse_app_returned _ _ _ _ Hok Hpre) as [_ ->]. cbn [app].
  assert (Hok2 : Buffer_ok (b0 :: b1 :: rest)) by (eapply Buffer_ok_app_r; eassumption).
  assert (H : parseWsFrames (b0 :: b1 :: rest) = Some (Thrown fragmented_msg)).
  { apply (parseWsFrames_Parses _ _ Hok2). apply Parses_throw.
    - rewrite !blen_cons. pose proof (blen_nonneg rest). lia.
    - apply loop_body_Throw. split; [exact Hfin | reflexivity]. }
  now rewrite H.
Qed.

(** C7. When the buffered bytes, after a run of complete frames, hold a
    base header whose FIN bit is 0, decoding throws (no frame is handed
    over, not even those before the header), the client is sent exactly
    one frame, the structured error message, and [closeBoth] ends the
    session. *)
Theorem fragment_terminates_session (s : Session) (chunk pre rest : Buffer)
    (frames : list Frame) (b0 b1 : byte) :
  Buffer_ok (buf s ++ chunk) ->
  buf s ++ chunk = pre ++ b0 :: b1 :: rest ->
  parseWsFrames pre = Some (Returned frames []) ->
  Z.land (byte_val b0) 128 = 0 ->
  parseWsFrames (buf s ++ chunk) = Some (Thrown fragmented_msg) /\
  exists s',
    on_data close_throws end_throws chunk s = (Val tt, s') /\
    trace s' = trace s ++ [SocketWrite (error_frame fragmented_msg)]
                       ++ match upstream s with Some _ => [UpstreamClose] | None => [] end
                       ++ [SocketEnd] /\
    is_error_message (SocketWrite (error_frame fragmented_msg)) = true /\
    (end_throws (socket_ended s) = false -> lifecycle s' = Closed).
Proof.
  intros Hok Hsplit Hpre Hfin.
  assert (Hthrow : parseWsFrames (buf s ++ chunk) = Some (Thrown fragmented_msg)).
  { rewrite Hsplit. rewrite Hsplit in Hok. now apply (parse_fragment pre rest frames). }
  split; [assumption|].
  eexists. split; [exact (on_data_Thrown chunk s fragmented_msg Hok Hthrow)|].
  split; [|split].
  - unfold after_closeBoth, add_event. cbn [trace upstream].
    rewrite <- !app_assoc. reflexivity.
  - vm_compute. reflexivity.
  - intros He. now apply after_closeBoth_Closed.
Qed.

End RelayFacts.

(** ** The receive buffer of a session *)

Lemma handle_frames_buf (close_throws : ReadyState -> bool) (end_throws : bool -> bool)
    (frames : list Frame) (s : Session) :
  buf (handle_frames close_throws end_throws frames s).2 = buf s.
Proof.
  revert s. induction frames as [|f rest IH]; intros s; [reflexivity|].
  destruct (decide (upstream s = Some OPEN)) as [Hopen|Hopen].
  - rewrite handle_frames_open by assumption.
    destruct (opcode f =? 8); [rewrite closeBoth_eq; reflexivity|].
    destruct (opcode f =? 9); [now rewrite IH|].
    destruct (opcode f =? 10); [apply IH|].
    destruct (negb (opcode f =? 1) && negb (opcode f =? 2)); [apply IH|].
    destruct (opcode f =? 1); [|now rewrite IH].
    destruct (MAX_STRING_LENGTH <? utf16_length (payload f)); [reflexivity|now rewrite IH].
  - rewrite handle_frames_not_open by assumption. apply IH.
Qed.

(** C2, as the code has it.  On every buffer the decoder returns or
    throws, and it does what the specification words: complete frames
    are consumed one after the other, bytes that are insufficient for a
    base header, a declared header, a mask key or a full payload stop
    the decoding, and a header whose FIN is false makes it throw.  When
    it returns, the buffer is the consumed bytes followed by the
    remainder, the consumed bytes are exactly the returned frames and
    the remainder is insufficient for a frame; the [data] handler keeps
    exactly the remainder as the receive buffer.  It throws exactly when
    a header whose FIN is false follows complete frames, and then none
    of these frames is returned.  For every split of the buffer into two
    chunks, decoding chunk one and then the remainder followed by chunk
    two gives the frames and the remainder of decoding the buffer at
    once when that returns; when that throws, the second of the two
    calls throws the same exception (or the first does), and the frames
    the first call returned have been handed over before. *)
Theorem parseWsFrames_resumable (buffer : Buffer) :
  Buffer_ok buffer ->
  (exists r, parseWsFrames buffer = Some r) /\
  (forall r, parseWsFrames buffer = Some r <-> Decodes buffer r) /\
  (forall frames remaining,
     parseWsFrames buffer = Some (Returned frames remaining) ->
     exists consumed, buffer = consumed ++ remaining /\
       Frames consumed frames /\ spec_next remaining = Insufficient) /\
  (forall msg,
     parseWsFrames buffer = Some (Thrown msg) <->
     msg = fragmented_msg /\
     exists consumed frames rest,
       buffer = consumed ++ rest /\ Frames consumed frames /\ spec_next rest = Fragment) /\
  (forall chunk1 chunk2, buffer = chunk1 ++ chunk2 ->
     match parseWsFrames buffer with
     | Some (Returned frames remaining) =>
         decode_chunks chunk1 chunk2 = Some (Kept frames remaining)
     | Some (Thrown msg) =>
         exists frames1,
           decode_chunks chunk1 chunk2 = Some (Failed frames1 msg) /\
           (parseWsFrames chunk1 = Some (Thrown msg) /\ frames1 = [] \/
            exists remaining1, parseWsFrames chunk1 = Some (Returned frames1 remaining1))
     | None => False
     end) /\
  (forall close_throws end_throws s chunk frames remaining,
     buffer = buf s ++ chunk ->
     parseWsFrames buffer = Some (Returned frames remaining) ->
     buf (on_data close_throws end_throws chunk s).2 = remaining).
Proof.
  intros Hok. split; [|split; [|split; [|split; [|split]]]].
  - now apply parseWsFrames_total.
  - intros r. now apply parseWsFrames_Decodes.
  - intros frames remaining H. apply (parseWsFrames_Decodes _ _ Hok) in H.
    exact (Decodes_Returned_inv _ _ H frames remaining eq_refl).
  - intros msg. split.
    + intros H. apply (parseWsFrames_Decodes _ _ Hok) in H.
      exact (Decodes_Thrown_inv _ _ H msg eq_refl).
    + intros (-> & consumed & frames & rest & -> & Hfr & Hfrag).
      apply (Decodes_parse _ _ Hok). now apply (Frames_Fragment_Decodes _ frames).
  - intros chunk1 chunk2 ->. now apply decode_chunks_whole.
  - intros ct et s chunk frames remaining -> Hp.
    rewrite (on_data_Returned ct et chunk s frames remaining Hok Hp).
    now rewrite handle_frames_buf.
Qed.

Lemma parseWsFrames_resumable_witness :
  parseWsFrames [x89; x01; x41; x81; x7e; x00]
  = Some (Returned [{| opcode := 9; payload := [x41] |}] [x81; x7e; x00]) /\
  spec_next [x81; x7e; x00] = Insufficient /\
  decode_chunks [x89; x01] [x41; x81; x7e; x00]
  = Some (Kept [{| opcode := 9; payload := [x41] |}] [x81; x7e; x00]).
Proof.
  destruct (parseWsFrames_resumable [x89; x01; x41; x81; x7e; x00])
    as (_ & _ & Hret & _ & Hsplit & _).
  - unfold Buffer_ok. apply Z.leb_le. reflexivity.
  - assert (Hp : parseWsFrames [x89; x01; x41; x81; x7e; x00]
                 = Some (Returned [{| opcode := 9; payload := [x41] |}] [x81; x7e; x00]))
      by reflexivity.
    split; [exact Hp|].
    destruct (Hret _ _ Hp) as (consumed & _ & _ & Hins).
    split; [exact Hins|].
    specialize (Hsplit [x89; x01] [x41; x81; x7e; x00] eq_refl).
    rewrite Hp in Hsplit. exact Hsplit.
Defined.

(** C2 fails as stated, on a buffer in which a header whose
    FIN is false follows a complete frame: decoding it at once throws
    and returns neither the complete frame that is present nor any
    remainder, while decoding it in two chunks, the frame and then the
    header, hands the frame over (the relay answers the ping) before it
    throws. *)
Lemma complete_frame_lost_on_fragment :
  spec_next (ping_A ++ fragment_header)
  = Complete {| opcode := 9; payload := [x41] |} fragment_header /\
  parseWsFrames (ping_A ++ fragment_header) = Some (Thrown fragmented_msg) /\
  decode_chunks ping_A fragment_header
  = Some (Failed [{| opcode := 9; payload := [x41] |}] fragmented_msg) /\
  written
    (trace (on_data never_throws_close never_throws_end (ping_A ++ fragment_header)
              active_session).2)
  = [error_frame fragmented_msg] /\
  written
    (trace ((on_data never_throws_close never_throws_end ping_A ;;
             on_data never_throws_close never_throws_end fragment_header)
              active_session).2)
  = [frame_bytes (PBuffer [x41]) pong_opts; error_frame fragmented_msg].
Proof.
  repeat split; vm_compute; reflexivity.
Qed.

(** ** The upgrade handler *)

Section UpgradeFacts.

Variable URL_pathname : string -> string -> option string.
Variable JSON_parse : string -> option Json.
Variable WebSocket_throws : string -> option string.
Variable end_throws : bool -> bool.

Lemma socket_end_eq (s : Session) :
  socket_end end_throws s
  = (if end_throws (socket_ended s) then Exn "end" else Val tt,
     after_socket_end end_throws s).
Proof.
  destruct s as [b u e tr]. unfold after_socket_end.
  cbv [socket_end mbind M_bind get_session log add_event throw set_socket_ended
       buf upstream socket_ended trace].
  destruct (end_throws e); reflexivity.
Qed.

Lemma truthy_false (s : string) : truthy s = false <-> s = "".
Proof.
  unfold truthy. destruct (String.eqb s "") eqn:E; cbn [negb].
  - apply String.eqb_eq in E. split; [intros _; assumption | reflexivity].
  - apply String.eqb_neq in E. split; [discriminate | contradiction].
Qed.

(** The refusal of a session whose configuration is missing. *)
Lemma open_session_missing (env : gmap string string) (s : Session) :
  let xaiKey := default "" (env !! "XAI_API_KEY") in
  let upstreamUrl := default "" (env !! "XAI_REALTIME_WS_URL") in
  trim xaiKey = "" \/ trim upstreamUrl = "" ->
  open_session JSON_parse WebSocket_throws end_throws env s
  = socket_end end_throws
      (add_event
         (add_event s
            (SocketWrite
               (error_frame
                  (if String.eqb (trim xaiKey) "" then missing_key_msg else missing_url_msg))))
         (SocketWrite (frame_bytes (PBuffer (alloc 0)) text_opts))).
Proof.
  cbv zeta. intros H. unfold open_session.
  set (k := trim (default "" (env !! "XAI_API_KEY"))) in *.
  set (u := trim (default "" (env !! "XAI_REALTIME_WS_URL"))) in *.
  assert (E : negb (truthy k) || negb (truthy u) = true).
  { destruct H as [H|H]; apply truthy_false in H; rewrite H; cbn;
      [reflexivity | apply orb_true_r]. }
  rewrite E. unfold truthy at 1. rewrite negb_involutive.
  reflexivity.
Qed.


Lemma on_upgrade_accepted (env : gmap string string) (req : Request) (key : string) :
  request_pathname URL_pathname req = Some voice_path ->
  req_headers req !! "sec-websocket-key" = Some key ->
  req_headers req !! "sec-websocket-version" = Some "13" ->
  on_upgrade URL_pathname JSON_parse WebSocket_throws end_throws env req new_session
  = open_session JSON_parse WebSocket_throws end_throws env
      {| buf := []; upstream := None; socket_ended := false;
         trace := [SocketWrite
                     (list_byte_of_string
                        (switching_protocols (sha1_base64 (key +:+ websocket_guid))));
                   SocketSetNoDelay] |}.
Proof.
  unfold request_pathname, on_upgrade. intros -> -> Hv.
  rewrite bool_decide_eq_true_2 by assumption.
  reflexivity.
Qed.


Lemma on_upgrade_missing (env : gmap string string) (req : Request) (key : string) :
  request_pathname URL_pathname req = Some voice_path ->
  req_headers req !! "sec-websocket-key" = Some key ->
  req_headers req !! "sec-websocket-version" = Some "13" ->
  let xaiKey := default "" (env !! "XAI_API_KEY") in
  let upstreamUrl := default "" (env !! "XAI_REALTIME_WS_URL") in
  trim xaiKey = "" \/ trim upstreamUrl = "" ->
  on_upgrade URL_pathname JSON_parse WebSocket_throws end_throws env req new_session
  = (if end_throws false then Exn "end" else Val tt,
     {| buf := []; upstream := None;
        socket_ended := if end_throws false then false else true;
        trace :=
          [SocketWrite
             (list_byte_of_string
                (switching_protocols (sha1_base64 (key +:+ websocket_guid))));
           SocketSetNoDelay;
           SocketWrite
             (error_frame
                (if String.eqb (trim xaiKey) "" then missing_key_msg else missing_url_msg));
           SocketWrite [x81; x00];
           SocketEnd] |}).
Proof.
  intros Hp Hk Hv xaiKey upstreamUrl Hmiss.
  rewrite (on_upgrade_accepted env req key Hp Hk Hv).
  rewrite (open_session_missing env _ Hmiss), socket_end_eq.
  reflexivity.
Qed.

(** What a refused client decodes: the error message, then an empty
    text frame. *)
Lemma refusal_stream (key_missing : bool) :
  let msg := if key_missing then missing_key_msg else missing_url_msg in
  let frames := [{| opcode := 1; payload := list_byte_of_string (error_json msg) |};
                 {| opcode := 1; payload := [] |}] in
  parseWsFrames (error_frame msg ++ [x81; x00]) = Some (Returned frames []) /\
  List.filter frame_is_error frames
  = [{| opcode := 1; payload := list_byte_of_string (error_json msg) |}].
Proof.
  destruct key_missing; split; vm_compute; reflexivity.
Qed.

(** C5. When the credential or the endpoint URL is blank after trimming,
    an accepted client is sent exactly one structured error message,
    which names the missing variable (the credential when both are
    missing); [socket.end()] is the last call; no upstream connection is
    constructed and no call on one is made. *)
Theorem missing_configuration_refused (env : gmap string string) (req : Request)
    (key : string) :
  request_pathname URL_pathname req = Some voice_path ->
  req_headers req !! "sec-websocket-key" = Some key ->
  req_headers req !! "sec-websocket-version" = Some "13" ->
  let xaiKey := default "" (env !! "XAI_API_KEY") in
  let upstreamUrl := default "" (env !! "XAI_REALTIME_WS_URL") in
  trim xaiKey = "" \/ trim upstreamUrl = "" ->
  let msg := if String.eqb (trim xaiKey) "" then missing_key_msg else missing_url_msg in
  let r := on_upgrade URL_pathname JSON_parse WebSocket_throws end_throws env req new_session in
  (exists frames,
     parseWsFrames (concat (drop 1 (written (trace r.2)))) = Some (Returned frames []) /\
     List.filter frame_is_error frames
     = [{| opcode := 1; payload := list_byte_of_string (error_json msg) |}]) /\
  last (trace r.2) = Some SocketEnd /\
  List.filter is_upstream_event (trace r.2) = [] /\
  upstream r.2 = None /\
  (end_throws false = false -> r.1 = Val tt /\ lifecycle r.2 = Closed).
Proof.
  intros Hp Hk Hv xaiKey upstreamUrl Hmiss msg r.
  unfold r. rewrite (on_upgrade_missing env req key Hp Hk Hv Hmiss).
  fold xaiKey. fold msg. cbn [snd fst trace upstream].
  split; [|split; [|split; [|split]]].
  - cbv [written]. cbn [omap list_omap drop concat app].
    exists [{| opcode := 1; payload := list_byte_of_string (error_json msg) |};
            {| opcode := 1; payload := [] |}].
    clear r. destruct (refusal_stream (String.eqb (trim xaiKey) "")) as [H1 H2].
    fold msg in H1, H2. split; assumption.
  - reflexivity.
  - reflexivity.
  - reflexivity.
  - intros ->. split; reflexivity.
Qed.

(** C10. A session refused for missing configuration is sent, after the
    error message, one empty text frame (the bytes 81 00: FIN set,
    opcode 1, no payload) before [socket.end()]: what the client decodes
    is two frames. *)
Theorem missing_configuration_two_frames (env : gmap string string) (req : Request)
    (key : string) :
  request_pathname URL_pathname req = Some voice_path ->
  req_headers req !! "sec-websocket-key" = Some key ->
  req_headers req !! "sec-websocket-version" = Some "13" ->
  let xaiKey := default "" (env !! "XAI_API_KEY") in
  let upstreamUrl := default "" (env !! "XAI_REALTIME_WS_URL") in
  trim xaiKey = "" \/ trim upstreamUrl = "" ->
  let msg := if String.eqb (trim xaiKey) "" then missing_key_msg else missing_url_msg in
  let r := on_upgrade URL_pathname JSON_parse WebSocket_throws end_throws env req new_session in
  drop 2 (trace r.2)
  = [SocketWrite (error_frame msg);
     SocketWrite (frame_bytes (PBuffer (alloc 0)) text_opts);
     SocketEnd] /\
  frame_bytes (PBuffer (alloc 0)) text_opts = [x81; x00] /\
  parseWsFrames (error_frame msg ++ [x81; x00])
  = Some (Returned [{| opcode := 1; payload := list_byte_of_string (error_json msg) |};
                    {| opcode := 1; payload := [] |}] []).
Proof.
  intros Hp Hk Hv xaiKey upstreamUrl Hmiss msg r.
  unfold r. rewrite (on_upgrade_missing env req key Hp Hk Hv Hmiss).
  fold xaiKey. fold msg. cbn [snd trace drop].
  split; [reflexivity|]. split; [reflexivity|].
  clear r. destruct (refusal_stream (String.eqb (trim xaiKey) "")) as [H1 _].
  exact H1.
Qed.

End UpgradeFacts.

(** ** The properties at concrete sessions and requests *)

Lemma ping_answered_while_open_witness :
  handle_frames never_throws_close never_throws_end
    [{| opcode := 9; payload := list_byte_of_string "hi" |}] active_session
  = (Val tt, add_event active_session (SocketWrite [x8a; x02; x68; x69])) /\
  parseWsFrames [x8a; x02; x68; x69]
  = Some (Returned [{| opcode := 10; payload := list_byte_of_string "hi" |}] []).
Proof.
  destruct (ping_answered_while_open never_throws_close never_throws_end
              active_session (list_byte_of_string "hi") []) as [H _].
  destruct (H eq_refl) as (H1 & _ & H3). split.
  - exact H1.
  - apply H3. unfold Buffer_ok. apply Z.leb_le. reflexivity.
Defined.

(** C3 fails as stated: while the upstream connection is still
    connecting, a ping from the client is decoded and dropped; no pong is
    written. *)
Lemma ping_dropped_while_connecting :
  lifecycle connecting_session = Connecting /\
  parseWsFrames masked_ping
  = Some (Returned [{| opcode := 9; payload := list_byte_of_string "hi" |}] []) /\
  on_data never_throws_close never_throws_end masked_ping connecting_session
  = (Val tt, connecting_session) /\
  written (trace connecting_session) = [].
Proof.
  repeat split; reflexivity.
Qed.

Lemma close_frame_closes_both_witness :
  handle_frames never_throws_close never_throws_end
    [{| opcode := 8; payload := [] |}; {| opcode := 9; payload := [] |}] active_session
  = (Val tt,
     {| buf := []; upstream := Some CLOSING; socket_ended := true;
        trace := [UpstreamClose; SocketEnd] |}) /\
  handle_frames never_throws_close never_throws_end
    [{| opcode := 8; payload := [] |}] connecting_session
  = (Val tt, connecting_session).
Proof.
  split.
  - destruct (close_frame_closes_both never_throws_close never_throws_end
                active_session [] [{| opcode := 9; payload := [] |}]) as [H _].
    destruct (H eq_refl) as [H1 _]. exact H1.
  - destruct (close_frame_closes_both never_throws_close never_throws_end
                connecting_session [] []) as (_ & H & _).
    apply H. discriminate.
Defined.

(** C4 fails as stated: while the upstream connection is still
    connecting, a close frame from the client is decoded and dropped;
    neither transport is closed and the session stays Connecting. *)
Lemma close_dropped_while_connecting :
  lifecycle connecting_session = Connecting /\
  parseWsFrames masked_close = Some (Returned [{| opcode := 8; payload := [] |}] []) /\
  on_data never_throws_close never_throws_end masked_close connecting_session
  = (Val tt, connecting_session) /\
  trace connecting_session = [] /\
  lifecycle connecting_session <> Closed.
Proof.
  repeat split; try reflexivity. discriminate.
Qed.

Lemma fragment_terminates_session_witness :
  let chunk := [x89; x00; x01; x00] in
  parseWsFrames (buf active_session ++ chunk) = Some (Thrown fragmented_msg) /\
  exists s',
    on_data never_throws_close never_throws_end chunk active_session = (Val tt, s') /\
    trace s' = trace active_session ++ [SocketWrite (error_frame fragmented_msg)]
                 ++ [UpstreamClose] ++ [SocketEnd] /\
    is_error_message (SocketWrite (error_frame fragmented_msg)) = true /\
    (never_throws_end (socket_ended active_session) = false -> lifecycle s' = Closed).
Proof.
  apply (fragment_terminates_session never_throws_close never_throws_end
           active_session [x89; x00; x01; x00] [x89; x00] [] [{| opcode := 9; payload := [] |}]
           x01 x00).
  - unfold Buffer_ok. apply Z.leb_le. reflexivity.
  - reflexivity.
  - reflexivity.
  - reflexivity.
Defined.



(** The accept token of the sample handshake is the one the RFC gives. *)
Example sample_accept_token :
  sha1_base64 ("dGhlIHNhbXBsZSBub25jZQ==" +:+ websocket_guid) = "s3pPLMBiTxaQ9kYGzzhZRbK+xOo=".
Proof. vm_compute. reflexivity. Qed.

Lemma missing_configuration_refused_witness :
  let r := on_upgrade plain_pathname no_json connects never_throws_end
             env_without_key sample_request new_session in
  (exists frames,
     parseWsFrames (concat (drop 1 (written (trace r.2)))) = Some (Returned frames []) /\
     List.filter frame_is_error frames
     = [{| opcode := 1; payload := list_byte_of_string (error_json missing_key_msg) |}]) /\
  last (trace r.2) = Some SocketEnd /\
  List.filter is_upstream_event (trace r.2) = [] /\
  upstream r.2 = None /\
  (never_throws_end false = false -> r.1 = Val tt /\ lifecycle r.2 = Closed).
Proof.
  apply (missing_configuration_refused plain_pathname no_json connects never_throws_end
           env_without_key sample_request "dGhlIHNhbXBsZSBub25jZQ==").
  - vm_compute. reflexivity.
  - vm_compute. reflexivity.
  - vm_compute. reflexivity.
  - left. vm_compute. reflexivity.
Defined.

Lemma missing_configuration_two_frames_witness :
  let r := on_upgrade plain_pathname no_json connects never_throws_end
             env_without_key sample_request new_session in
  drop 2 (trace r.2)
  = [SocketWrite (error_frame missing_key_msg);
     SocketWrite (frame_bytes (PBuffer (alloc 0)) text_opts);
     SocketEnd] /\
  frame_bytes (PBuffer (alloc 0)) text_opts = [x81; x00] /\
  parseWsFrames (error_frame missing_key_msg ++ [x81; x00])
  = Some (Returned [{| opcode := 1; payload := list_byte_of_string (error_json missing_key_msg) |};
                    {| opcode := 1; payload := [] |}] []).
Proof.
  apply (missing_configuration_two_frames plain_pathname no_json connects never_throws_end
           env_without_key sample_request "dGhlIHNhbXBsZSBub25jZQ==").
  - vm_compute. reflexivity.
  - vm_compute. reflexivity.
  - vm_compute. reflexivity.
  - left. vm_compute. reflexivity.
Defined.

(** * Further properties of the codec *)

Lemma parse_frame_then (p : Payload) (opts : Opts) (rest : Buffer) (r : Parsed) :
  0 <= opts_opcode opts < 16 ->
  Buffer_ok (frame_bytes p opts ++ rest) ->
  parseWsFrames rest = Some r ->
  parseWsFrames (frame_bytes p opts ++ rest)
  = Some (prepend_frames [frame_of (p, opts)] r).
Proof.
  intros Hop Hok Hr.
  destruct (parse_app_returned _ _ _ _ Hok
              (parse_frame_bytes p opts Hop (Buffer_ok_app_l _ _ Hok))) as [_ ->].
  cbn [app]. now rewrite Hr.
Qed.

Lemma encode_all_parse (l : list (Payload * Opts)) :
  Forall (fun po => 0 <= opts_opcode po.2 < 16) l ->
  Buffer_ok (encode_all l) ->
  parseWsFrames (encode_all l) = Some (Returned (frame_of <$> l) []).
Proof.
  induction l as [|[p opts] l IH]; intros Hops Hok.
  - reflexivity.
  - inversion Hops as [|po l' Hop Hops']; subst.
    unfold encode_all in *. cbn [fmap list_fmap concat fst snd] in *.
    rewrite (parse_frame_then p opts _ (Returned (frame_of <$> l) [])).
    + reflexivity.
    + exact Hop.
    + exact Hok.
    + apply IH; [assumption|]. eapply Buffer_ok_app_r; eassumption.
Qed.

(** X1. What a sequence of [sendWsFrame] calls writes decodes to the
    frames of the calls, in order, with nothing left. *)
Theorem encode_all_decodes (l : list (Payload * Opts)) :
  Forall (fun po => 0 <= opts_opcode po.2 < 16) l ->
  Buffer_ok (encode_all l) ->
  parseWsFrames (encode_all l) = Some (Returned (frame_of <$> l) []).
Proof.
  intros Hops Hok. now apply encode_all_parse.
Qed.

Lemma encode_all_decodes_witness :
  parseWsFrames
    (encode_all [(PString "hi", text_opts); (PBuffer [x00; xff], binary_opts);
                 (PBuffer [], pong_opts)])
  = Some (Returned [{| opcode := 1; payload := list_byte_of_string "hi" |};
                    {| opcode := 2; payload := [x00; xff] |};
                    {| opcode := 10; payload := [] |}] []).
Proof.
  apply (encode_all_decodes
           [(PString "hi", text_opts); (PBuffer [x00; xff], binary_opts);
            (PBuffer [], pong_opts)]).
  - repeat (apply Forall_cons_2;
            [split; [apply Z.leb_le | apply Z.ltb_lt]; reflexivity|]).
    apply Forall_nil_2.
  - unfold Buffer_ok. apply Z.leb_le. reflexivity.
Defined.

Lemma blen_take (b : Buffer) (n : nat) :
  (n <= length b)%nat -> blen (take n b) = Z.of_nat n.
Proof.
  intros H. unfold blen. rewrite length_take. lia.
Qed.

Lemma rd_take_nat (b : Buffer) (n : nat) (i : Z) :
  i < Z.of_nat n -> rd (take n b) i = rd b i.
Proof.
  intros H. rewrite <- (Nat2Z.id n) at 1. now apply rd_take.
Qed.

(** X2. A frame that has arrived only in part yields no frame and is
    kept whole, and once the rest has arrived the frame is decoded. *)
Theorem truncated_frame_waits (p : Payload) (opts : Opts) (n : nat) :
  0 <= opts_opcode opts < 16 ->
  Buffer_ok (frame_bytes p opts) ->
  (n < length (frame_bytes p opts))%nat ->
  let head := take n (frame_bytes p opts) in
  let tail := drop n (frame_bytes p opts) in
  parseWsFrames head = Some (Returned [] head) /\
  decode_chunks head tail = Some (Kept [frame_of (p, opts)] []).
Proof.
  intros Hop Hok Hn head tail.
  set (fb := frame_bytes p opts) in *.
  assert (Hokh : Buffer_ok head) by (apply Buffer_ok_take; assumption).
  pose proof (frame_bytes_frame_at p opts Hop Hok) as Hfull. fold fb in Hfull.
  assert (Hlen : blen head = Z.of_nat n) by (apply blen_take; lia).
  assert (Hhead : parseWsFrames head = Some (Returned [] head)).
  { apply (parseWsFrames_Parses _ _ Hokh).
    assert (E : subarray_from head 0 = head) by reflexivity.
    rewrite <- E at 2.
    destruct (Z.lt_ge_cases (blen head) (0 + 2)) as [Hshort|Hlong].
    - now apply Parses_end.
    - apply Parses_break; [lia|].
      destruct (loop_body head 0) as [|msg|f e] eqn:Hb; [reflexivity| |].
      + exfalso. apply loop_body_Throw in Hb. destruct Hb as [Hfin _].
        unfold head in Hfin. rewrite (rd_take_nat fb n 0) in Hfin by lia.
        destruct Hfull as (len & hl & Hfin' & _). contradiction.
      + exfalso. apply (loop_body_Push _ _ _ _ Hokh) in Hb.
        pose proof (frame_at_bounds _ _ _ _ Hb) as Hbd.
        assert (Hfb : frame_at fb 0 f e).
        { apply (frame_at_agree head); try assumption; try lia.
          - unfold head. rewrite take_take. f_equal. lia.
          - unfold blen in *. lia. }
        apply (loop_body_Push _ _ _ _ Hok) in Hfb, Hfull.
        rewrite Hfb in Hfull. injection Hfull as _ He.
        unfold blen in *. lia. }
  split; [exact Hhead|].
  assert (Hsplit : head ++ tail = fb) by apply take_drop.
  pose proof (parse_frame_bytes p opts Hop Hok) as Hfb. fold fb in Hfb.
  unfold decode_chunks. rewrite Hhead, Hsplit, Hfb. reflexivity.
Qed.

Lemma truncated_frame_waits_witness :
  let fb := frame_bytes (PString "hello") text_opts in
  parseWsFrames (take 4 fb) = Some (Returned [] (take 4 fb)) /\
  decode_chunks (take 4 fb) (drop 4 fb)
  = Some (Kept [frame_of (PString "hello", text_opts)] []).
Proof.
  apply (truncated_frame_waits (PString "hello") text_opts 4).
  - split; [apply Z.leb_le | apply Z.ltb_lt]; reflexivity.
  - unfold Buffer_ok. apply Z.leb_le. reflexivity.
  - apply Nat.ltb_lt. reflexivity.
Defined.

Lemma frame_bytes_header (p : Payload) (opts : Opts) :
  exists h : Buffer,
    frame_bytes p opts = h ++ payload_data p /\
    blen h = encoded_header_len (blen (payload_data p)) /\
    rd h 0 = byte_val (to_byte (Z.lor 128 (opts_opcode opts))) /\
    Z.land (rd h 1) 128 = 0.
Proof.
  unfold frame_bytes, encoded_header_len.
  pose proof (blen_nonneg (payload_data p)) as Hn.
  destruct (blen (payload_data p) <? 126) eqn:E1;
    [|destruct (blen (payload_data p) <? 65536) eqn:E2].
  - apply Z.ltb_lt in E1. rewrite header_2. eexists. split; [reflexivity|].
    split; [reflexivity|]. split; [reflexivity|].
    change (rd [to_byte (Z.lor 128 (opts_opcode opts)); to_byte (blen (payload_data p))] 1)
      with (byte_val (to_byte (blen (payload_data p)))).
    rewrite byte_val_to_byte_small by lia. apply land_128_small. lia.
  - rewrite header_4. eexists. split; [reflexivity|].
    split; [reflexivity|]. split; reflexivity.
  - rewrite header_10. eexists. split; [reflexivity|].
    split; [reflexivity|]. split; reflexivity.
Qed.

(** X3. An encoded frame is a header of 2, 4 or 10 bytes, by the size
    of the payload, followed by the payload unchanged; its mask bit is
    clear, and for an opcode of four bits its first byte is [0x80 |
    opcode]: FIN set, no reserved bit. *)
Theorem frame_bytes_shape (p : Payload) (opts : Opts) :
  let fb := frame_bytes p opts in
  let n := blen (payload_data p) in
  blen fb = encoded_header_len n + n /\
  subarray_from fb (encoded_header_len n) = payload_data p /\
  Z.land (rd fb 1) 128 = 0 /\
  (0 <= opts_opcode opts < 16 -> rd fb 0 = 128 + opts_opcode opts).
Proof.
  cbv zeta. destruct (frame_bytes_header p opts) as (h & -> & Hh & H0 & H1).
  assert (Hh2 : 2 <= blen h).
  { rewrite Hh. unfold encoded_header_len.
    destruct (_ <? 126); [lia|]. destruct (_ <? 65536); lia. }
  split; [|split; [|split]].
  - rewrite blen_app. lia.
  - rewrite <- Hh. unfold subarray_from, blen. rewrite Nat2Z.id. apply drop_app_length.
  - rewrite rd_app_l by lia. exact H1.
  - intros Hop. rewrite rd_app_l by lia. rewrite H0.
    apply (first_byte _ Hop).
Qed.

Lemma frame_bytes_shape_witness :
  let data := replicate 200 x41 in
  blen (frame_bytes (PBuffer data) binary_opts) = encoded_header_len 200 + 200 /\
  rd (frame_bytes (PBuffer data) binary_opts) 0 = 128 + 2.
Proof.
  destruct (frame_bytes_shape (PBuffer (replicate 200 x41)) binary_opts) as (H1 & _ & _ & H4).
  split; [exact H1|]. apply H4.
  split; [apply Z.leb_le | apply Z.ltb_lt]; reflexivity.
Defined.

Lemma unmask_length (key p : Buffer) : length (unmask key p) = length p.
Proof.
  unfold unmask, alloc, blen. rewrite Nat2Z.id.
  rewrite (fold_wr (fun i => Z.lxor (rd p (Z.of_nat i)) (rd key (Z.of_nat i mod 4))))
    by (rewrite length_replicate; lia).
  rewrite length_app, length_fmap, length_seq, length_drop, length_replicate. lia.
Qed.

Lemma frame_at_weight (b : Buffer) (off : Z) (f : Frame) (e : Z) :
  0 <= off -> frame_at b off f e ->
  0 <= opcode f < 16 /\ off + 2 + blen (payload f) <= e.
Proof.
  intros Hoff (len & hl & Hfin & Hrl & H). cbv zeta in H.
  destruct H as (He & Hle & Hf).
  pose proof (rd_range b (off + 1)) as Hr1. pose proof (rd_range b off) as Hr0.
  destruct (read_length_inv _ _ _ _ _ Hrl (land_127_range _ (proj1 Hr1)))
    as (Hlen & Hhl & _).
  rewrite Hf. cbn [opcode payload]. split.
  - change 15 with (Z.ones 4). rewrite Z.land_ones by lia.
    change (2 ^ 4) with 16. apply Z.mod_pos_bound. lia.
  - assert (Hsub : forall s, 0 <= s -> s + len = e -> blen (subarray b s e) = len).
    { intros s Hs Hse. rewrite blen_subarray; lia. }
    destruct (negb _).
    + unfold blen at 1. rewrite unmask_length. fold (blen (subarray b (off + hl + 4) e)).
      rewrite Hsub; lia.
    + rewrite Hsub; lia.
Qed.

Lemma Parses_weight (b : Buffer) (off : Z) (fr : list Frame) (r : Parsed) :
  Buffer_ok b ->
  Parses b off fr r -> 0 <= off <= blen b ->
  forall frames remaining, r = Returned frames remaining ->
  exists new, frames = fr ++ new /\
    Forall (fun f => 0 <= opcode f < 16) new /\
    off + frames_weight new + blen remaining <= blen b.
Proof.
  intros Hok H.
  induction H as [off fr Hl|off fr Hl Hb|off fr msg Hl Hb|off fr f e r Hl Hb H IH];
    intros Hoff frames remaining Hr.
  - injection Hr as <- <-. exists []. rewrite app_nil_r. split; [reflexivity|].
    split; [constructor|]. rewrite blen_subarray_from by lia. cbn. lia.
  - injection Hr as <- <-. exists []. rewrite app_nil_r. split; [reflexivity|].
    split; [constructor|]. rewrite blen_subarray_from by lia. cbn. lia.
  - discriminate.
  - apply (loop_body_Push _ _ _ _ Hok) in Hb.
    pose proof (frame_at_bounds _ _ _ _ Hb) as Hbd.
    destruct (frame_at_weight b off f e ltac:(lia) Hb) as [Hop Hw].
    destruct (IH ltac:(lia) frames remaining Hr) as (new & Hfr & Hops & Hsum).
    exists (f :: new). split; [rewrite Hfr, <- app_assoc; reflexivity|].
    split; [constructor; assumption|].
    cbn [frames_weight fold_right]. fold (frames_weight new). lia.
Qed.

(** X4. The frames the decoder returns have an opcode of four bits, and
    their payloads, with two header bytes each, and the remainder
    together are no longer than the input: no byte is counted twice and
    none is made up. *)
Theorem decoded_frames_bounded (b : Buffer) (frames : list Frame) (remaining : Buffer) :
  Buffer_ok b ->
  parseWsFrames b = Some (Returned frames remaining) ->
  Forall (fun f => 0 <= opcode f < 16) frames /\
  frames_weight frames + blen remaining <= blen b.
Proof.
  intros Hok H. apply (parseWsFrames_Parses _ _ Hok) in H.
  pose proof (blen_nonneg b) as Hb.
  destruct (Parses_weight b 0 [] _ Hok H ltac:(lia) frames remaining eq_refl)
    as (new & -> & Hops & Hsum).
  cbn [app]. split; [assumption|lia].
Qed.

Lemma decoded_frames_bounded_witness :
  Forall (fun f => 0 <= opcode f < 16)
    [{| opcode := 1; payload := list_byte_of_string "hi" |}] /\
  frames_weight [{| opcode := 1; payload := list_byte_of_string "hi" |}] + blen [x81]
  <= blen (masked_text ++ [x81]).
Proof.
  apply (decoded_frames_bounded (masked_text ++ [x81])).
  - unfold Buffer_ok. apply Z.leb_le. reflexivity.
  - reflexivity.
Defined.

Lemma Frames_parse (c : Buffer) (frames : list Frame) :
  Buffer_ok c -> Frames c frames -> parseWsFrames c = Some (Returned frames []).
Proof.
  intros Hok H. induction H as [|b f rest frames Hn H IH]; [reflexivity|].
  destruct (parse_Complete _ _ _ Hok Hn) as [Hok' ->].
  now rewrite (IH Hok').
Qed.

(** X5. The decoder throws for one reason only, and always for that
    reason: it throws exactly when the buffer is a run of complete
    frames followed by a base header whose FIN bit is clear, and its
    message is then the one about fragmented frames. *)
Theorem decode_throws_only_on_fragment (b : Buffer) (msg : string) :
  Buffer_ok b ->
  parseWsFrames b = Some (Thrown msg) <->
  msg = fragmented_msg /\
  exists (pre : Buffer) (frames : list Frame) (b0 b1 : byte) (rest : Buffer),
    b = pre ++ b0 :: b1 :: rest /\
    parseWsFrames pre = Some (Returned frames []) /\
    Z.land (byte_val b0) 128 = 0.
Proof.
  intros Hok. split.
  - intros H. apply (parseWsFrames_Decodes _ _ Hok) in H.
    destruct (Decodes_Thrown_inv _ _ H msg eq_refl)
      as (-> & consumed & frames & rest & -> & Hfr & Hfrag).
    split; [reflexivity|].
    destruct rest as [|b0 [|b1 rest]]; try discriminate.
    exists consumed, frames, b0, b1, rest. split; [reflexivity|].
    split; [apply Frames_parse; [eapply Buffer_ok_app_l; eassumption | assumption]|].
    unfold spec_next in Hfrag. apply Z.eqb_eq. rewrite land_128_testbit.
    destruct (Z.testbit (byte_val b0) 7); [cbn [negb] in Hfrag|reflexivity].
    destruct (_ <? _)%nat; [discriminate|]. destruct (_ <? _); discriminate.
  - intros (-> & pre & frames & b0 & b1 & rest & -> & Hpre & Hfin).
    now apply (parse_fragment pre rest frames).
Qed.

Lemma decode_throws_only_on_fragment_witness :
  parseWsFrames [x89; x00; x01; x00] = Some (Thrown fragmented_msg) /\
  exists (pre : Buffer) (frames : list Frame) (b0 b1 : byte) (rest : Buffer),
    [x89; x00; x01; x00] = pre ++ b0 :: b1 :: rest /\
    parseWsFrames pre = Some (Returned frames []) /\
    Z.land (byte_val b0) 128 = 0.
Proof.
  split; [reflexivity|].
  apply (decode_throws_only_on_fragment [x89; x00; x01; x00] fragmented_msg).
  - unfold Buffer_ok. apply Z.leb_le. reflexivity.
  - reflexivity.
Defined.

(** X6. With a key of four bytes the unmasking loop is its own inverse
    and keeps the length: what a client has masked comes out as it was. *)
Theorem unmask_involutive (key p : Buffer) :
  length key = 4%nat ->
  unmask key (unmask key p) = p /\ length (unmask key p) = length p.
Proof.
  intros Hk. split; [|apply unmask_length].
  rewrite !unmask_xor_mask by assumption. apply xor_mask_involutive.
Qed.

Lemma unmask_involutive_witness :
  unmask [x01; x02; x03; x04] (unmask [x01; x02; x03; x04] (list_byte_of_string "hello"))
  = list_byte_of_string "hello" /\
  length (unmask [x01; x02; x03; x04] (list_byte_of_string "hello"))
  = length (list_byte_of_string "hello").
Proof.
  apply (unmask_involutive [x01; x02; x03; x04] (list_byte_of_string "hello")).
  reflexivity.
Defined.

(** * Further properties of the handlers *)

Lemma add_events_nil (s : Session) : add_events s [] = s.
Proof. destruct s. unfold add_events. cbn. now rewrite app_nil_r. Qed.

Lemma add_event_events (s : Session) (ev : Event) (evs : list Event) :
  add_events (add_event s ev) evs = add_events s (ev :: evs).
Proof.
  unfold add_events, add_event. cbn. now rewrite <- app_assoc.
Qed.

Lemma add_events_app (s : Session) (a b : list Event) :
  add_events (add_events s a) b = add_events s (a ++ b).
Proof.
  unfold add_events. cbn. now rewrite <- app_assoc.
Qed.

Section HandlerFacts.

Variable close_throws : ReadyState -> bool.
Variable end_throws : bool -> bool.

Lemma handle_frames_step (f : Frame) (rest : list Frame) (s : Session) :
  upstream s = Some OPEN -> opcode f <> 8 -> sendable f ->
  handle_frames close_throws end_throws (f :: rest) s
  = handle_frames close_throws end_throws rest (add_events s (frame_events f)).
Proof.
  intros Hopen Hne Hsend. rewrite handle_frames_open by assumption.
  unfold frame_events.
  destruct (Z.eqb_spec (opcode f) 8) as [?|_]; [contradiction|].
  destruct (Z.eqb_spec (opcode f) 9) as [E9|N9].
  { now rewrite <- add_event_events, add_events_nil. }
  destruct (Z.eqb_spec (opcode f) 10) as [E10|N10].
  { destruct (Z.eqb_spec (opcode f) 1); [lia|]. destruct (Z.eqb_spec (opcode f) 2); [lia|].
    now rewrite add_events_nil. }
  destruct (Z.eqb_spec (opcode f) 1) as [E1|N1]; cbn [negb andb].
  { specialize (Hsend E1).
    replace (MAX_STRING_LENGTH <? utf16_length (payload f)) with false
      by (symmetry; now apply Z.ltb_ge).
    now rewrite <- add_event_events, add_events_nil. }
  destruct (Z.eqb_spec (opcode f) 2) as [E2|N2]; cbn [negb].
  { now rewrite <- add_event_events, add_events_nil. }
  now rewrite add_events_nil.
Qed.

(** A text frame whose string the platform cannot make: the exception
    of [toString] escapes the loop. *)
Lemma handle_frames_too_long (f : Frame) (rest : list Frame) (s : Session) :
  upstream s = Some OPEN -> opcode f = 1 ->
  MAX_STRING_LENGTH < utf16_length (payload f) ->
  handle_frames close_throws end_throws (f :: rest) s = (Exn string_too_long_msg, s).
Proof.
  intros Hopen E1 Hlong. rewrite handle_frames_open by assumption.
  rewrite E1. cbn [Z.eqb Pos.eqb negb andb].
  replace (MAX_STRING_LENGTH <? utf16_length (payload f)) with true
    by (symmetry; now apply Z.ltb_lt).
  reflexivity.
Qed.

Lemma handle_frames_no_close (frames : list Frame) (s : Session) :
  upstream s = Some OPEN ->
  Forall (fun f => opcode f <> 8) frames ->
  Forall sendable frames ->
  handle_frames close_throws end_throws frames s
  = (Val tt, add_events s (flat_map frame_events frames)).
Proof.
  revert s. induction frames as [|f rest IH]; intros s Hopen Hno Hsend.
  - cbn. now rewrite add_events_nil.
  - inversion Hno as [|f' l' Hf Hrest]; subst.
    inversion Hsend as [|f' l' Hs Hsrest]; subst.
    rewrite handle_frames_step by assumption.
    rewrite IH by assumption. cbn [flat_map]. now rewrite add_events_app.
Qed.

(** X7. While the upstream connection is open, a batch of decoded
    frames without a close frame, whose text frames are not too long for
    a string, is handled in the order decoded: each ping is answered by
    a pong to the client, each text frame is sent upstream as the string
    [toString("utf8")] makes of its payload (bytes that are not
    well-formed UTF-8 replaced by U+FFFD), each binary frame is sent
    upstream as it is, everything else is ignored, and the handler
    returns. *)
Theorem frames_handled_in_order (frames : list Frame) (s : Session) :
  upstream s = Some OPEN ->
  Forall (fun f => opcode f <> 8) frames ->
  Forall sendable frames ->
  handle_frames close_throws end_throws frames s
  = (Val tt, add_events s (flat_map frame_events frames)).
Proof.
  intros Hopen Hno Hsend. now apply handle_frames_no_close.
Qed.

(** X8. A close frame ends the batch: the frames decoded before it are
    handled, [closeBoth] runs, and the frames that follow it in the same
    read are never handled. *)
Theorem close_frame_ends_batch (before after : list Frame) (close : Frame) (s : Session) :
  upstream s = Some OPEN ->
  Forall (fun f => opcode f <> 8) before ->
  Forall sendable before ->
  opcode close = 8 ->
  handle_frames close_throws end_throws (before ++ close :: after) s
  = (Val tt,
     after_closeBoth close_throws end_throws
       (add_events s (flat_map frame_events before))).
Proof.
  revert s. induction before as [|f rest IH]; intros s Hopen Hno Hsend Hclose.
  - cbn [app flat_map]. rewrite add_events_nil.
    rewrite handle_frames_open by assumption. rewrite Hclose. cbn [Z.eqb Pos.eqb].
    apply closeBoth_eq.
  - inversion Hno as [|f' l' Hf Hrest]; subst. cbn [app].
    inversion Hsend as [|f' l' Hs Hsrest]; subst.
    rewrite handle_frames_step by assumption.
    rewrite IH by assumption. cbn [flat_map]. now rewrite add_events_app.
Qed.

Lemma handle_frames_all_dropped (frames : list Frame) (s : Session) :
  upstream s <> Some OPEN ->
  handle_frames close_throws end_throws frames s = (Val tt, s).
Proof.
  intros H. induction frames as [|f rest IH]; [reflexivity|].
  now rewrite handle_frames_not_open.
Qed.

(** X9. While the upstream connection is not open (still connecting,
    closing or closed), everything the client sends in well-formed frames
    is dropped, whatever the opcodes: the handler only replaces the
    receive buffer by the undecoded remainder.  (Bytes beyond what a
    buffer can hold make [Buffer.concat] throw, and then nothing changes
    at all.) *)
Theorem data_dropped_unless_open (chunk : Buffer) (s : Session) (frames : list Frame)
    (remaining : Buffer) :
  upstream s <> Some OPEN ->
  parseWsFrames (buf s ++ chunk) = Some (Returned frames remaining) ->
  on_data close_throws end_throws chunk s
  = if MAX_LENGTH <? blen (buf s ++ chunk) then (Exn out_of_range_msg, s)
    else (Val tt,
          {| buf := remaining; upstream := upstream s;
             socket_ended := socket_ended s; trace := trace s |}).
Proof.
  intros Hopen Hp.
  destruct (Z.ltb_spec MAX_LENGTH (blen (buf s ++ chunk))) as [Hlong|Hok].
  - apply on_data_too_long. unfold Buffer_ok. lia.
  - rewrite (on_data_Returned _ _ _ _ _ _ Hok Hp).
    now apply handle_frames_all_dropped.
Qed.

Lemma string_units_cons (c : Buffer) (l : list Buffer) :
  string_units (c :: l) = utf16_units c + string_units l.
Proof. reflexivity. Qed.

Lemma string_units_app (a b : list Buffer) :
  string_units (a ++ b) = string_units a + string_units b.
Proof.
  induction a as [|c a IH]; [reflexivity|].
  cbn [app]. rewrite !string_units_cons, IH. lia.
Qed.

Lemma utf16_units_range (c : Buffer) : 1 <= utf16_units c <= 2.
Proof. unfold utf16_units. destruct (_ =? _)%nat; lia. Qed.

(** A byte read while no sequence is open gives one character or opens
    a sequence. *)
Lemma utf8_lead_units (x : byte) :
  string_units (utf8_lead x).1
  + (match (utf8_lead x).2 with NoPending => 0 | Pend _ _ _ _ => 1 end) = 1.
Proof.
  unfold utf8_lead.
  repeat match goal with
         | |- context [if ?c then _ else _] =>
             match type of c with bool => destruct c end
         end; reflexivity.
Qed.

Lemma utf8_chars_units (l : Buffer) (st : Pending) :
  string_units (utf8_chars st l)
  <= blen l + (match st with NoPending => 0 | Pend _ _ _ _ => 1 end).
Proof.
  revert st. induction l as [|x l IH]; intros st.
  - destruct st; cbn; unfold blen; cbn; lia.
  - cbn [utf8_chars]. rewrite blen_cons.
    destruct (utf8_step st x) as [out st'] eqn:E.
    rewrite string_units_app. specialize (IH st').
    assert (Hstep : string_units out
                    + (match st' with NoPending => 0 | Pend _ _ _ _ => 1 end)
                    <= 1 + (match st with NoPending => 0 | Pend _ _ _ _ => 1 end)).
    { destruct st as [|seen need lo hi]; cbn [utf8_step] in E.
      - pose proof (utf8_lead_units x) as H. rewrite E in H. cbn [fst snd] in H. lia.
      - destruct (_ && _).
        + destruct need as [|[|n]]; injection E as <- <-;
            rewrite ?string_units_cons;
            try pose proof (utf16_units_range (seen ++ [x])); cbn; lia.
        + destruct (utf8_lead x) as [o s'] eqn:El. injection E as <- <-.
          pose proof (utf8_lead_units x) as H. rewrite El in H. cbn [fst snd] in H.
          rewrite string_units_cons.
          change (utf16_units replacement) with 1. lia. }
    lia.
Qed.

(** The string is no longer, in code units, than the buffer in bytes. *)
Lemma utf16_length_le (b : Buffer) : utf16_length b <= blen b.
Proof.
  pose proof (utf8_chars_units b NoPending) as H. cbn beta iota in H.
  unfold utf16_length. lia.
Qed.

Lemma payload_weight (frames : list Frame) :
  Forall (fun f => blen (payload f) <= frames_weight frames) frames.
Proof.
  induction frames as [|f rest IH]; [constructor|].
  assert (Hw : 0 <= frames_weight rest).
  { clear IH. induction rest as [|g rest IH]; [reflexivity|].
    cbn [frames_weight fold_right]. fold (frames_weight rest).
    pose proof (blen_nonneg (payload g)). lia. }
  pose proof (blen_nonneg (payload f)) as Hf.
  assert (E : frames_weight (f :: rest) = 2 + blen (payload f) + frames_weight rest)
    by reflexivity.
  apply Forall_cons_2; [cbn beta; lia|].
  eapply Forall_impl; [exact IH|]. cbn beta. intros g Hg. lia.
Qed.

(** The frames decoded from a buffer that is no longer than a string
    can be are all sendable. *)
Lemma decoded_sendable (b : Buffer) (frames : list Frame) (remaining : Buffer) :
  blen b <= MAX_STRING_LENGTH ->
  parseWsFrames b = Some (Returned frames remaining) ->
  Forall sendable frames.
Proof.
  intros Hshort H.
  assert (Hok : Buffer_ok b) by (unfold Buffer_ok, MAX_LENGTH, MAX_STRING_LENGTH in *; lia).
  apply (parseWsFrames_Parses _ _ Hok) in H.
  pose proof (blen_nonneg b) as Hb. pose proof (blen_nonneg remaining) as Hr.
  destruct (Parses_weight b 0 [] _ Hok H ltac:(lia) frames remaining eq_refl)
    as (new & -> & _ & Hsum).
  cbn [app]. eapply Forall_impl; [apply payload_weight|].
  cbn beta. intros f Hf _. pose proof (utf16_length_le (payload f)). lia.
Qed.

(** The loop over the frames returns or throws the exception of
    [toString]; it only adds events. *)
Lemma handle_frames_result (frames : list Frame) (s : Session) :
  exists r s' evs,
    handle_frames close_throws end_throws frames s = (r, s') /\
    trace s' = trace s ++ evs /\
    (r = Val tt \/ r = Exn string_too_long_msg) /\
    (Forall sendable frames -> r = Val tt).
Proof.
  revert s. induction frames as [|f rest IH]; intros s.
  - exists (Val tt), s, []. split; [reflexivity|]. rewrite app_nil_r. auto.
  - destruct (decide (upstream s = Some OPEN)) as [Hopen|Hopen].
    2:{ rewrite handle_frames_not_open by assumption.
        destruct (IH s) as (r & s' & evs & E & Htr & Hr & Hs).
        exists r, s', evs. repeat split; try assumption.
        intros Hall. apply Hs. now inversion Hall. }
    destruct (Z.eq_dec (opcode f) 8) as [E|E].
    { rewrite handle_frames_open by assumption. rewrite E. cbn [Z.eqb Pos.eqb].
      rewrite closeBoth_eq. eexists _, _, _. split; [reflexivity|].
      split; [reflexivity|]. auto. }
    destruct (Z.eq_dec (opcode f) 1) as [E1|E1].
    + destruct (Z.lt_ge_cases MAX_STRING_LENGTH (utf16_length (payload f))) as [Hlong|Hfit].
      * rewrite handle_frames_too_long by assumption.
        exists (Exn string_too_long_msg), s, []. split; [reflexivity|].
        rewrite app_nil_r. split; [reflexivity|]. split; [auto|].
        intros Hall. inversion Hall as [|f' l' Hs _]; subst.
        specialize (Hs E1). lia.
      * rewrite handle_frames_step by (try assumption; intros _; lia).
        destruct (IH (add_events s (frame_events f))) as (r & s' & evs & -> & Htr & Hr & Hs).
        eexists _, _, _. split; [reflexivity|]. rewrite Htr. cbn [add_events trace].
        rewrite <- app_assoc. split; [reflexivity|]. split; [assumption|].
        intros Hall. apply Hs. now inversion Hall.
    + rewrite handle_frames_step by (try assumption; intros ?; contradiction).
      destruct (IH (add_events s (frame_events f))) as (r & s' & evs & -> & Htr & Hr & Hs).
      eexists _, _, _. split; [reflexivity|]. rewrite Htr. cbn [add_events trace].
      rewrite <- app_assoc. split; [reflexivity|]. split; [assumption|].
      intros Hall. apply Hs. now inversion Hall.
Qed.

(** X10. The exceptions the [data] handler lets escape are those of the
    two calls it makes outside a [try]: [Buffer.concat], which throws
    exactly when the receive buffer with the chunk would be longer than
    a buffer can be, and [toString("utf8")] on a text frame too long
    for a string.  The exception of the decoder and those of
    [upstream.close()] and [socket.end()] never escape
    ([socket.write], and [upstream.send] on an open connection, return
    normally; running out of memory is left apart).  So the handler
    returns whenever the receive buffer with the chunk is no longer than
    a string can be; and in every case it only adds events to those of
    the session. *)
Theorem on_data_exceptions (chunk : Buffer) (s : Session) :
  exists r s' evs,
    on_data close_throws end_throws chunk s = (r, s') /\
    trace s' = trace s ++ evs /\
    (r = Val tt \/ r = Exn out_of_range_msg \/ r = Exn string_too_long_msg) /\
    (r = Exn out_of_range_msg <-> ~ Buffer_ok (buf s ++ chunk)) /\
    (blen (buf s ++ chunk) <= MAX_STRING_LENGTH -> r = Val tt).
Proof.
  destruct (Z.le_gt_cases (blen (buf s ++ chunk)) MAX_LENGTH) as [Hok|Hlong].
  2:{ assert (Hnok : ~ Buffer_ok (buf s ++ chunk)) by (unfold Buffer_ok; lia).
      rewrite (on_data_too_long _ _ _ _ Hnok).
      exists (Exn out_of_range_msg), s, []. split; [reflexivity|].
      rewrite app_nil_r. split; [reflexivity|]. split; [auto|].
      split; [tauto|]. unfold MAX_STRING_LENGTH, MAX_LENGTH in *. lia. }
  fold (Buffer_ok (buf s ++ chunk)) in Hok.
  destruct (parseWsFrames_total _ Hok) as [[frames remaining|msg] Hp].
  - rewrite (on_data_Returned _ _ _ _ _ _ Hok Hp).
    destruct (handle_frames_result frames
                {| buf := remaining; upstream := upstream s;
                   socket_ended := socket_ended s; trace := trace s |})
      as (r & s' & evs & -> & Htr & Hr & Hs).
    exists r, s', evs. split; [reflexivity|]. split; [exact Htr|].
    split; [tauto|]. split.
    + split; [|contradiction]. intros ->. destruct Hr as [Hr|Hr]; discriminate.
    + intros Hshort. apply Hs. exact (decoded_sendable _ _ _ Hshort Hp).
  - rewrite (on_data_Thrown _ _ _ _ _ Hok Hp). eexists _, _, _. split; [reflexivity|].
    split.
    { unfold after_closeBoth, add_event. cbn [trace]. rewrite <- !app_assoc. reflexivity. }
    split; [auto|]. split; [|reflexivity].
    split; [discriminate|contradiction].
Qed.

(** An upstream failure as the platform reports it: the error event,
    then the close event, then the close of the client socket. *)
Lemma upstream_failure_eq (s : Session) :
  (on_upstream_error close_throws end_throws ;;
   on_upstream_close close_throws end_throws ;;
   on_socket_close close_throws end_throws) s
  = (Val tt,
     after_closeBoth close_throws end_throws
       (after_closeBoth close_throws end_throws
          (let s1 :=
             after_closeBoth close_throws end_throws
               (add_event s (SocketWrite (error_frame "Upstream websocket error."))) in
           {| buf := buf s1; upstream := Some CLOSED;
              socket_ended := socket_ended s1; trace := trace s1 |}))).
Proof.
  unfold on_upstream_error, on_upstream_close, on_socket_close.
  cbv [mbind M_bind]. rewrite sendJson_eq, closeBoth_eq.
  cbv [set_upstream]. rewrite closeBoth_eq, closeBoth_eq. reflexivity.
Qed.

(** X11. An upstream failure, reported by the error event and then the
    close event and followed by the close of the client socket, sends the
    client exactly one message, the structured error; no handler throws,
    and the session ends Closed. *)
Theorem upstream_failure_one_error (s : Session) :
  exists s',
    (on_upstream_error close_throws end_throws ;;
     on_upstream_close close_throws end_throws ;;
     on_socket_close close_throws end_throws) s = (Val tt, s') /\
    written (trace s') = written (trace s) ++ [error_frame "Upstream websocket error."] /\
    is_error_message (SocketWrite (error_frame "Upstream websocket error.")) = true /\
    lifecycle s' = Closed.
Proof.
  eexists. split; [apply upstream_failure_eq|]. split; [|split].
  - unfold after_closeBoth, add_event, written. cbn [trace upstream fmap option_fmap option_map].
    rewrite !omap_app. cbn [omap list_omap].
    destruct (upstream s); cbn [omap list_omap fmap option_fmap option_map];
      rewrite ?app_nil_r; reflexivity.
  - vm_compute. reflexivity.
  - unfold lifecycle, after_closeBoth, closing. cbn [socket_ended upstream fmap option_fmap option_map].
    repeat match goal with |- context [if ?c then _ else _] => destruct c end; reflexivity.
Qed.

End HandlerFacts.

Lemma relay_run_eq (l : list Happening) (pending : list Job) (s : Session) :
  relay_run l pending s
  = (Val (relay_pending l pending),
     add_events s
       ((fun po => SocketWrite (frame_bytes po.1 po.2)) <$> relay_frames l pending)).
Proof.
  revert pending s. induction l as [|h rest IH]; intros pending s.
  - cbn. now rewrite add_events_nil.
  - destruct h as [data|n]; cbn [relay_run relay_frames relay_pending].
    + cbv [mbind M_bind].
      destruct data as [str|ab|settles|];
        cbv [on_upstream_message mbind M_bind sendWsFrame socket_write log mret M_ret];
        rewrite IH; cbn [relayed deferred app fmap list_fmap fst snd];
        rewrite ?add_event_events; reflexivity.
    + destruct (pending !! n) as [[[ab|]]|]; [| |apply IH].
      * cbv [mbind M_bind run_job try_catch sendWsFrame socket_write log].
        rewrite IH. cbn [job_frames app fmap list_fmap fst snd].
        now rewrite add_event_events.
      * cbv [mbind M_bind run_job mret M_ret]. rewrite IH. reflexivity.
Qed.

Lemma relay_frames_opcodes (l : list Happening) (pending : list Job) :
  Forall (fun po : Payload * Opts => 0 <= opts_opcode po.2 < 16) (relay_frames l pending).
Proof.
  revert pending. induction l as [|h rest IH]; intros pending; [apply Forall_nil_2|].
  destruct h as [data|n]; cbn [relay_frames].
  - apply Forall_app. split; [|apply IH].
    destruct data; cbn [relayed];
      repeat (apply Forall_cons_2; [split; [apply Z.leb_le | apply Z.ltb_lt]; reflexivity|]);
      apply Forall_nil_2.
  - destruct (pending !! n) as [[[ab|]]|]; [| |apply IH]; cbn [job_frames app].
    + apply Forall_cons_2; [split; [apply Z.leb_le | apply Z.ltb_lt]; reflexivity|apply IH].
    + apply IH.
Qed.

Lemma relay_frames_arrivals (msgs : list MessageData) (pending : list Job) :
  Forall (fun data => deferred data = []) msgs ->
  relay_frames (Arrives <$> msgs) pending = flat_map relayed msgs.
Proof.
  intros H. revert pending. induction H as [|data msgs Hd H IH]; intros pending.
  - reflexivity.
  - cbn [fmap list_fmap relay_frames flat_map]. rewrite Hd, app_nil_r. now rewrite IH.
Qed.

(** X12. What the relay writes to the client over any sequence of
    upstream messages and settled promises: a string is written as one
    text frame and an [ArrayBuffer] as one binary frame when the message
    arrives; a Blob is written as one binary frame when its promise is
    fulfilled, and not at all when it is rejected; no handler throws.
    What the client decodes from the bytes written is exactly these
    frames, in the order written.  Without Blobs that is the order of
    arrival; the frame of a Blob comes after the frames of the messages
    that arrived before its promise settled. *)
Theorem upstream_messages_relayed (l : list Happening) (s : Session) :
  let frames := relay_frames l [] in
  relay_run l [] s
  = (Val (relay_pending l []),
     add_events s ((fun po => SocketWrite (frame_bytes po.1 po.2)) <$> frames)) /\
  (Buffer_ok (encode_all frames) ->
   parseWsFrames (encode_all frames) = Some (Returned (frame_of <$> frames) [])) /\
  (forall msgs : list MessageData,
     Forall (fun data => deferred data = []) msgs ->
     relay_frames (Arrives <$> msgs) [] = flat_map relayed msgs) /\
  (forall (ab : Buffer) (text : string),
     relay_frames [Arrives (DBlob (Some ab)); Arrives (DString text); Settles 0] []
     = [(PString text, text_opts); (PBuffer ab, binary_opts)]).
Proof.
  cbv zeta. split; [apply relay_run_eq|]. split; [|split].
  - intros Hok. apply encode_all_parse; [apply relay_frames_opcodes | assumption].
  - intros msgs. apply relay_frames_arrivals.
  - reflexivity.
Qed.

Lemma upstream_messages_relayed_witness :
  let l := [Arrives (DString "a"); Arrives (DBlob (Some [x01; x02]));
            Arrives (DString "b"); Settles 0] in
  parseWsFrames (encode_all (relay_frames l []))
  = Some (Returned [{| opcode := 1; payload := list_byte_of_string "a" |};
                    {| opcode := 1; payload := list_byte_of_string "b" |};
                    {| opcode := 2; payload := [x01; x02] |}] []).
Proof.
  apply (upstream_messages_relayed
           [Arrives (DString "a"); Arrives (DBlob (Some [x01; x02]));
            Arrives (DString "b"); Settles 0] new_session).
  unfold Buffer_ok. apply Z.leb_le. reflexivity.
Defined.

(** * The accept token of the handshake *)

Lemma sextet_alphabet (v : Z) : Crypto.sextet v ∈ Crypto.alphabet.
Proof.
  unfold Crypto.sextet. apply nth_elem_of.
  change (length Crypto.alphabet) with 64%nat.
  pose proof (Z.mod_pos_bound v 64). lia.
Qed.

Lemma sha1_length (msg : Buffer) : length (Crypto.sha1 msg) = 20%nat.
Proof.
  unfold Crypto.sha1. cbv zeta.
  generalize (fold_left Crypto.compress
                (Crypto.chunks (length (Crypto.pad (byte_val <$> msg))) 64
                   (Crypto.pad (byte_val <$> msg)))
                (1732584193, 4023233417, 2562383102, 271733878, 3285377520)).
  intros [[[[h0 h1] h2] h3] h4]. reflexivity.
Qed.

Lemma base64_chars_20 (l : list Z) :
  length l = 20%nat ->
  Crypto.base64_chars l = take 27 (Crypto.base64_chars l) ++ ["="%char] /\
  length (take 27 (Crypto.base64_chars l)) = 27%nat /\
  Forall (fun c => c ∈ Crypto.alphabet) (take 27 (Crypto.base64_chars l)).
Proof.
  intros H.
  do 20 (destruct l as [|? l]; [discriminate H|]). destruct l; [|discriminate H].
  cbn [Crypto.base64_chars take app length].
  split; [reflexivity|]. split; [reflexivity|].
  repeat (apply Forall_cons_2; [apply sextet_alphabet|]). apply Forall_nil_2.
Qed.

Lemma string_of_list_ascii_app (a b : list ascii) :
  string_of_list_ascii (a ++ b) = string_of_list_ascii a +:+ string_of_list_ascii b.
Proof.
  induction a as [|c a IH]; [reflexivity|].
  cbn [app string_of_list_ascii]. rewrite IH. reflexivity.
Qed.

Lemma string_app_assoc (a b c : string) : (a +:+ b) +:+ c = a +:+ (b +:+ c).
Proof.
  induction a as [|x a IH]; [reflexivity|].
  change ((String x a +:+ b) +:+ c) with (String x ((a +:+ b) +:+ c)).
  change (String x a +:+ (b +:+ c)) with (String x (a +:+ (b +:+ c))).
  now rewrite IH.
Qed.

(** X13. Whatever string the client sends as its key, the accept token
    of the 101 response is 28 characters long: 27 characters of the
    base64 alphabet followed by one "=".  So the response is always the
    status line, the three header lines and one empty line: no byte of
    the key reaches it as it is, a line break in particular. *)
Theorem accept_token_shape (key : string) :
  let accept := sha1_base64 (key +:+ websocket_guid) in
  String.length accept = 28%nat /\
  exists body,
    length body = 27%nat /\
    Forall (fun c => c ∈ Crypto.alphabet) body /\
    accept = string_of_list_ascii body +:+ "=" /\
    switching_protocols accept
    = "HTTP/1.1 101 Switching Protocols" +:+ CRLF
      +:+ "Upgrade: websocket" +:+ CRLF
      +:+ "Connection: Upgrade" +:+ CRLF
      +:+ "Sec-WebSocket-Accept: " +:+ string_of_list_ascii body +:+ "=" +:+ CRLF
      +:+ CRLF.
Proof.
  cbv zeta. unfold sha1_base64, Crypto.base64.
  set (digest := byte_val <$> Crypto.sha1 (list_byte_of_string (key +:+ websocket_guid))).
  assert (Hlen : length digest = 20%nat).
  { unfold digest. rewrite length_fmap. apply sha1_length. }
  destruct (base64_chars_20 digest Hlen) as (Heq & Hl & Hall).
  rewrite Heq. clear Heq.
  generalize dependent (take 27 (Crypto.base64_chars digest)). intros body Hl Hall.
  clear digest Hlen. rewrite string_of_list_ascii_app.
  change (string_of_list_ascii ["="%char]) with "=".
  split.
  - do 27 (destruct body as [|? body]; [discriminate Hl|]).
    destruct body; [reflexivity|discriminate Hl].
  - exists body. split; [assumption|]. split; [assumption|]. split; [reflexivity|].
    generalize (string_of_list_ascii body). intros token.
    unfold switching_protocols. cbn [join].
    rewrite !string_app_assoc. reflexivity.
Qed.

(** * Further properties of the upgrade handler *)

Lemma list_ascii_of_string_app (a b : string) :
  list_ascii_of_string (a +:+ b) = list_ascii_of_string a ++ list_ascii_of_string b.
Proof.
  induction a as [|c a IH]; [reflexivity|].
  change (String c a +:+ b) with (String c (a +:+ b)).
  cbn [list_ascii_of_string]. rewrite IH. reflexivity.
Qed.

Lemma error_obj_json (msg : string) :
  JSON_stringify (error_obj msg)
  = error_prefix +:+ dquote +:+ "error" +:+ dquote +:+ ":" +:+ json_quote msg +:+ "}".
Proof. reflexivity. Qed.

Lemma prefix_app (a b : string) : String.prefix a (a +:+ b) = true.
Proof.
  induction a as [|c a IH]; [destruct b; reflexivity|].
  change (String c a +:+ b) with (String c (a +:+ b)). cbn [String.prefix].
  destruct (ascii_dec c c); [exact IH|contradiction].
Qed.

Lemma error_frame_parse (msg : string) :
  Buffer_ok (error_frame msg) ->
  parseWsFrames (error_frame msg)
  = Some (Returned
            [{| opcode := 1;
                payload :=
                  list_byte_of_string
                    (error_prefix +:+ dquote +:+ "error" +:+ dquote +:+ ":"
                     +:+ json_quote msg +:+ "}") |}] []) /\
  is_error_message (SocketWrite (error_frame msg)) = true.
Proof.
  intros Hok.
  assert (Hp : parseWsFrames (error_frame msg)
               = Some (Returned
                         [{| opcode := 1;
                             payload := list_byte_of_string (JSON_stringify (error_obj msg)) |}]
                         [])).
  { apply (parse_frame_bytes (PString (JSON_stringify (error_obj msg))) text_opts);
      [|exact Hok]. split; [apply Z.leb_le | apply Z.ltb_lt]; reflexivity. }
  split.
  - rewrite Hp, error_obj_json. reflexivity.
  - unfold is_error_message. rewrite Hp. unfold frame_is_error. cbn [opcode payload].
    rewrite string_of_list_byte_of_string, error_obj_json.
    rewrite prefix_app. reflexivity.
Qed.

(** X14. Every structured error the relay sends, whatever its message
    (quotes and control characters included), is one text frame whose
    payload is a JSON object that opens with the type "error" and holds
    the message quoted by [JSON.stringify]. *)
Theorem error_frame_well_formed (msg : string) :
  Buffer_ok (error_frame msg) ->
  parseWsFrames (error_frame msg)
  = Some (Returned
            [{| opcode := 1;
                payload :=
                  list_byte_of_string
                    (error_prefix +:+ dquote +:+ "error" +:+ dquote +:+ ":"
                     +:+ json_quote msg +:+ "}") |}] []) /\
  is_error_message (SocketWrite (error_frame msg)) = true.
Proof.
  intros Hok. now apply error_frame_parse.
Qed.

Lemma error_frame_well_formed_witness :
  is_error_message
    (SocketWrite (error_frame ("Failed to connect upstream: bad " +:+ dquote +:+ "url" +:+ dquote)))
  = true.
Proof.
  apply (error_frame_well_formed
           ("Failed to connect upstream: bad " +:+ dquote +:+ "url" +:+ dquote)).
  unfold Buffer_ok. apply Z.leb_le. reflexivity.
Defined.

Lemma set_property_lookup (headers : gmap string string) (k0 v k : string) :
  k <> "__proto__" ->
  set_property headers k0 v !! k = if decide (k = k0) then Some v else headers !! k.
Proof.
  intros Hk. unfold set_property.
  destruct (String.eqb_spec k0 "__proto__") as [->|Hne].
  - destruct (decide (k = "__proto__")); [contradiction|reflexivity].
  - destruct (decide (k = k0)) as [->|Hkk].
    + apply lookup_insert_eq.
    + apply lookup_insert_ne. congruence.
Qed.

Lemma extra_headers_fold_lookup (entries : list (string * option string))
    (acc : gmap string string) (k : string) :
  NoDup entries.*1 ->
  k <> "__proto__" ->
  (fold_left
     (fun (headers : gmap string string) (kv : string * option string) =>
        match kv.2 with
        | Some v => set_property headers kv.1 v
        | None => headers
        end)
     entries acc) !! k
  = match (list_to_map entries : gmap string (option string)) !! k with
    | Some (Some v) => Some v
    | _ => acc !! k
    end.
Proof.
  intros Hnd Hk. revert acc Hnd. induction entries as [|[k0 o] rest IH]; intros acc Hnd.
  - reflexivity.
  - cbn [fmap list_fmap fst] in Hnd. apply NoDup_cons in Hnd. destruct Hnd as [Hk0 Hnd].
    cbn [fold_left fst snd list_to_map foldr uncurry]. rewrite (IH _ Hnd).
    destruct (decide (k = k0)) as [->|Hne].
    + rewrite lookup_insert_eq.
      rewrite (proj1 (not_elem_of_list_to_map (M := gmap string) rest k0) Hk0).
      destruct o as [v|]; [|reflexivity].
      rewrite set_property_lookup by assumption.
      destruct (decide (k0 = k0)); [reflexivity|contradiction].
    + rewrite lookup_insert_ne by congruence.
      destruct (list_to_map rest !! k) as [[v|]|]; [reflexivity| |];
        destruct o as [v0|]; try reflexivity;
        rewrite set_property_lookup by assumption;
        destruct (decide (k = k0)); try contradiction; reflexivity.
Qed.

(** X15. Of the entries of the configured JSON object (its keys being
    distinct), exactly those whose value is a string become extra headers,
    with that value; the others are dropped.  The key [__proto__] is left
    apart: an assignment to it does not define a property. *)
Theorem extra_headers_lookup (entries : list (string * option string)) (k v : string) :
  NoDup entries.*1 ->
  k <> "__proto__" ->
  extra_headers (JObject entries) !! k = Some v <-> (k, Some v) ∈ entries.
Proof.
  intros Hnd Hk. unfold extra_headers.
  rewrite (extra_headers_fold_lookup entries ∅ k Hnd Hk), lookup_empty.
  rewrite (elem_of_list_to_map (M := gmap string) entries k (Some v) Hnd).
  destruct (list_to_map entries !! k) as [[v'|]|]; split; congruence.
Qed.

Lemma extra_headers_lookup_witness :
  extra_headers (JObject [("x-team", Some "pat"); ("x-retries", None)]) !! "x-team" = Some "pat".
Proof.
  apply (extra_headers_lookup [("x-team", Some "pat"); ("x-retries", None)] "x-team" "pat").
  - compute_done.
  - discriminate.
  - compute_done.
Defined.

Section SessionFacts.

Variable URL_pathname : string -> string -> option string.
Variable JSON_parse : string -> option Json.
Variable WebSocket_throws : string -> option string.
Variable end_throws : bool -> bool.

Lemma truthy_true (s : string) : s <> "" -> truthy s = true.
Proof.
  intros H. unfold truthy. apply negb_true_iff. now apply String.eqb_neq.
Qed.

Lemma open_session_configured (env : gmap string string) (s : Session) :
  let xaiKey := default "" (env !! "XAI_API_KEY") in
  let upstreamUrl := default "" (env !! "XAI_REALTIME_WS_URL") in
  trim xaiKey <> "" -> trim upstreamUrl <> "" ->
  open_session JSON_parse WebSocket_throws end_throws env s
  = match WebSocket_throws upstreamUrl with
    | Some message =>
        socket_end end_throws
          (add_event s (SocketWrite (error_frame ("Failed to connect upstream: " +:+ message))))
    | None =>
        (Val tt,
         {| buf := []; upstream := Some CONNECTING; socket_ended := socket_ended s;
            trace := trace s
                     ++ [UpstreamNew upstreamUrl
                           (configured_headers JSON_parse env
                              ∪ {[ "authorization" := "Bearer " +:+ xaiKey ]})] |})
    end.
Proof.
  cbv zeta. intros Hk Hu. unfold open_session.
  rewrite (truthy_true _ Hk), (truthy_true _ Hu). cbn [negb orb].
  destruct (WebSocket_throws _); reflexivity.
Qed.

(** X16. With the credential and the endpoint set, an accepted client
    gets its upstream connection: the relay constructs exactly one
    WebSocket, to the configured URL as written, and writes nothing to the
    client beyond the handshake; the session is Connecting.  The
    [authorization] header is [Bearer] and the credential as written,
    unless the extra headers have an [authorization] of their own, which
    then replaces it; the other headers are the extra headers (the key
    [__proto__] apart), and extra headers that are not valid JSON are
    ignored. *)
Theorem session_opened (env : gmap string string) (req : Request) (key : string) :
  request_pathname URL_pathname req = Some voice_path ->
  req_headers req !! "sec-websocket-key" = Some key ->
  req_headers req !! "sec-websocket-version" = Some "13" ->
  let xaiKey := default "" (env !! "XAI_API_KEY") in
  let upstreamUrl := default "" (env !! "XAI_REALTIME_WS_URL") in
  trim xaiKey <> "" -> trim upstreamUrl <> "" ->
  WebSocket_throws upstreamUrl = None ->
  let extra := configured_headers JSON_parse env in
  let r := on_upgrade URL_pathname JSON_parse WebSocket_throws end_throws env req new_session in
  r.1 = Val tt /\
  length (written (trace r.2)) = 1%nat /\
  lifecycle r.2 = Connecting /\
  exists headers,
    drop 2 (trace r.2) = [UpstreamNew upstreamUrl headers] /\
    headers !! "authorization"
    = Some (default ("Bearer " +:+ xaiKey) (extra !! "authorization")) /\
    (forall k, k <> "authorization" -> k <> "__proto__" -> headers !! k = extra !! k) /\
    (JSON_parse (default "" (env !! "XAI_REALTIME_HEADERS_JSON")) = None ->
     headers = {[ "authorization" := "Bearer " +:+ xaiKey ]}).
Proof.
  intros Hp Hk Hv xaiKey upstreamUrl Hkey Hurl Hws extra r.
  unfold r. rewrite (on_upgrade_accepted _ _ _ _ env req key Hp Hk Hv).
  rewrite (open_session_configured env _ Hkey Hurl). fold upstreamUrl. rewrite Hws.
  fold xaiKey. fold extra. cbn [fst snd trace app drop].
  split; [reflexivity|]. split; [reflexivity|]. split; [reflexivity|].
  exists (extra ∪ {[ "authorization" := "Bearer " +:+ xaiKey ]}).
  split; [reflexivity|]. split; [|split].
  - rewrite lookup_union, lookup_singleton_eq.
    destruct (extra !! "authorization") as [a|]; reflexivity.
  - intros k Hka _. rewrite lookup_union, lookup_singleton_ne by congruence.
    destruct (extra !! k); reflexivity.
  - intros Hj. unfold extra, configured_headers, safeJsonParse. rewrite Hj.
    destruct (truthy _); cbn [extra_headers]; apply (left_id_L ∅ (∪)).
Qed.

(** X17. When the WebSocket constructor throws, the client is sent
    exactly one structured error, which carries the exception's message
    after "Failed to connect upstream: ", and [socket.end()] is the last
    call; the session has no upstream connection. *)
Theorem upstream_connect_failure (env : gmap string string) (req : Request)
    (key message : string) :
  request_pathname URL_pathname req = Some voice_path ->
  req_headers req !! "sec-websocket-key" = Some key ->
  req_headers req !! "sec-websocket-version" = Some "13" ->
  let xaiKey := default "" (env !! "XAI_API_KEY") in
  let upstreamUrl := default "" (env !! "XAI_REALTIME_WS_URL") in
  trim xaiKey <> "" -> trim upstreamUrl <> "" ->
  WebSocket_throws upstreamUrl = Some message ->
  let frame := error_frame ("Failed to connect upstream: " +:+ message) in
  Buffer_ok frame ->
  let r := on_upgrade URL_pathname JSON_parse WebSocket_throws end_throws env req new_session in
  drop 2 (trace r.2) = [SocketWrite frame; SocketEnd] /\
  is_error_message (SocketWrite frame) = true /\
  upstream r.2 = None /\
  (end_throws false = false -> r.1 = Val tt /\ lifecycle r.2 = Closed).
Proof.
  intros Hp Hk Hv xaiKey upstreamUrl Hkey Hurl Hws frame Hok r.
  unfold r. rewrite (on_upgrade_accepted _ _ _ _ env req key Hp Hk Hv).
  rewrite (open_session_configured env _ Hkey Hurl). fold upstreamUrl. rewrite Hws.
  rewrite socket_end_eq. fold frame.
  cbn [fst snd trace app drop after_socket_end add_event upstream socket_ended].
  split; [reflexivity|]. split; [apply (error_frame_parse _ Hok)|].
  split; [reflexivity|]. intros He. split; [now rewrite He|].
  unfold lifecycle, after_socket_end, add_event. cbn [socket_ended]. now rewrite He.
Qed.

(** X18. One upgrade request constructs at most one upstream
    connection, and constructs it exactly when the request is accepted,
    the credential and the endpoint are not blank and the WebSocket
    constructor does not throw; it then goes to the configured URL as
    written.  In every other case no upstream connection is constructed
    and the session has none. *)
Theorem upstream_constructed_iff (env : gmap string string) (req : Request) :
  let xaiKey := default "" (env !! "XAI_API_KEY") in
  let upstreamUrl := default "" (env !! "XAI_REALTIME_WS_URL") in
  let r := on_upgrade URL_pathname JSON_parse WebSocket_throws end_throws env req new_session in
  let ready :=
    request_pathname URL_pathname req = Some voice_path /\
    is_Some (req_headers req !! "sec-websocket-key") /\
    req_headers req !! "sec-websocket-version" = Some "13" /\
    trim xaiKey <> "" /\ trim upstreamUrl <> "" /\
    WebSocket_throws upstreamUrl = None in
  (ready -> (upstream_constructions (trace r.2)).*1 = [upstreamUrl]) /\
  (~ ready -> upstream_constructions (trace r.2) = [] /\ upstream r.2 = None).
Proof.
  intros xaiKey upstreamUrl r ready. split.
  - intros (Hp & [key Hk] & Hv & Hkey & Hurl & Hws). unfold r.
    rewrite (on_upgrade_accepted _ _ _ _ env req key Hp Hk Hv).
    rewrite (open_session_configured env _ Hkey Hurl). fold upstreamUrl. rewrite Hws.
    reflexivity.
  - intros Hn. unfold r.
    destruct (request_pathname URL_pathname req) as [p|] eqn:Hp.
    2: { unfold request_pathname in Hp. unfold on_upgrade. rewrite Hp. split; reflexivity. }
    destruct (String.eqb p voice_path) eqn:Ep.
    2: { unfold request_pathname in Hp. unfold on_upgrade. rewrite Hp, Ep.
         split; reflexivity. }
    apply String.eqb_eq in Ep. subst p.
    destruct (req_headers req !! "sec-websocket-key") as [key|] eqn:Hk.
    2: { unfold request_pathname in Hp. unfold on_upgrade. rewrite Hp, Hk.
         split; reflexivity. }
    destruct (decide (req_headers req !! "sec-websocket-version" = Some "13")) as [Hv|Hv].
    2: { unfold request_pathname in Hp. unfold on_upgrade. rewrite Hp, Hk.
         rewrite bool_decide_eq_false_2 by assumption. split; reflexivity. }
    rewrite (on_upgrade_accepted _ _ _ _ env req key Hp Hk Hv).
    destruct (decide (trim xaiKey = "")) as [Hkey|Hkey].
    { rewrite open_session_missing by (left; exact Hkey). rewrite socket_end_eq.
      split; reflexivity. }
    destruct (decide (trim upstreamUrl = "")) as [Hurl|Hurl].
    { rewrite open_session_missing by (right; exact Hurl). rewrite socket_end_eq.
      split; reflexivity. }
    rewrite (open_session_configured env _ Hkey Hurl). fold upstreamUrl.
    destruct (WebSocket_throws upstreamUrl) as [message|] eqn:Hws.
    + rewrite socket_end_eq. split; reflexivity.
    + exfalso. apply Hn. unfold ready. eauto 10.
Qed.

End SessionFacts.

(** * A session from the upgrade to the relaying of frames *)

Lemma ready_obj_json : JSON_stringify [("type", "proxy.ready")] = ready_json.
Proof. reflexivity. Qed.

Lemma on_upstream_open_eq (s : Session) :
  on_upstream_open s
  = (Val tt,
     add_event
       {| buf := buf s; upstream := Some OPEN;
          socket_ended := socket_ended s; trace := trace s |}
       (SocketWrite ready_frame)).
Proof.
  unfold on_upstream_open. cbv [mbind M_bind set_upstream]. rewrite sendJson_eq.
  rewrite ready_obj_json. reflexivity.
Qed.

Section RelayedSessionFacts.

Variable URL_pathname : string -> string -> option string.
Variable JSON_parse : string -> option Json.
Variable WebSocket_throws : string -> option string.
Variable close_throws : ReadyState -> bool.
Variable end_throws : bool -> bool.

(** X19. In a session that was accepted and configured, the open event
    of the upstream connection sends the client one text frame, the
    message of type [proxy.ready], and what the client sends after it is
    relayed (text as the string [toString("utf8")] makes of it): the
    session is Active.  What the client sends before it is neither
    relayed nor kept for later: those frames are lost. *)
Theorem session_relays_after_open (env : gmap string string) (req : Request) (key : string)
    (chunk : Buffer) (frames : list Frame) (remaining : Buffer) :
  request_pathname URL_pathname req = Some voice_path ->
  req_headers req !! "sec-websocket-key" = Some key ->
  req_headers req !! "sec-websocket-version" = Some "13" ->
  trim (default "" (env !! "XAI_API_KEY")) <> "" ->
  trim (default "" (env !! "XAI_REALTIME_WS_URL")) <> "" ->
  WebSocket_throws (default "" (env !! "XAI_REALTIME_WS_URL")) = None ->
  Buffer_ok chunk ->
  parseWsFrames chunk = Some (Returned frames remaining) ->
  Forall (fun f => opcode f <> 8) frames ->
  Forall sendable frames ->
  let upgrade := on_upgrade URL_pathname JSON_parse WebSocket_throws end_throws env req in
  let data := on_data close_throws end_throws chunk in
  let late := (upgrade ;; on_upstream_open ;; data) new_session in
  let early := (upgrade ;; data ;; on_upstream_open) new_session in
  parseWsFrames ready_frame
  = Some (Returned [{| opcode := 1; payload := list_byte_of_string ready_json |}] []) /\
  late.1 = Val tt /\
  drop 3 (trace late.2) = SocketWrite ready_frame :: flat_map frame_events frames /\
  buf late.2 = remaining /\
  lifecycle late.2 = Active /\
  early.1 = Val tt /\
  drop 3 (trace early.2) = [SocketWrite ready_frame] /\
  buf early.2 = remaining /\
  lifecycle early.2 = Active.
Proof.
  intros Hp Hk Hv Hkey Hurl Hws Hok Hparse Hno Hsend upgrade data late early.
  split; [vm_compute; reflexivity|].
  assert (Hup : upgrade new_session
                = (Val tt,
                   {| buf := []; upstream := Some CONNECTING; socket_ended := false;
                      trace :=
                        [SocketWrite
                           (list_byte_of_string
                              (switching_protocols (sha1_base64 (key +:+ websocket_guid))));
                         SocketSetNoDelay;
                         UpstreamNew (default "" (env !! "XAI_REALTIME_WS_URL"))
                           (configured_headers JSON_parse env
                              ∪ {[ "authorization"
                                   := "Bearer " +:+ default "" (env !! "XAI_API_KEY") ]})] |})).
  { unfold upgrade. rewrite (on_upgrade_accepted _ _ _ _ env req key Hp Hk Hv).
    rewrite (open_session_configured _ _ _ env _ Hkey Hurl). rewrite Hws. reflexivity. }
  unfold late, early, data. cbv [mbind M_bind]. rewrite Hup.
  rewrite on_upstream_open_eq.
  rewrite (on_data_Returned close_throws end_throws chunk _ frames remaining)
    by assumption.
  rewrite (on_data_Returned close_throws end_throws chunk _ frames remaining)
    by assumption.
  rewrite handle_frames_no_close by (reflexivity || assumption).
  rewrite handle_frames_all_dropped by (cbn [upstream]; discriminate).
  rewrite on_upstream_open_eq.
  cbn [fst snd trace buf upstream socket_ended add_event add_events app drop lifecycle].
  repeat split; reflexivity.
Qed.

End RelayedSessionFacts.

(** * Properties of the loading of [.env.local] *)

Lemma parse_env_line_key (line k v : string) :
  parse_env_line line = Some (k, v) -> k <> "".
Proof.
  unfold parse_env_line. cbv zeta.
  destruct (negb (truthy (trim line)) || starts_with "#" (trim line)); [discriminate|].
  destruct (String.index 0 "=" (trim line)) as [i|]; [|discriminate].
  destruct (truthy (trim (String.substring 0 i (trim line)))) eqn:E; cbn [negb];
    [|discriminate].
  match goal with |- Some (_, ?value) = _ -> _ => generalize value end.
  intros value [= <- _] Hk. rewrite Hk in E. discriminate.
Qed.

Section EnvFacts.

Variable inherited : string -> bool.

Lemma env_has_false (env : gmap string string) (k : string) :
  env_has inherited env k = false -> env !! k = None /\ inherited k = false.
Proof.
  unfold env_has. intros H. apply orb_false_elim in H. destruct H as [H1 H2].
  split; [|assumption]. apply bool_decide_eq_false in H1.
  destruct (env !! k); [exfalso; apply H1; eauto|reflexivity].
Qed.

Lemma env_has_mono (env env' : gmap string string) (k : string) :
  env ⊆ env' -> env_has inherited env k = true -> env_has inherited env' k = true.
Proof.
  unfold env_has. intros Hsub H. apply orb_true_iff in H. apply orb_true_iff.
  destruct H as [H|H]; [left|right; assumption].
  apply bool_decide_eq_true in H. apply bool_decide_eq_true.
  destruct H as [v Hv]. exists v. eapply lookup_weaken; eassumption.
Qed.

Lemma load_line_subseteq (env : gmap string string) (line : string) :
  env ⊆ load_line inherited env line.
Proof.
  unfold load_line. destruct (parse_env_line line) as [[k v]|]; [|reflexivity].
  destruct (env_has inherited env k) eqn:E; [reflexivity|].
  apply insert_subseteq. now apply env_has_false in E.
Qed.

Lemma load_line_new (env : gmap string string) (line k : string) :
  is_Some (load_line inherited env line !! k) ->
  is_Some (env !! k) \/ (k <> "" /\ inherited k = false).
Proof.
  unfold load_line. destruct (parse_env_line line) as [[k0 v]|] eqn:Hp; [|auto].
  destruct (env_has inherited env k0) eqn:E; [auto|].
  destruct (decide (k = k0)) as [->|Hne].
  - intros _. right. split; [eapply parse_env_line_key; eassumption|].
    now apply env_has_false in E.
  - rewrite lookup_insert_ne by congruence. auto.
Qed.

Lemma load_lines_subseteq (lines : list string) (env : gmap string string) :
  env ⊆ fold_left (load_line inherited) lines env.
Proof.
  revert env. induction lines as [|line rest IH]; intros env; [reflexivity|].
  cbn [fold_left]. etransitivity; [apply load_line_subseteq | apply IH].
Qed.

Lemma load_lines_new (lines : list string) (env : gmap string string) (k : string) :
  is_Some (fold_left (load_line inherited) lines env !! k) ->
  is_Some (env !! k) \/ (k <> "" /\ inherited k = false).
Proof.
  revert env. induction lines as [|line rest IH]; intros env; [auto|].
  cbn [fold_left]. intros H. apply IH in H. destruct H as [H|H]; [|auto].
  now apply load_line_new in H.
Qed.

(** X20. Loading [.env.local] never changes or removes a variable that
    is already set: the environment before is contained in the one after,
    and every variable it adds has a non-empty name that [in] did not
    find before. *)
Theorem loadDotEnvLocal_keeps (file : option string) (env : gmap string string) :
  env ⊆ loadDotEnvLocal inherited file env /\
  forall k, is_Some (loadDotEnvLocal inherited file env !! k) ->
            is_Some (env !! k) \/ (k <> "" /\ inherited k = false).
Proof.
  destruct file as [raw|]; cbn [loadDotEnvLocal].
  - split; [apply load_lines_subseteq|]. intros k. apply load_lines_new.
  - split; [reflexivity|auto].
Qed.

Lemma load_line_has (env : gmap string string) (line k v : string) :
  parse_env_line line = Some (k, v) ->
  env_has inherited (load_line inherited env line) k = true.
Proof.
  intros Hp. unfold load_line. rewrite Hp.
  destruct (env_has inherited env k) eqn:E; [assumption|].
  unfold env_has. rewrite lookup_insert_eq. apply orb_true_iff. left.
  apply bool_decide_eq_true. eauto.
Qed.

Lemma load_lines_has (lines : list string) (env : gmap string string) (line k v : string) :
  line ∈ lines -> parse_env_line line = Some (k, v) ->
  env_has inherited (fold_left (load_line inherited) lines env) k = true.
Proof.
  revert env. induction lines as [|l0 rest IH]; intros env Hin Hp.
  - now apply elem_of_nil in Hin.
  - cbn [fold_left]. apply elem_of_cons in Hin. destruct Hin as [->|Hin].
    + eapply env_has_mono; [apply load_lines_subseteq|]. eapply load_line_has; eassumption.
    + now apply IH.
Qed.

Lemma load_lines_fixed (lines : list string) (env : gmap string string) :
  (forall line k v, line ∈ lines -> parse_env_line line = Some (k, v) ->
                    env_has inherited env k = true) ->
  fold_left (load_line inherited) lines env = env.
Proof.
  induction lines as [|l0 rest IH]; intros H; [reflexivity|].
  cbn [fold_left].
  assert (E : load_line inherited env l0 = env).
  { unfold load_line. destruct (parse_env_line l0) as [[k v]|] eqn:Hp; [|reflexivity].
    rewrite (H l0 k v); [reflexivity|apply elem_of_cons; auto|assumption]. }
  rewrite E. apply IH. intros line k v Hin. apply H. apply elem_of_cons. auto.
Qed.

(** X21. Loading the same file a second time changes nothing. *)
Theorem loadDotEnvLocal_idempotent (file : option string) (env : gmap string string) :
  loadDotEnvLocal inherited file (loadDotEnvLocal inherited file env)
  = loadDotEnvLocal inherited file env.
Proof.
  destruct file as [raw|]; cbn [loadDotEnvLocal]; [|reflexivity].
  apply load_lines_fixed. intros line k v Hin Hp. eapply load_lines_has; eassumption.
Qed.

End EnvFacts.

Lemma ws1_plain (a : N) : plain_code a -> ws1 a = false.
Proof.
  unfold plain_code, ws1. intros H.
  destruct (N.leb_spec a 13); [lia|]. destruct (N.eqb_spec a 32); [lia|].
  now rewrite andb_false_r.
Qed.

Lemma ws2_plain (a b : N) : plain_code a -> ws2 a b = false /\ ws2 b a = false.
Proof.
  unfold plain_code, ws2. intros H.
  destruct (N.eqb_spec a 194); [lia|]. destruct (N.eqb_spec a 160); [lia|].
  split; [reflexivity|apply andb_false_r].
Qed.

Lemma ws3_plain (a b c : N) : plain_code a -> ws3 a b c = false /\ ws3 c b a = false.
Proof.
  unfold plain_code, ws3. intros H.
  destruct (N.eqb_spec a 225); [lia|]. destruct (N.eqb_spec a 226); [lia|].
  destruct (N.eqb_spec a 227); [lia|]. destruct (N.eqb_spec a 239); [lia|].
  destruct (N.eqb_spec a 128); [lia|]. destruct (N.eqb_spec a 168); [lia|].
  destruct (N.eqb_spec a 169); [lia|]. destruct (N.eqb_spec a 175); [lia|].
  destruct (N.eqb_spec a 159); [lia|]. destruct (N.eqb_spec a 191); [lia|].
  destruct (N.leb_spec 128 a); [lia|].
  split; [reflexivity|].
  cbn [andb orb]. rewrite !andb_false_r. reflexivity.
Qed.

Lemma strip_ws_plain (rev_order : bool) (l : list N) :
  Forall plain_code l -> strip_ws rev_order l = l.
Proof.
  intros H. destruct l as [|a r1]; [reflexivity|].
  apply Forall_cons in H. destruct H as [Ha _].
  cbn [strip_ws]. rewrite (ws1_plain a Ha).
  destruct r1 as [|b r2]; [reflexivity|].
  destruct (ws2_plain a b Ha) as [E1 E2]. rewrite E1, E2.
  destruct rev_order; (destruct r2 as [|c r3]; [reflexivity|]);
    destruct (ws3_plain a b c Ha) as [E3 E4]; rewrite ?E3, ?E4; reflexivity.
Qed.

Lemma string_of_codes_codes (s : string) : string_of_codes (codes s) = s.
Proof.
  unfold string_of_codes, codes. induction s as [|c s IH]; [reflexivity|].
  cbn [list_ascii_of_string fmap list_fmap string_of_list_ascii].
  rewrite ascii_N_embedding. f_equal. exact IH.
Qed.

Lemma plain_plain_code (c : ascii) : plain c = true -> plain_code (N_of_ascii c).
Proof.
  unfold plain, plain_code. intros H. apply andb_prop in H. destruct H as [H1 H2].
  apply N.leb_le in H1, H2. lia.
Qed.

(** A string of printable characters without spaces is its own trim. *)
Lemma trim_plain (s : string) :
  forallb plain (list_ascii_of_string s) = true -> trim s = s.
Proof.
  intros H. unfold trim.
  assert (Hc : Forall plain_code (codes s)).
  { unfold codes. apply Forall_fmap. apply Forall_forall. intros c Hin.
    apply plain_plain_code. rewrite forallb_forall in H. apply H.
    now apply list_elem_of_In. }
  rewrite (strip_ws_plain false _ Hc).
  rewrite (strip_ws_plain true (rev (codes s))) by (now apply Forall_rev).
  rewrite rev_involutive. apply string_of_codes_codes.
Qed.

Lemma verbatim_cons (c : ascii) (s : string) :
  verbatim (String c s) = true ->
  plain c = true /\ c <> "="%char /\ c <> "034"%char /\ c <> "'"%char /\ verbatim s = true.
Proof.
  unfold verbatim. cbn [list_ascii_of_string forallb]. intros H.
  apply andb_prop in H. destruct H as [H Hs].
  apply andb_prop in H. destruct H as [H H3].
  apply andb_prop in H. destruct H as [H H2].
  apply andb_prop in H. destruct H as [H0 H1].
  apply negb_true_iff, Ascii.eqb_neq in H1, H2, H3. auto.
Qed.

Lemma verbatim_plain (s : string) :
  verbatim s = true -> forallb plain (list_ascii_of_string s) = true.
Proof.
  induction s as [|c s IH]; [reflexivity|]. intros H.
  destruct (verbatim_cons c s H) as (Hp & _ & _ & _ & Hs).
  cbn [list_ascii_of_string forallb]. rewrite Hp. cbn [andb]. now apply IH.
Qed.

Lemma plain_app (a b : string) :
  forallb plain (list_ascii_of_string a) = true ->
  forallb plain (list_ascii_of_string b) = true ->
  forallb plain (list_ascii_of_string (a +:+ b)) = true.
Proof.
  intros Ha Hb. rewrite list_ascii_of_string_app, forallb_app, Ha, Hb. reflexivity.
Qed.

Lemma string_app_cons (c : ascii) (a b : string) : String c a +:+ b = String c (a +:+ b).
Proof. reflexivity. Qed.

Lemma index_eq_sign (k rest : string) :
  verbatim k = true ->
  String.index 0 "=" (k +:+ String "=" rest) = Some (String.length k).
Proof.
  induction k as [|c k IH]; intros H.
  - change ("" +:+ String "=" rest) with (String "=" rest).
    cbn [String.index String.prefix]. destruct (ascii_dec "=" "="); [|contradiction].
    destruct rest; reflexivity.
  - destruct (verbatim_cons c k H) as (_ & Hne & _ & _ & Hk).
    rewrite string_app_cons. cbn [String.index String.prefix String.length].
    destruct (ascii_dec "=" c) as [E|_]; [congruence|].
    rewrite (IH Hk). reflexivity.
Qed.

Lemma substring_prefix (a b : string) : String.substring 0 (String.length a) (a +:+ b) = a.
Proof.
  induction a as [|c a IH].
  - change ("" +:+ b) with b. destruct b; reflexivity.
  - rewrite string_app_cons. cbn [String.length String.substring]. now rewrite IH.
Qed.

Lemma string_length_app (a b : string) :
  String.length (a +:+ b) = (String.length a + String.length b)%nat.
Proof.
  induction a as [|c a IH]; [reflexivity|].
  rewrite string_app_cons. cbn [String.length]. now rewrite IH.
Qed.

Lemma substring_all (s : string) : String.substring 0 (String.length s) s = s.
Proof.
  rewrite <- (substring_prefix s "") at 2.
  induction s as [|c s IH]; [reflexivity|].
  rewrite string_app_cons. cbn [String.length String.substring]. now rewrite IH.
Qed.

Lemma slice_after_eq_sign (k rest : string) :
  slice_from (String.length k + 1) (k +:+ String "=" rest) = rest.
Proof.
  unfold slice_from. rewrite string_length_app. cbn [String.length].
  replace (String.length k + S (String.length rest) - (String.length k + 1))%nat
    with (String.length rest) by lia.
  induction k as [|c k IH].
  - change ("" +:+ String "=" rest) with (String "=" rest).
    cbn [String.length Nat.add String.substring]. apply substring_all.
  - rewrite string_app_cons. cbn [String.length Nat.add String.substring]. exact IH.
Qed.

Lemma ends_with_app (q : ascii) (s : string) :
  ends_with q (s +:+ String q EmptyString) = true.
Proof.
  induction s as [|c s IH].
  - cbn. apply Ascii.eqb_refl.
  - rewrite string_app_cons. cbn [ends_with].
    destruct (s +:+ String q "") eqn:E; [|exact IH].
    destruct s; discriminate.
Qed.

Lemma starts_with_verbatim (q : ascii) (v : string) :
  verbatim v = true -> q = "034"%char \/ q = "'"%char -> starts_with q v = false.
Proof.
  intros H Hq. destruct v as [|c v]; [reflexivity|].
  destruct (verbatim_cons c v H) as (_ & _ & H1 & H2 & _).
  cbn [starts_with]. apply Ascii.eqb_neq. destruct Hq; congruence.
Qed.

Lemma truthy_cons (c : ascii) (s : string) : truthy (String c s) = true.
Proof. reflexivity. Qed.

(** The line [key=value] for a value that trims to itself. *)
Lemma parse_key_value (k value : string) :
  k <> "" -> verbatim k = true -> starts_with "#" k = false ->
  forallb plain (list_ascii_of_string value) = true ->
  parse_env_line (k +:+ String "=" value)
  = Some (k,
          if starts_with "034" value && ends_with "034" value
             || starts_with "'" value && ends_with "'" value
          then strip_ends value
          else value).
Proof.
  intros Hk Hv Hhash Hval. unfold parse_env_line. cbv zeta.
  assert (Hline : trim (k +:+ String "=" value) = k +:+ String "=" value).
  { apply trim_plain. apply plain_app; [now apply verbatim_plain|].
    cbn [list_ascii_of_string forallb]. rewrite Hval. reflexivity. }
  rewrite Hline.
  destruct k as [|c k]; [contradiction|].
  rewrite (string_app_cons c k). rewrite truthy_cons.
  cbn [negb orb starts_with] in *. rewrite Hhash.
  rewrite <- (string_app_cons c k).
  rewrite (index_eq_sign (String c k) value Hv).
  rewrite substring_prefix, slice_after_eq_sign.
  rewrite (trim_plain (String c k)) by (now apply verbatim_plain).
  rewrite (trim_plain value Hval). rewrite truthy_cons. reflexivity.
Qed.

Lemma split_lines_from_plain (cur l : list ascii) :
  forallb plain l = true ->
  split_lines_from cur l = [string_of_list_ascii (rev cur ++ l)].
Proof.
  revert cur. induction l as [|c l IH]; intros cur H.
  - cbn. now rewrite app_nil_r.
  - cbn [forallb] in H. apply andb_prop in H. destruct H as [Hc Hl].
    cbn [split_lines_from].
    assert (E : Ascii.eqb c LF = false).
    { apply Ascii.eqb_neq. intros ->. discriminate. }
    rewrite E, (IH _ Hl). cbn [rev]. now rewrite <- app_assoc.
Qed.

Lemma strip_ends_quoted (q : ascii) (v : string) :
  strip_ends (String q (v +:+ String q EmptyString)) = v.
Proof.
  unfold strip_ends. cbn [String.length]. rewrite string_length_app. cbn [String.length].
  replace (S (String.length v + 1) - 2)%nat with (String.length v) by lia.
  cbn [String.substring]. apply substring_prefix.
Qed.

(** X22. A line [KEY=VALUE] whose name and value are printable
    characters without spaces, [=] or quotes (the name not empty and not
    starting with [#]) defines [KEY] as [VALUE]; so does the line with the
    value in double or single quotes, the quotes being removed; and a file
    that is this one line sets the variable unless it is already there. *)
Theorem env_line_defines (inherited : string -> bool) (k v : string) :
  k <> "" -> verbatim k = true -> verbatim v = true -> starts_with "#" k = false ->
  parse_env_line (k +:+ "=" +:+ v) = Some (k, v) /\
  parse_env_line (k +:+ "=" +:+ dquote +:+ v +:+ dquote) = Some (k, v) /\
  parse_env_line (k +:+ "='" +:+ v +:+ "'") = Some (k, v) /\
  forall env, env_has inherited env k = false ->
    loadDotEnvLocal inherited (Some (k +:+ "=" +:+ v)) env = <[k := v]> env.
Proof.
  intros Hk Hkv Hv Hhash.
  pose proof (verbatim_plain v Hv) as Hvp.
  assert (H1 : parse_env_line (k +:+ "=" +:+ v) = Some (k, v)).
  { change ("=" +:+ v) with (String "=" v).
    rewrite (parse_key_value k v Hk Hkv Hhash Hvp).
    rewrite !(starts_with_verbatim _ v Hv) by auto. reflexivity. }
  assert (Hq : forall q, q = "034"%char \/ q = "'"%char ->
    parse_env_line (k +:+ String "=" (String q (v +:+ String q EmptyString))) = Some (k, v)).
  { intros q Hq'.
    assert (Hqp : plain q = true) by (destruct Hq' as [->| ->]; reflexivity).
    rewrite (parse_key_value k _ Hk Hkv Hhash).
    - pose proof (ends_with_app q (String q v)) as He.
      rewrite string_app_cons in He.
      destruct Hq' as [->| ->]; cbn [starts_with]; rewrite ?Ascii.eqb_refl, ?He;
        cbn [andb orb]; rewrite strip_ends_quoted; reflexivity.
    - cbn [list_ascii_of_string forallb]. rewrite Hqp. cbn [andb].
      rewrite list_ascii_of_string_app, forallb_app, Hvp. cbn. now rewrite Hqp. }
  split; [exact H1|]. split; [exact (Hq "034"%char (or_introl eq_refl))|].
  split; [exact (Hq "'"%char (or_intror eq_refl))|].
  intros env Hhas. cbn [loadDotEnvLocal]. unfold split_lines.
  rewrite split_lines_from_plain.
  - cbn [rev app fold_left]. rewrite string_of_list_ascii_of_string.
    unfold load_line. rewrite H1, Hhas. reflexivity.
  - change ("=" +:+ v) with (String "=" v).
    apply plain_app; [now apply verbatim_plain|].
    cbn [list_ascii_of_string forallb]. now rewrite Hvp.
Qed.

Lemma env_line_defines_witness :
  parse_env_line ("XAI_API_KEY" +:+ "=" +:+ "xai-123") = Some ("XAI_API_KEY", "xai-123") /\
  loadDotEnvLocal (fun _ => false) (Some ("XAI_API_KEY" +:+ "=" +:+ "xai-123")) ∅
  = <["XAI_API_KEY" := "xai-123"]> ∅.
Proof.
  destruct (env_line_defines (fun _ => false) "XAI_API_KEY" "xai-123") as (H1 & _ & _ & H4).
  - discriminate.
  - reflexivity.
  - reflexivity.
  - reflexivity.
  - split; [exact H1|]. apply H4. reflexivity.
Defined.

(** * The further properties at concrete sessions and requests *)

Lemma frames_handled_in_order_witness :
  handle_frames never_throws_close never_throws_end sample_batch active_session
  = (Val tt,
     add_events active_session
       [UpstreamSendText [x68; x69; xef; xbf; xbd]; SocketWrite [x8a; x01; x01]]).
Proof.
  apply (frames_handled_in_order never_throws_close never_throws_end sample_batch
           active_session).
  - reflexivity.
  - repeat (apply Forall_cons_2; [discriminate|]). apply Forall_nil_2.
  - repeat (apply Forall_cons_2; [intros _; apply Z.leb_le; reflexivity|]).
    apply Forall_nil_2.
Defined.

Lemma close_frame_ends_batch_witness :
  handle_frames never_throws_close never_throws_end
    (sample_batch ++ {| opcode := 8; payload := [] |} :: sample_batch) active_session
  = (Val tt,
     after_closeBoth never_throws_close never_throws_end
       (add_events active_session (flat_map frame_events sample_batch))).
Proof.
  apply (close_frame_ends_batch never_throws_close never_throws_end sample_batch
           sample_batch {| opcode := 8; payload := [] |} active_session).
  - reflexivity.
  - repeat (apply Forall_cons_2; [discriminate|]). apply Forall_nil_2.
  - repeat (apply Forall_cons_2; [intros _; apply Z.leb_le; reflexivity|]).
    apply Forall_nil_2.
  - reflexivity.
Defined.

Lemma data_dropped_unless_open_witness :
  on_data never_throws_close never_throws_end (masked_text ++ [x81]) connecting_session
  = (Val tt,
     {| buf := [x81]; upstream := Some CONNECTING; socket_ended := false; trace := [] |}).
Proof.
  apply (data_dropped_unless_open never_throws_close never_throws_end (masked_text ++ [x81])
           connecting_session [{| opcode := 1; payload := list_byte_of_string "hi" |}] [x81]).
  - discriminate.
  - reflexivity.
Defined.

Lemma on_data_exceptions_witness :
  exists s' evs,
    on_data (fun _ => true) (fun _ => true) [x88; x80; x01; x02; x03; x04] active_session
    = (Val tt, s') /\
    trace s' = trace active_session ++ evs.
Proof.
  destruct (on_data_exceptions (fun _ => true) (fun _ => true)
              [x88; x80; x01; x02; x03; x04] active_session)
    as (r & s' & evs & E & Htr & _ & _ & Hshort).
  exists s', evs. rewrite E. split; [|exact Htr].
  rewrite Hshort; [reflexivity|]. apply Z.leb_le. reflexivity.
Defined.

Lemma session_opened_witness :
  let r := on_upgrade plain_pathname no_json connects never_throws_end
             env_with_config sample_request new_session in
  r.1 = Val tt /\
  drop 2 (trace r.2)
  = [UpstreamNew "wss://api.x.ai/v1/realtime" {[ "authorization" := "Bearer xai-123" ]}] /\
  lifecycle r.2 = Connecting.
Proof.
  destruct (session_opened plain_pathname no_json connects never_throws_end
              env_with_config sample_request "dGhlIHNhbXBsZSBub25jZQ==")
    as (H1 & _ & H4 & headers & H2 & _ & _ & H6).
  - vm_compute. reflexivity.
  - vm_compute. reflexivity.
  - vm_compute. reflexivity.
  - vm_compute. discriminate.
  - vm_compute. discriminate.
  - reflexivity.
  - split; [exact H1|]. split; [|exact H4].
    rewrite H2. rewrite (H6 eq_refl). reflexivity.
Defined.

Lemma upstream_connect_failure_witness :
  let frame := error_frame ("Failed to connect upstream: " +:+ "Invalid URL") in
  let r := on_upgrade plain_pathname no_json refuses never_throws_end
             env_with_config sample_request new_session in
  drop 2 (trace r.2) = [SocketWrite frame; SocketEnd] /\
  is_error_message (SocketWrite frame) = true /\
  upstream r.2 = None /\
  (never_throws_end false = false -> r.1 = Val tt /\ lifecycle r.2 = Closed).
Proof.
  apply (upstream_connect_failure plain_pathname no_json refuses never_throws_end
           env_with_config sample_request "dGhlIHNhbXBsZSBub25jZQ==" "Invalid URL").
  - vm_compute. reflexivity.
  - vm_compute. reflexivity.
  - vm_compute. reflexivity.
  - vm_compute. discriminate.
  - vm_compute. discriminate.
  - reflexivity.
  - unfold Buffer_ok. apply Z.leb_le. reflexivity.
Defined.

Lemma upstream_constructed_iff_witness :
  let r := on_upgrade plain_pathname no_json connects never_throws_end
             env_with_config sample_request new_session in
  (upstream_constructions (trace r.2)).*1 = ["wss://api.x.ai/v1/realtime"].
Proof.
  apply (proj1 (upstream_constructed_iff plain_pathname no_json connects never_throws_end
                  env_with_config sample_request)).
  split; [vm_compute; reflexivity|].
  split; [exists "dGhlIHNhbXBsZSBub25jZQ=="; vm_compute; reflexivity|].
  split; [vm_compute; reflexivity|].
  split; [vm_compute; discriminate|].
  split; [vm_compute; discriminate|].
  reflexivity.
Defined.

Lemma session_relays_after_open_witness :
  let upgrade := on_upgrade plain_pathname no_json connects never_throws_end
                   env_with_config sample_request in
  let data := on_data never_throws_close never_throws_end masked_text in
  drop 3 (trace ((upgrade ;; on_upstream_open ;; data) new_session).2)
  = [SocketWrite ready_frame; UpstreamSendText (list_byte_of_string "hi")] /\
  drop 3 (trace ((upgrade ;; data ;; on_upstream_open) new_session).2)
  = [SocketWrite ready_frame].
Proof.
  destruct (session_relays_after_open plain_pathname no_json connects never_throws_close
              never_throws_end env_with_config sample_request "dGhlIHNhbXBsZSBub25jZQ=="
              masked_text [{| opcode := 1; payload := list_byte_of_string "hi" |}] [])
    as (_ & _ & H1 & _ & _ & _ & H2 & _).
  - vm_compute. reflexivity.
  - vm_compute. reflexivity.
  - vm_compute. reflexivity.
  - vm_compute. discriminate.
  - vm_compute. discriminate.
  - reflexivity.
  - unfold Buffer_ok. apply Z.leb_le. reflexivity.
  - vm_compute. reflexivity.
  - apply Forall_cons_2; [discriminate | apply Forall_nil_2].
  - apply Forall_cons_2; [intros _; apply Z.leb_le; reflexivity | apply Forall_nil_2].
  - split; [exact H1 | exact H2].
Defined.
